(** * YT-Playlists_Downloader: validator, connectivity wait, job pipeline, scheduler

    A shallow embedding of
    - the validator ([isValidYouTubeUrl], [extractPlaylistId], [sanitizeFilename])
      and the logger,
    - [services/youtube/fetcher.ts] ([validateAndExtractId]),
    - the downloader with its connectivity-aware retries ([isNetworkError],
      [waitForReconnect], [downloadSong], [downloadSongs]),
    followed by the properties of the download pipeline.

    The second part of the development adds
    - [extractVideoId], run by a backtracking matcher,
    - the downloader without the retry loop (module [Plain]) and its
      comparison with the one above,
    - the rest of the fetcher ([fetchPlaylistMetadata], [fetchSongDetails],
      module [Fetcher]) over JavaScript values,
    - [services/metadata/tagger.ts] (module [Tagger]),
    - [getDirectorySize] of [services/zipper/zipper.ts] (module [Zipper]),
    with assertions along a computation ([triple]) and a comparison of two
    computations ([simulates]) as the means of proof.  [createZip] and the
    command-line action are left out: they are callbacks of the archiver and
    of the option parser.

    The repository also holds a variant of the downloader without the retry
    loop; its [downloadSongs] is the same, and the pipeline modelled here is
    the one with the retries.

    Modelling choices.  Strings are lists of UTF-16 code units.  A job runs
    in a [World] that scripts the answers of the network probe, of the
    retrieval tool and of the transcoder, and records what the job does in a
    trace; an answer that never comes leaves the job [Waiting].  The file
    system calls, the progress callback and the logger do not throw.  The
    batch is a transition system over the state of the queue, one step per
    job that settles, in any order.  The concurrency is a JavaScript number:
    NaN, an infinity or a finite value, which the queue compares with its
    count of running jobs; the text of a number in a template literal is a
    parameter. *)

From Stdlib Require Import String Ascii.
From Stdlib Require Import List NArith ZArith Bool Arith Lia.
From Stdlib Require Import Permutation Sorted.
From Stdlib Require Import QArith Qround.
Import ListNotations.

Close Scope Q_scope.

Set Implicit Arguments.

(* ================================================================= *)
(** ** JavaScript strings *)

(** A JavaScript string is a sequence of UTF-16 code units. *)
Definition char16 := N.
Definition jsstring := list char16.

Fixpoint lit (s : string) : jsstring :=
  match s with
  | EmptyString => []
  | String a s' => N_of_ascii a :: lit s'
  end.

Definition jsstring_eqb (a b : jsstring) : bool :=
  if list_eq_dec N.eq_dec a b then true else false.

(** The double quote, written by its code unit. *)
Definition dq : jsstring := [34%N].

(** Decimal rendering of a template-literal number (non-negative integers). *)
Fixpoint digits_fuel (fuel : nat) (n : N) (acc : jsstring) : jsstring :=
  match fuel with
  | O => acc
  | S fuel' =>
      let acc' := (48 + n mod 10)%N :: acc in
      if (n <? 10)%N then acc' else digits_fuel fuel' (n / 10)%N acc'
  end.

Definition num_to_string (n : nat) : jsstring :=
  digits_fuel (S n) (N.of_nat n) [].

(* ================================================================= *)
(** ** Regular expressions, as far as the source uses them *)

Module Regex.

Inductive regex : Type :=
| Void                                   (* matches nothing *)
| Eps                                    (* matches the empty string *)
| Chr (c : char16)                       (* a literal character *)
| Class (ranges : list (char16 * char16))  (* [a-z...] : inclusive ranges *)
| Seq (r1 r2 : regex)
| Alt (r1 r2 : regex)
| Star (r : regex).

Definition Opt (r : regex) : regex := Alt r Eps.               (* r? *)
Definition Plus (r : regex) : regex := Seq r (Star r).         (* r+ *)

Fixpoint Str (s : jsstring) : regex :=
  match s with
  | [] => Eps
  | c :: s' => Seq (Chr c) (Str s')
  end.

(** Canonicalize of the [i] flag (non-unicode mode).  Every literal of the
    source's patterns is ASCII, and a code unit of 128 or more never
    canonicalizes to an ASCII one, so upper-casing a-z is exact here. *)
Definition canon (c : char16) : char16 :=
  if ((97 <=? c) && (c <=? 122))%N then (c - 32)%N else c.

Definition chr_eqb (ignoreCase : bool) (a b : char16) : bool :=
  if ignoreCase then (canon a =? canon b)%N else (a =? b)%N.

Definition in_ranges (rs : list (char16 * char16)) (c : char16) : bool :=
  existsb (fun r => ((fst r <=? c) && (c <=? snd r))%N) rs.

Fixpoint nullable (r : regex) : bool :=
  match r with
  | Void => false
  | Eps => true
  | Chr _ => false
  | Class _ => false
  | Seq r1 r2 => nullable r1 && nullable r2
  | Alt r1 r2 => nullable r1 || nullable r2
  | Star _ => true
  end.

(** Brzozowski derivative. *)
Fixpoint deriv (i : bool) (c : char16) (r : regex) : regex :=
  match r with
  | Void => Void
  | Eps => Void
  | Chr a => if chr_eqb i a c then Eps else Void
  | Class rs => if in_ranges rs c then Eps else Void
  | Seq r1 r2 =>
      if nullable r1
      then Alt (Seq (deriv i c r1) r2) (deriv i c r2)
      else Seq (deriv i c r1) r2
  | Alt r1 r2 => Alt (deriv i c r1) (deriv i c r2)
  | Star r1 => Seq (deriv i c r1) (Star r1)
  end.

(** Some prefix of [s] matches [r]. *)
Fixpoint matches_prefix (i : bool) (r : regex) (s : jsstring) : bool :=
  nullable r ||
  match s with
  | [] => false
  | c :: s' => matches_prefix i (deriv i c r) s'
  end.

(** [RegExp.prototype.test] without the [g] flag: a match starting anywhere. *)
Fixpoint test (i : bool) (r : regex) (s : jsstring) : bool :=
  matches_prefix i r s ||
  match s with
  | [] => false
  | _ :: s' => test i r s'
  end.

(** Denotation of a regex, to state what the matcher computes. *)
Inductive denotes (i : bool) : regex -> jsstring -> Prop :=
| d_eps : denotes i Eps []
| d_chr a c : chr_eqb i a c = true -> denotes i (Chr a) [c]
| d_class rs c : in_ranges rs c = true -> denotes i (Class rs) [c]
| d_seq r1 r2 s1 s2 :
    denotes i r1 s1 -> denotes i r2 s2 -> denotes i (Seq r1 r2) (s1 ++ s2)
| d_alt_l r1 r2 s : denotes i r1 s -> denotes i (Alt r1 r2) s
| d_alt_r r1 r2 s : denotes i r2 s -> denotes i (Alt r1 r2) s
| d_star_nil r : denotes i (Star r) []
| d_star_cons r s1 s2 :
    denotes i r s1 -> denotes i (Star r) s2 -> denotes i (Star r) (s1 ++ s2).

End Regex.
Import Regex.

(* ================================================================= *)
(** ** utils/validator.ts *)

(** [(?:https?:)?\/\/] *)
Definition re_scheme : regex :=
  Seq (Opt (Seq (Str (lit "http")) (Seq (Opt (Chr 115%N)) (Chr 58%N))))
      (Str (lit "//")).

(** [(?:www\.)?] *)
Definition re_www : regex := Opt (Str (lit "www.")).

Definition youtubePatterns : list regex :=
  [ Seq re_scheme (Seq re_www (Str (lit "youtube.com/playlist?list=")));
    Seq re_scheme (Seq re_www (Str (lit "youtube.com/watch?v=")));
    Seq re_scheme (Str (lit "music.youtube.com/playlist?list="));
    Seq re_scheme (Str (lit "music.youtube.com/browse/"));
    Seq re_scheme (Str (lit "youtu.be/")) ].

(** [youtubePatterns.some(pattern => pattern.test(url))], every pattern
    carrying the [i] flag. *)
Definition isValidYouTubeUrl (url : jsstring) : bool :=
  existsb (fun pattern => test true pattern url) youtubePatterns.

(** [[a-zA-Z0-9_-]] *)
Definition id_ranges : list (char16 * char16) :=
  [(97, 122); (65, 90); (48, 57); (95, 95); (45, 45)]%N.

(** [/[?&]list=([a-zA-Z0-9_-]+)/] *)
Definition re_playlist_id : regex :=
  Seq (Class [(63, 63); (38, 38)]%N)
      (Seq (Str (lit "list=")) (Plus (Class id_ranges))).

Fixpoint take_while (p : char16 -> bool) (s : jsstring) : jsstring :=
  match s with
  | [] => []
  | c :: s' => if p c then c :: take_while p s' else []
  end.

Fixpoint starts_with (p s : jsstring) : option jsstring :=
  match p, s with
  | [], _ => Some s
  | a :: p', c :: s' => if (a =? c)%N then starts_with p' s' else None
  | _ :: _, [] => None
  end.

(** [url.match(/[?&]list=([a-zA-Z0-9_-]+)/)?.[1] ?? null]: the leftmost
    match, its group taken greedily. *)
Fixpoint extractPlaylistId (url : jsstring) : option jsstring :=
  match url with
  | [] => None
  | c :: rest =>
      let here :=
        if in_ranges [(63, 63); (38, 38)]%N c then
          match starts_with (lit "list=") rest with
          | Some tail =>
              match take_while (in_ranges id_ranges) tail with
              | [] => None
              | id => Some id
              end
          | None => None
          end
        else None in
      match here with
      | Some id => Some id
      | None => extractPlaylistId rest
      end
  end.

(** JavaScript's [\s] and the characters [trim] strips: WhiteSpace and
    LineTerminator. *)
Definition is_space (c : char16) : bool :=
  in_ranges [(9, 13); (32, 32); (160, 160); (5760, 5760); (8192, 8202);
             (8232, 8233); (8239, 8239); (8287, 8287); (12288, 12288);
             (65279, 65279)]%N c.

(** The characters of the class in [sanitizeFilename]'s first [replace]:
    slash, backslash, question mark, percent, asterisk, colon, bar, double
    quote, less-than, greater-than. *)
Definition illegal_chars : list char16 :=
  [47; 92; 63; 37; 42; 58; 124; 34; 60; 62]%N.

Definition is_illegal (c : char16) : bool :=
  existsb (N.eqb c) illegal_chars.

(** The first [.replace(..., '')], with the [g] flag: every such character
    is removed. *)
Definition strip_illegal (s : jsstring) : jsstring :=
  filter (fun c => negb (is_illegal c)) s.

(** [.replace(/\s+/g, ' ')]: every maximal run of white space becomes one
    space.  [in_run] tells that the previous character was white space. *)
Fixpoint collapse_from (in_run : bool) (s : jsstring) : jsstring :=
  match s with
  | [] => []
  | c :: s' =>
      if is_space c
      then if in_run then collapse_from true s' else 32%N :: collapse_from true s'
      else c :: collapse_from false s'
  end.

Definition collapse_spaces (s : jsstring) : jsstring := collapse_from false s.

Fixpoint trim_start (s : jsstring) : jsstring :=
  match s with
  | [] => []
  | c :: s' => if is_space c then trim_start s' else s
  end.

Definition trim_end (s : jsstring) : jsstring := rev (trim_start (rev s)).

(** [.trim()] *)
Definition trim (s : jsstring) : jsstring := trim_end (trim_start s).

(** [.slice(0, n)] *)
Definition slice0 (n : nat) (s : jsstring) : jsstring := firstn n s.

Definition sanitizeFilename (fileName : jsstring) : jsstring :=
  slice0 200 (trim (collapse_spaces (strip_illegal fileName))).

(* ================================================================= *)
(** ** Thrown values *)

(** What a [catch (error)] clause can receive: an [Error] object with its
    message, or any other value. *)
Inductive thrown : Type :=
| ErrorObj (message : jsstring)
| NonError.

(** [error instanceof Error ? error.message : 'Unknown error'] *)
Definition message_of (error : thrown) : jsstring :=
  match error with
  | ErrorObj message => message
  | NonError => lit "Unknown error"
  end.

(* ================================================================= *)
(** ** services/youtube/fetcher.ts: validateAndExtractId *)

Definition validateAndExtractId (url : jsstring) : thrown + jsstring :=
  if negb (isValidYouTubeUrl url) then
    inl (ErrorObj (lit "Invalid YouTube URL: " ++ url))
  else
    match extractPlaylistId url with
    | None => inl (ErrorObj (lit "Could not extract playlist ID from URL: " ++ url))
    | Some [] => inl (ErrorObj (lit "Could not extract playlist ID from URL: " ++ url))
    | Some playlistId => inr playlistId
    end.

(* ================================================================= *)
(** ** types/index.ts and the downloader's result type *)

Record Song : Type := {
  song_id : jsstring;
  song_title : jsstring;
  song_artist : jsstring;
  song_duration : Z;
  coverUrl : option jsstring;
  downloadUrl : option jsstring
}.

Inductive Status : Type :=
| pending | downloading | converting | completed | failed.

Record DownloadProgress : Type := {
  songId : jsstring;
  title : jsstring;
  status : Status;
  progress : Z;
  p_error : option jsstring
}.

Record DownloadResult : Type := {
  song : Song;
  filePath : jsstring;
  success : bool;
  error : option jsstring
}.

(* ================================================================= *)
(** ** The world a job runs in *)

(** One run of the external retrieval tool ([execSync] of yt-dlp): it returns,
    or it throws; a failed run may leave a partial file behind. *)
Inductive FetchOutcome : Type :=
| Fetched
| FetchFailed (e : thrown) (leaves_partial_file : bool).

(** One run of the transcoding engine: its [end] or its [error] callback. *)
Inductive TranscodeOutcome : Type :=
| Transcoded
| TranscodeFailed (e : thrown).

Inductive Stream : Type := c_log | c_error | c_info.

(** What a job does to the outside, in the order it does it. *)
Inductive Event : Type :=
| Probe (online : bool)                    (* isOnline() resolved *)
| Console (s : Stream) (message : jsstring)
| Delay (ms : N)                           (* await delay(ms) *)
| Progress (p : DownloadProgress)          (* onProgress?.(p) *)
| ExecSync (command : jsstring)            (* execSync(command, ...) *)
| Ffmpeg (input output : jsstring)         (* ffmpeg(input)....save(output) *)
| Unlink (path : jsstring).                (* fs.unlinkSync(path) *)

(** The scripts [net], [ytdlp] and [ffmpeg] give the answers of the outside
    world to the job's successive calls; a call that finds its script
    exhausted never completes.  [files] is the staging directory, [trace]
    the events so far, oldest first. *)
Record World : Type := {
  net : list bool;
  ytdlp : list FetchOutcome;
  ffmpeg : list TranscodeOutcome;
  files : list jsstring;
  trace : list Event
}.

Definition emit_in (e : Event) (w : World) : World :=
  {| net := net w; ytdlp := ytdlp w; ffmpeg := ffmpeg w; files := files w;
     trace := trace w ++ [e] |}.

Definition with_files (fs : list jsstring) (w : World) : World :=
  {| net := net w; ytdlp := ytdlp w; ffmpeg := ffmpeg w; files := fs;
     trace := trace w |}.

(** An asynchronous computation ends by returning, by throwing, or not at
    all: [Waiting] is a promise that never settles. *)
Inductive Outcome (A : Type) : Type :=
| Ret (a : A) (w : World)
| Throw (e : thrown) (w : World)
| Waiting (w : World).
Arguments Ret {A} a w.
Arguments Throw {A} e w.
Arguments Waiting {A} w.

Definition M (A : Type) : Type := World -> Outcome A.

Definition ret {A} (a : A) : M A := fun w => Ret a w.

Definition bind {A B} (m : M A) (k : A -> M B) : M B :=
  fun w =>
    match m w with
    | Ret a w' => k a w'
    | Throw e w' => Throw e w'
    | Waiting w' => Waiting w'
    end.

Definition throw {A} (e : thrown) : M A := fun w => Throw e w.

(** [try { m } catch (error) { h error }] *)
Definition try_catch {A} (m : M A) (h : thrown -> M A) : M A :=
  fun w =>
    match m w with
    | Throw e w' => h e w'
    | other => other
    end.

Definition emit (e : Event) : M unit := fun w => Ret tt (emit_in e w).

Declare Scope js_scope.
Delimit Scope js_scope with js.
Notation "x <- m ;; k" := (bind m (fun x => k))
  (at level 61, m at next level, right associativity) : js_scope.
Notation "m ;; k" := (bind m (fun _ => k))
  (at level 61, right associativity) : js_scope.
Open Scope js_scope.

Definition world_of {A} (o : Outcome A) : World :=
  match o with
  | Ret _ w => w
  | Throw _ w => w
  | Waiting w => w
  end.

(* ================================================================= *)
(** ** utils/logger.ts (the methods that bypass the spinner) *)

Definition console_log (message : jsstring) : M unit := emit (Console c_log message).

(** [logger.error]: [console.error] of a cross mark and the message. *)
Definition logger_error (message : jsstring) : M unit :=
  emit (Console c_error ([10007%N] ++ lit " " ++ message)).

(** [logger.info]: [console.info] of an information sign and the message. *)
Definition logger_info (message : jsstring) : Event :=
  Console c_info ([8505%N] ++ lit " " ++ message).

(** [logger.success]: [console.log] of a check mark and the message. *)
Definition logger_success (message : jsstring) : Event :=
  Console c_log ([10003%N] ++ lit " " ++ message).

(* ================================================================= *)
(** ** services/downloader/downloader.ts: connectivity *)

Definition NETWORK_ERROR_PATTERNS : list regex :=
  [ Str (lit "ENOTFOUND");
    Str (lit "EAI_AGAIN");
    Str (lit "ECONNRESET");
    Str (lit "ETIMEDOUT");
    Str (lit "network is unreachable");
    Str (lit "getaddrinfo ENOTFOUND");
    Str (lit "Temporary failure in name resolution");
    Str (lit "Resolving timed out") ].

(** [NETWORK_ERROR_PATTERNS.some((pattern) => pattern.test(message))] *)
Definition isNetworkError (message : jsstring) : bool :=
  existsb (fun pattern => test true pattern message) NETWORK_ERROR_PATTERNS.

(** [await delay(ms)] *)
Definition delay (ms : N) : M unit := emit (Delay ms).

(** [await isOnline()]: the next answer of the network. *)
Definition isOnline : M bool :=
  fun w =>
    match net w with
    | [] => Waiting w
    | online :: rest =>
        Ret online
            {| net := rest; ytdlp := ytdlp w; ffmpeg := ffmpeg w;
               files := files w; trace := trace w ++ [Probe online] |}
    end.

(** The globe emoji of the messages, as its surrogate pair. *)
Definition globe : jsstring := [55356; 57104]%N.

Definition msg_reconnected (logPrefix : jsstring) : jsstring :=
  logPrefix ++ globe ++ lit " Internet reconnected. Resuming downloads...".
Definition msg_no_internet (logPrefix : jsstring) : jsstring :=
  logPrefix ++ globe ++ lit " No internet. Pausing downloads until connection is back...".
Definition msg_still_offline (logPrefix : jsstring) : jsstring :=
  logPrefix ++ globe ++ lit " Still offline. Retrying in 5s...".

(** The [while (true)] loop of [waitForReconnect], one unit of [fuel] per
    iteration. *)
Fixpoint waitLoop (fuel : nat) (logPrefix : jsstring) (announced : bool) : M unit :=
  match fuel with
  | O => fun w => Waiting w
  | S fuel' =>
      online <- isOnline ;;
      if (online : bool) then
        (if announced then console_log (msg_reconnected logPrefix) else ret tt)
      else
        (if negb announced
         then console_log (msg_no_internet logPrefix)
         else console_log (msg_still_offline logPrefix)) ;;
        delay 5000 ;;
        waitLoop fuel' logPrefix true
  end.

(** Every iteration consumes one answer of [net], so one more unit of fuel
    than there are answers is never used up. *)
Definition waitForReconnect (logPrefix : jsstring) : M unit :=
  fun w => waitLoop (S (length (net w))) logPrefix false w.

(* ================================================================= *)
(** ** The file system and the external tools *)

Definition existsSync (path : jsstring) : M bool :=
  fun w => Ret (existsb (jsstring_eqb path) (files w)) w.

Definition unlinkSync (path : jsstring) : M unit :=
  fun w =>
    Ret tt (emit_in (Unlink path)
              (with_files (filter (fun f => negb (jsstring_eqb path f)) (files w)) w)).

(** [if (fs.existsSync(p)) { fs.unlinkSync(p); }] *)
Definition unlink_if_exists (path : jsstring) : M unit :=
  present <- existsSync path ;;
  if (present : bool) then unlinkSync path else ret tt.

Definition write_file (path : jsstring) (w : World) : World :=
  with_files (path :: files w) w.

(** [execSync(command, ...)], the tool writing to [target]. *)
Definition execSync (command target : jsstring) : M unit :=
  fun w =>
    let w1 := emit_in (ExecSync command) w in
    match ytdlp w with
    | [] => Waiting w1
    | o :: rest =>
        let w2 := {| net := net w1; ytdlp := rest; ffmpeg := ffmpeg w1;
                     files := files w1; trace := trace w1 |} in
        match o with
        | Fetched => Ret tt (write_file target w2)
        | FetchFailed e partial =>
            Throw e (if partial then write_file target w2 else w2)
        end
    end.

(** [ffmpeg(input)....save(output)], awaited until [end] or [error]. *)
Definition ffmpeg_save (input output : jsstring) : M unit :=
  fun w =>
    let w1 := emit_in (Ffmpeg input output) w in
    match ffmpeg w with
    | [] => Waiting w1
    | o :: rest =>
        let w2 := {| net := net w1; ytdlp := ytdlp w1; ffmpeg := rest;
                     files := files w1; trace := trace w1 |} in
        match o with
        | Transcoded => Ret tt (write_file output w2)
        | TranscodeFailed e => Throw e w2
        end
    end.

(** The call [onProgress?.(p)], recorded in the trace. *)
Definition onProgress (p : DownloadProgress) : M unit := emit (Progress p).

(* ================================================================= *)
(** ** services/downloader/downloader.ts: downloadSong *)

Definition maxRetries : nat := 4.

Inductive LoopControl : Type := Break | Continue.

Section Downloader.

(** Node's [path.join], of two segments. *)
Variable path_join : jsstring -> jsstring -> jsstring.

Section Job.

Variable theSong : Song.
Variable outputDir : jsstring.
Variable cookiesFile : option jsstring.

Definition sanitizedTitle : jsstring :=
  sanitizeFilename (song_artist theSong ++ lit " - " ++ song_title theSong).
Definition outputPath : jsstring :=
  path_join outputDir (sanitizedTitle ++ lit ".mp3").
Definition tempAudioPath : jsstring :=
  path_join outputDir (sanitizedTitle ++ lit ".webm").

(** [cookiesFile ? `--cookies "${cookiesFile}"` : ''] *)
Definition cookiesArg : jsstring :=
  match cookiesFile with
  | None => []
  | Some [] => []
  | Some file => lit "--cookies " ++ dq ++ file ++ dq
  end.

Definition command : jsstring :=
  lit "py -m yt_dlp -f " ++ dq ++ lit "bestaudio[ext=webm]/bestaudio" ++ dq
  ++ lit " " ++ cookiesArg ++ lit " "
  ++ dq ++ lit "https://www.youtube.com/watch?v=" ++ song_id theSong ++ dq
  ++ lit " -o " ++ dq ++ tempAudioPath ++ dq ++ lit " --no-warnings".

Definition progress_event (st : Status) (n : Z) (err : option jsstring)
  : DownloadProgress :=
  {| songId := song_id theSong; title := song_title theSong;
     status := st; progress := n; p_error := err |}.

(** The [catch] clause of one fetch attempt. *)
Definition on_fetch_error (attempt : nat) (error : thrown) : M LoopControl :=
  let message := message_of error in
  unlink_if_exists tempAudioPath ;;
  if isNetworkError message && (attempt <? maxRetries) then
    let prefix := lit "(" ++ num_to_string attempt ++ lit "/"
                  ++ num_to_string maxRetries ++ lit ") " in
    console_log (prefix ++ lit "Network issue detected. Pausing until internet returns...") ;;
    waitForReconnect prefix ;;
    ret Continue
  else
    throw error.

(** [for (let attempt = 1; attempt <= maxRetries; attempt++) { ... }],
    entered at [attempt]; [fuel] bounds the iterations left. *)
Fixpoint fetch_attempts (fuel attempt : nat) : M unit :=
  if maxRetries <? attempt then ret tt else
  match fuel with
  | O => ret tt
  | S fuel' =>
      waitForReconnect [] ;;
      onProgress (progress_event downloading 0 None) ;;
      ctl <- try_catch (execSync command tempAudioPath ;; ret Break)
                       (on_fetch_error attempt) ;;
      match ctl with
      | Break => ret tt
      | Continue => fetch_attempts fuel' (S attempt)
      end
  end.

(** The awaited conversion promise. *)
Definition convert : M unit :=
  onProgress (progress_event converting 50 None) ;;
  ffmpeg_save tempAudioPath outputPath ;;
  unlink_if_exists tempAudioPath ;;
  onProgress (progress_event completed 100 None).

(** The outer [catch] clause. *)
Definition on_job_error (error : thrown) : M DownloadResult :=
  let errorMessage := message_of error in
  unlink_if_exists tempAudioPath ;;
  onProgress (progress_event failed 0 (Some errorMessage)) ;;
  logger_error (lit "Failed to download " ++ dq ++ song_title theSong ++ dq
                ++ lit ": " ++ errorMessage) ;;
  ret {| song := theSong; filePath := []; success := false;
         error := Some errorMessage |}.

Definition downloadSong : M DownloadResult :=
  try_catch
    (fetch_attempts maxRetries 1 ;;
     convert ;;
     ret {| song := theSong; filePath := outputPath; success := true;
            error := None |})
    on_job_error.

End Job.

End Downloader.

(** A [path.join] for concrete runs: the two segments around a separator. *)
Definition join_slash (dir file : jsstring) : jsstring := dir ++ lit "/" ++ file.

Definition demo_song : Song :=
  {| song_id := lit "dQw4w9WgXcQ"; song_title := lit "Title"; song_artist := lit "Artist";
     song_duration := 212; coverUrl := None; downloadUrl := None |}.

Definition world0 (n : list bool) (y : list FetchOutcome) (f : list TranscodeOutcome) : World :=
  {| net := n; ytdlp := y; ffmpeg := f; files := []; trace := [] |}.

Definition progress_values (t : list Event) : list Z :=
  flat_map (fun e => match e with Progress p => [progress p] | _ => [] end) t.

Definition result_of {A} (o : Outcome A) : option A :=
  match o with Ret a _ => Some a | _ => None end.

(* ================================================================= *)
(** ** services/downloader/downloader.ts: downloadSongs over p-queue *)

(** A number is NaN, an infinity or a finite value.  A finite double is a
    rational, and the queue only compares the number it is given, so a
    finite number stands here by its value. *)
Inductive jsnumber : Type :=
| NaN
| PosInfinity
| NegInfinity
| Num (q : Q).

Definition number_of_Z (z : Z) : jsnumber := Num (inject_Z z).
Definition number_of_nat (n : nat) : jsnumber := number_of_Z (Z.of_nat n).

(** [a < b] *)
Definition js_lt (a b : jsnumber) : bool :=
  match a, b with
  | NaN, _ | _, NaN => false
  | _, NegInfinity => false
  | NegInfinity, _ => true
  | PosInfinity, _ => false
  | _, PosInfinity => true
  | Num p, Num q => negb (Qle_bool q p)
  end.

(** [a >= b] *)
Definition js_ge (a b : jsnumber) : bool :=
  match a, b with
  | NaN, _ | _, NaN => false
  | _, _ => negb (js_lt a b)
  end.

Arguments js_lt : simpl never.
Arguments js_ge : simpl never.
Arguments number_of_nat : simpl never.

Record DownloadOptions : Type := {
  outputDir : jsstring;
  concurrency : option jsnumber;
  quality : option jsstring;
  cookiesFile : option jsstring
}.

(** What the batch meets outside: the staging directory, and for the item
    at each position of the batch the world its job runs in. *)
Record BatchEnv : Type := {
  staging_exists : bool;           (* fs.existsSync(outputDir) *)
  mkdir_error : option thrown;     (* what fs.mkdirSync throws, if it throws *)
  job_world : nat -> World
}.

Record Job : Type := { job_index : nat; job_song : Song }.

(** The queue object together with the closure state of [downloadSongs]:
    [pq_pending] and [pq_queue] are p-queue's own counters, [running] the
    jobs whose function has been called and has not returned, [results] the
    array the jobs push to, [rejected] the first rejection seen by
    [Promise.all]. *)
Record Sched : Type := {
  pq_concurrency : jsnumber;
  pq_pending : nat;
  pq_queue : list Job;
  running : list Job;
  results : list DownloadResult;
  rejected : option thrown
}.

(** [new PQueue({concurrency})]: the setter refuses anything but a number
    from 1 up, with a [TypeError] that quotes the value.  [number_text] is
    the text of a number in a template literal, a parameter. *)
Definition new_PQueue (number_text : jsnumber -> jsstring) (c : jsnumber)
  : thrown + Sched :=
  if js_ge c (number_of_Z 1) then
    inr {| pq_concurrency := c; pq_pending := 0; pq_queue := [];
           running := []; results := []; rejected := None |}
  else
    inl (ErrorObj (lit "Expected `concurrency` to be a number from 1 and up, got `"
                   ++ number_text c ++ lit "` (number)")).

(** p-queue's [tryToStartAnother]: start the head of the queue when the
    number of pending jobs is below the limit. *)
Definition tryToStartAnother (s : Sched) : Sched :=
  match pq_queue s with
  | [] => s
  | job :: rest =>
      if js_lt (number_of_nat (pq_pending s)) (pq_concurrency s) then
        {| pq_concurrency := pq_concurrency s;
           pq_pending := S (pq_pending s);
           pq_queue := rest;
           running := running s ++ [job];
           results := results s;
           rejected := rejected s |}
      else s
  end.

(** [queue.add(fn)]: enqueue, then try to start. *)
Definition add (job : Job) (s : Sched) : Sched :=
  tryToStartAnother
    {| pq_concurrency := pq_concurrency s; pq_pending := pq_pending s;
       pq_queue := pq_queue s ++ [job]; running := running s;
       results := results s; rejected := rejected s |}.

Fixpoint remove_nth {A} (i : nat) (l : list A) : list A :=
  match l, i with
  | [], _ => []
  | _ :: l', O => l'
  | x :: l', S i' => x :: remove_nth i' l'
  end.

Definition first_some {A} (a b : option A) : option A :=
  match a with Some _ => a | None => b end.

Section Scheduler.

(** The text of a number in a template literal. *)
Variable number_text : jsnumber -> jsstring.
Variable path_join : jsstring -> jsstring -> jsstring.
Variable env : BatchEnv.
Variable options : DownloadOptions.

(** [const { concurrency = 5 } = options] *)
Definition effective_concurrency : jsnumber :=
  match concurrency options with
  | Some c => c
  | None => number_of_Z 5
  end.

(** The job function given to [queue.add], run to its end. *)
Definition run_job (job : Job) : Outcome DownloadResult :=
  downloadSong path_join (job_song job) (outputDir options) (cookiesFile options)
               (job_world env (job_index job)).

(** The [i]-th running job settles: on return its result is pushed, on a
    throw the promise rejects; either way p-queue's [next] decrements the
    counter and tries to start another.  A job that never settles has no
    such step. *)
Definition finish (i : nat) (s : Sched) : option Sched :=
  match nth_error (running s) i with
  | None => None
  | Some job =>
      match run_job job with
      | Waiting _ => None
      | Ret result _ =>
          Some (tryToStartAnother
                  {| pq_concurrency := pq_concurrency s;
                     pq_pending := pred (pq_pending s);
                     pq_queue := pq_queue s;
                     running := remove_nth i (running s);
                     results := results s ++ [result];
                     rejected := rejected s |})
      | Throw e _ =>
          Some (tryToStartAnother
                  {| pq_concurrency := pq_concurrency s;
                     pq_pending := pred (pq_pending s);
                     pq_queue := pq_queue s;
                     running := remove_nth i (running s);
                     results := results s;
                     rejected := first_some (rejected s) (Some e) |})
      end
  end.

Inductive step : Sched -> Sched -> Prop :=
| step_finish i s s' : finish i s = Some s' -> step s s'.

Inductive steps : Sched -> Sched -> Prop :=
| steps_refl s : steps s s
| steps_more s s' s'' : steps s s' -> step s' s'' -> steps s s''.

Fixpoint index_from (k : nat) (songs : list Song) : list Job :=
  match songs with
  | [] => []
  | sg :: rest => {| job_index := k; job_song := sg |} :: index_from (S k) rest
  end.

(** [songs.map((song) => queue.add(...))]: every item is added in batch
    order before any job settles. *)
Definition add_all (jobs : list Job) (s : Sched) : Sched :=
  fold_left (fun acc job => add job acc) jobs s.

(** The synchronous part of [downloadSongs], up to [Promise.all]. *)
Definition start (songs : list Song) : thrown + Sched :=
  match (if staging_exists env then None else mkdir_error env) with
  | Some e => inl e
  | None =>
      match new_PQueue number_text effective_concurrency with
      | inl e => inl e
      | inr q => inr (add_all (index_from 0 songs) q)
      end
  end.

(** [await Promise.all(downloadPromises)]: rejected as soon as one promise
    is, fulfilled once every job has settled. *)
Definition settled (s : Sched) : option (thrown + list DownloadResult) :=
  match rejected s with
  | Some e => Some (inl e)
  | None =>
      match pq_queue s, running s with
      | [], [] => Some (inr (results s))
      | _, _ => None
      end
  end.

(** The jobs settle in the order [schedule] gives: each entry picks one of
    the running jobs (counted round the running list); an entry that picks
    a job which never settles changes nothing. *)
Fixpoint drain (schedule : list nat) (s : Sched) : Sched :=
  match schedule with
  | [] => s
  | i :: rest =>
      match settled s with
      | Some _ => s
      | None =>
          match finish (i mod List.length (running s)) s with
          | Some s' => drain rest s'
          | None => drain rest s
          end
      end
  end.

Inductive BatchOutcome : Type :=
| Returned (rs : list DownloadResult) (log : list Event)
| Rejected (e : thrown)
| Unsettled.

Definition downloadSongs (songs : list Song) (schedule : list nat) : BatchOutcome :=
  match start songs with
  | inl e => Rejected e
  | inr s0 =>
      let info :=
        logger_info (lit "Starting download of " ++ num_to_string (List.length songs)
                     ++ lit " songs with concurrency: "
                     ++ number_text effective_concurrency) in
      match settled (drain schedule s0) with
      | None => Unsettled
      | Some (inl e) => Rejected e
      | Some (inr rs) =>
          let successCount := List.length (filter (fun r => success r) rs) in
          let failedCount := List.length (filter (fun r => negb (success r)) rs) in
          Returned rs
            [info;
             logger_success (lit "Downloads complete: " ++ num_to_string successCount
                             ++ lit " successful, " ++ num_to_string failedCount
                             ++ lit " failed")]
      end
  end.

End Scheduler.


(* ================================================================= *)
(** ** Vocabulary of the properties *)

(** No two adjacent white-space characters. *)
Fixpoint no_space_run (s : jsstring) : bool :=
  match s with
  | c1 :: (c2 :: _) as t => negb (is_space c1 && is_space c2) && no_space_run t
  | _ => true
  end.

Definition head_not_space (s : jsstring) : bool :=
  match s with
  | [] => true
  | c :: _ => negb (is_space c)
  end.

(** Two links that name a video and no playlist. *)
Definition url_watch : jsstring := lit "https://www.youtube.com/watch?v=dQw4w9WgXcQ".

Definition url_short : jsstring := lit "https://youtu.be/dQw4w9WgXcQ".

Definition no_playlist_id_error (url : jsstring) : thrown :=
  ErrorObj (lit "Could not extract playlist ID from URL: " ++ url).

(** The events of one call, read off the answers of the network. *)
Fixpoint wait_trace (logPrefix : jsstring) (announced : bool) (ps : list bool)
  : list Event :=
  match ps with
  | [] => []
  | true :: _ =>
      Probe true
        :: (if announced then [Console c_log (msg_reconnected logPrefix)] else [])
  | false :: ps' =>
      Probe false
        :: Console c_log (if announced then msg_still_offline logPrefix
                          else msg_no_internet logPrefix)
        :: Delay 5000
        :: wait_trace logPrefix true ps'
  end.

(** The answers left after the first positive one, if there is one. *)
Fixpoint after_online (ps : list bool) : option (list bool) :=
  match ps with
  | [] => None
  | true :: rest => Some rest
  | false :: ps' => after_online ps'
  end.

(** The world after some probes were answered and some events emitted. *)
Definition moved (ps : list bool) (t : list Event) (w : World) : World :=
  {| net := ps; ytdlp := ytdlp w; ffmpeg := ffmpeg w; files := files w;
     trace := trace w ++ t |}.

Definition console_messages (t : list Event) : list jsstring :=
  flat_map (fun e => match e with Console _ m => [m] | _ => [] end) t.

Definition failed_probes (t : list Event) : nat :=
  List.length (filter (fun e => match e with Probe false => true | _ => false end) t).

(** The events added to the trace between two worlds of one run. *)
Definition emitted (w w' : World) : list Event :=
  skipn (List.length (trace w)) (trace w').

Definition jsstring_eq_dec : forall a b : jsstring, {a = b} + {a <> b} :=
  list_eq_dec N.eq_dec.

Definition count_msg (m : jsstring) (msgs : list jsstring) : nat :=
  count_occ jsstring_eq_dec msgs m.

(** The events of one call of [waitForReconnect] started in [w]. *)
Definition wait_events (logPrefix : jsstring) (w : World) : list Event :=
  emitted w (world_of (waitForReconnect logPrefix w)).

(** The reading of the spec's sentence: over one call, at most one notice
    for going offline and one for coming back, whatever the number of
    polls. *)
Definition one_notice_per_transition (logPrefix : jsstring) (w : World) : Prop :=
  List.length (console_messages (wait_events logPrefix w)) <= 2.

Fixpoint leading_offline (ps : list bool) : nat :=
  match ps with
  | false :: ps' => S (leading_offline ps')
  | _ => 0
  end.

Definition reconnect_count (ps : list bool) : nat :=
  match after_online ps with Some _ => 1 | None => 0 end.

Definition is_waiting {A} (o : Outcome A) : bool :=
  match o with Waiting _ => true | _ => false end.

Definition is_throw {A} (o : Outcome A) : bool :=
  match o with Throw _ _ => true | _ => false end.

(** [unlink_if_exists] touches the staging directory and the trace only. *)
Definition cleanup_events (path : jsstring) (w : World) : list Event :=
  if existsb (jsstring_eqb path) (files w) then [Unlink path] else [].

Definition is_fetch (e : Event) : bool :=
  match e with ExecSync _ => true | _ => false end.

(** The number of times the retrieval tool was started. *)
Definition fetch_count (t : list Event) : nat := List.length (filter is_fetch t).

(** The progress events of a trace: status and indicator. *)
Definition progress_list (t : list Event) : list (Status * Z) :=
  flat_map (fun e => match e with Progress p => [(status p, progress p)] | _ => [] end) t.

(** Whether the latest connectivity answer is positive and no fetch was
    started since: [ok] before the trace, [guard_end ok t] after it. *)
Fixpoint guard_end (ok : bool) (t : list Event) : bool :=
  match t with
  | [] => ok
  | Probe b :: t' => guard_end b t'
  | ExecSync _ :: t' => guard_end false t'
  | _ :: t' => guard_end ok t'
  end.

(** Every fetch of the trace starts in a state where that holds. *)
Fixpoint guard_ok (ok : bool) (t : list Event) : bool :=
  match t with
  | [] => true
  | Probe b :: t' => guard_ok b t'
  | ExecSync _ :: t' => ok && guard_ok false t'
  | _ :: t' => guard_ok ok t'
  end.

(** Events that are neither a connectivity answer nor a fetch. *)
Definition quiet (e : Event) : Prop :=
  match e with Probe _ => False | ExecSync _ => False | _ => True end.

(** A sequence of indicators that never goes down. *)
Fixpoint nondecreasing (l : list Z) : bool :=
  match l with
  | x :: (y :: _) as rest => (x <=? y)%Z && nondecreasing rest
  | _ => true
  end.

Definition status_eqb (a b : Status) : bool :=
  match a, b with
  | pending, pending | downloading, downloading | converting, converting
  | completed, completed | failed, failed => true
  | _, _ => false
  end.

Definition has_status (st : Status) (t : list Event) : bool :=
  existsb (fun sp => status_eqb (fst sp) st) (progress_list t).

(** The indicator the source gives with each status. *)
Definition indicator (st : Status) : Z :=
  match st with
  | converting => 50
  | completed => 100
  | _ => 0
  end.

(** The indicators of the events other than the [failed] one. *)
Definition progress_before_failure (t : list Event) : list Z :=
  map snd (filter (fun sp => negb (status_eqb (fst sp) failed)) (progress_list t)).

(** The indicators a job emits, in order. *)
Definition job_progress (path_join : jsstring -> jsstring -> jsstring)
           (theSong : Song) (dir : jsstring) (cookies : option jsstring)
           (w : World) : list Z :=
  progress_values (emitted w (world_of (downloadSong path_join theSong dir cookies w))).

(** The number of positive answers the network still has to give. *)
Definition online_count (ps : list bool) : nat := count_occ bool_dec ps true.

(** The state of the queue between two events: the counter tells the number
    of running jobs, each of them was started while the number of the jobs
    before it was below [c], and an item waits in the queue only while the
    number of running jobs is not below [c]. *)
Definition slots_ok (c : jsnumber) (s : Sched) : Prop :=
  pq_concurrency s = c
  /\ pq_pending s = List.length (running s)
  /\ (forall k, k < List.length (running s) -> js_lt (number_of_nat k) c = true)
  /\ (pq_queue s <> [] -> js_lt (number_of_nat (List.length (running s))) c = false).

(** The state in which p-queue calls [tryToStartAnother]: an item was just
    queued, or a slot was just freed. *)
Definition startable (c : jsnumber) (s : Sched) : Prop :=
  pq_concurrency s = c
  /\ pq_pending s = List.length (running s)
  /\ (forall k, k < List.length (running s) -> js_lt (number_of_nat k) c = true)
  /\ (2 <= List.length (pq_queue s) ->
      js_lt (number_of_nat (S (List.length (running s)))) c = false).

(** The reading of the spec's sentence: the number of running jobs does not
    exceed [c]. *)
Definition within_concurrency (c : jsnumber) (s : Sched) : Prop :=
  js_lt c (number_of_nat (List.length (running s))) = false.

(** The decimal digits of the fraction [r / d], for [0 <= r < d]. *)
Fixpoint fraction_digits (fuel : nat) (r d : Z) : jsstring :=
  match fuel with
  | O => []
  | S fuel' =>
      if (r =? 0)%Z then []
      else Z.to_N (48 + (10 * r) / d) :: fraction_digits fuel' ((10 * r) mod d) d
  end.

(** A text of numbers for concrete runs: the value in decimal, the fraction
    cut after seventeen digits.  It is the text of a template literal for
    the whole numbers below 10^21 and for the fractions that end within
    these digits. *)
Definition decimal_text (c : jsnumber) : jsstring :=
  match c with
  | NaN => lit "NaN"
  | PosInfinity => lit "Infinity"
  | NegInfinity => lit "-Infinity"
  | Num q =>
      let n := Z.abs (Qnum q) in
      let d := Zpos (Qden q) in
      (if (Qnum q <? 0)%Z then lit "-" else [])
      ++ num_to_string (Z.to_nat (n / d))
      ++ (if (n mod d =? 0)%Z then []
          else lit "." ++ fraction_digits 17 (n mod d) d)
  end.

(** Worlds for concrete batches: every job succeeds at once. *)
Definition demo_env : BatchEnv :=
  {| staging_exists := true; mkdir_error := None;
     job_world := fun _ => world0 [true] [Fetched] [Transcoded] |}.

Definition demo_options (c : option jsnumber) : DownloadOptions :=
  {| outputDir := lit "out"; concurrency := c; quality := None; cookiesFile := None |}.

(** The items a state accounts for: those with a result, those running,
    those queued. *)
Definition accounted (s : Sched) : list Song :=
  map song (results s) ++ map job_song (running s) ++ map job_song (pq_queue s).

(** No promise was rejected, and every item of the batch is accounted for
    once. *)
Definition batch_inv (jobs : list Job) (s : Sched) : Prop :=
  rejected s = None
  /\ Permutation (accounted s) (map job_song jobs)
  /\ (forall job, In job (running s ++ pq_queue s) -> In job jobs).

(** The staging directory exists or can be made. *)
Definition staging_ready (env : BatchEnv) : Prop :=
  staging_exists env = true \/ mkdir_error env = None.

(** Every job of the batch settles: none waits for ever on the network or
    on a tool. *)
Definition jobs_settle (path_join : jsstring -> jsstring -> jsstring)
           (env : BatchEnv) (options : DownloadOptions) (songs : list Song) : Prop :=
  forall i sg,
    nth_error songs i = Some sg ->
    is_waiting (run_job path_join env options {| job_index := i; job_song := sg |})
    = false.

(** The staging directory is still to be made, and the conversion of the
    item at position 1 fails. *)
Definition failing_env : BatchEnv :=
  {| staging_exists := false; mkdir_error := None;
     job_world := fun i =>
       match i with
       | 1 => world0 [true] [Fetched] [TranscodeFailed (ErrorObj (lit "Invalid data"))]
       | _ => world0 [true] [Fetched] [Transcoded]
       end |}.

(** The item at position 1 meets two time-outs before its fetch succeeds;
    the network answers at once. *)
Definition retry_env : BatchEnv :=
  {| staging_exists := true; mkdir_error := None;
     job_world := fun i =>
       match i with
       | 1 => world0 (repeat true 5)
                     [FetchFailed (ErrorObj (lit "connect ETIMEDOUT")) true;
                      FetchFailed (ErrorObj (lit "connect ETIMEDOUT")) false;
                      Fetched]
                     [Transcoded]
       | _ => world0 [true] [Fetched] [Transcoded]
       end |}.

(** The reading of the spec's sentence: an empty batch is rejected. *)
Definition empty_batch_rejected (number_text : jsnumber -> jsstring)
           (path_join : jsstring -> jsstring -> jsstring)
           (env : BatchEnv) (options : DownloadOptions) (schedule : list nat) : Prop :=
  exists e, downloadSongs number_text path_join env options [] schedule = Rejected e.

Section RetryLoopRuns.

Variable path_join : jsstring -> jsstring -> jsstring.
Variable theSong : Song.
Variable dir : jsstring.
Variable cookies : option jsstring.

Let tmp := tempAudioPath path_join theSong dir.
Let cmd := command path_join theSong dir cookies.
Let downloading_event := Progress (progress_event theSong downloading 0 None).

Definition retry_prefix (attempt : nat) : jsstring :=
  lit "(" ++ num_to_string attempt ++ lit "/" ++ num_to_string maxRetries ++ lit ") ".

Definition network_issue (attempt : nat) : Event :=
  Console c_log (retry_prefix attempt
                 ++ lit "Network issue detected. Pausing until internet returns...").

Definition retryable (attempt : nat) (e : thrown) : bool :=
  isNetworkError (message_of e) && (attempt <? maxRetries).

(** The runs of the [for] loop entered at [attempt], by what the outside
    world answers. *)
Inductive attempt_run (attempt : nat) (w : World) : Outcome unit -> Prop :=
| run_offline w1 :
    waitForReconnect [] w = Waiting w1 ->
    attempt_run attempt w (Waiting w1)
| run_stalled w1 w2 :
    waitForReconnect [] w = Ret tt w1 ->
    execSync cmd tmp (emit_in downloading_event w1) = Waiting w2 ->
    attempt_run attempt w (Waiting w2)
| run_fetched w1 w2 :
    waitForReconnect [] w = Ret tt w1 ->
    execSync cmd tmp (emit_in downloading_event w1) = Ret tt w2 ->
    attempt_run attempt w (Ret tt w2)
| run_fatal w1 e w2 w3 :
    waitForReconnect [] w = Ret tt w1 ->
    execSync cmd tmp (emit_in downloading_event w1) = Throw e w2 ->
    unlink_if_exists tmp w2 = Ret tt w3 ->
    retryable attempt e = false ->
    attempt_run attempt w (Throw e w3)
| run_retry_offline w1 e w2 w3 w4 :
    waitForReconnect [] w = Ret tt w1 ->
    execSync cmd tmp (emit_in downloading_event w1) = Throw e w2 ->
    unlink_if_exists tmp w2 = Ret tt w3 ->
    retryable attempt e = true ->
    waitForReconnect (retry_prefix attempt) (emit_in (network_issue attempt) w3)
      = Waiting w4 ->
    attempt_run attempt w (Waiting w4)
| run_retry w1 e w2 w3 w4 o :
    waitForReconnect [] w = Ret tt w1 ->
    execSync cmd tmp (emit_in downloading_event w1) = Throw e w2 ->
    unlink_if_exists tmp w2 = Ret tt w3 ->
    retryable attempt e = true ->
    waitForReconnect (retry_prefix attempt) (emit_in (network_issue attempt) w3)
      = Ret tt w4 ->
    attempt_run (S attempt) w4 o ->
    attempt_run attempt w o.

End RetryLoopRuns.

Section JobOutcomeRuns.

Variable path_join : jsstring -> jsstring -> jsstring.
Variable theSong : Song.
Variable dir : jsstring.
Variable cookies : option jsstring.

Let tmp := tempAudioPath path_join theSong dir.
Let out := outputPath path_join theSong dir.

Definition completed_result : DownloadResult :=
  {| song := theSong; filePath := out; success := true; error := None |}.

Definition failed_result (e : thrown) : DownloadResult :=
  {| song := theSong; filePath := []; success := false;
     error := Some (message_of e) |}.

Definition converting_event : Event :=
  Progress (progress_event theSong converting 50 None).

Definition completed_event : Event :=
  Progress (progress_event theSong completed 100 None).

Definition failed_event (e : thrown) : Event :=
  Progress (progress_event theSong failed 0 (Some (message_of e))).

Definition failure_log (e : thrown) : Event :=
  Console c_error
    ([10007%N] ++ lit " "
     ++ (lit "Failed to download " ++ dq ++ song_title theSong ++ dq
         ++ lit ": " ++ message_of e)).

(** The events of the outer [catch] clause entered in [w]. *)
Definition failure_events (e : thrown) (w : World) : list Event :=
  cleanup_events tmp w ++ [failed_event e; failure_log e].

(** The runs of [downloadSong]. *)
Inductive job_run (w : World) : Outcome DownloadResult -> Prop :=
| job_waits_in_fetch w1 :
    attempt_run path_join theSong dir cookies 1 w (Waiting w1) ->
    job_run w (Waiting w1)
| job_fails_in_fetch e w1 w2 :
    attempt_run path_join theSong dir cookies 1 w (Throw e w1) ->
    trace w2 = trace w1 ++ failure_events e w1 ->
    job_run w (Ret (failed_result e) w2)
| job_waits_in_convert w1 w2 :
    attempt_run path_join theSong dir cookies 1 w (Ret tt w1) ->
    ffmpeg w1 = [] ->
    trace w2 = trace w1 ++ [converting_event; Ffmpeg tmp out] ->
    job_run w (Waiting w2)
| job_fails_in_convert w1 e w2 w3 :
    attempt_run path_join theSong dir cookies 1 w (Ret tt w1) ->
    ffmpeg w1 = TranscodeFailed e :: ffmpeg w2 ->
    trace w2 = trace w1 ++ [converting_event; Ffmpeg tmp out] ->
    trace w3 = trace w2 ++ failure_events e w2 ->
    job_run w (Ret (failed_result e) w3)
| job_completes w1 w2 w3 :
    attempt_run path_join theSong dir cookies 1 w (Ret tt w1) ->
    ffmpeg w1 = Transcoded :: ffmpeg w2 ->
    trace w2 = trace w1 ++ [converting_event; Ffmpeg tmp out] ->
    trace w3 = trace w2 ++ cleanup_events tmp w2 ++ [completed_event] ->
    job_run w (Ret completed_result w3).

End JobOutcomeRuns.

Section RetryLoopEvents.

Variable path_join : jsstring -> jsstring -> jsstring.
Variable theSong : Song.
Variable dir : jsstring.
Variable cookies : option jsstring.

Let tmp := tempAudioPath path_join theSong dir.
Let cmd := command path_join theSong dir cookies.
Let downloading_event := Progress (progress_event theSong downloading 0 None).

(** One attempt up to the start of the tool. *)
Definition attempt_head (ps : list bool) : list Event :=
  wait_trace [] false ps ++ [downloading_event; ExecSync cmd].

(** One failed attempt that is retried, up to the next entry of the loop. *)
Definition retry_events (attempt : nat) (ps : list bool) (w2 w3 : World)
  : list Event :=
  attempt_head ps ++ cleanup_events tmp w2
  ++ network_issue attempt :: wait_trace (retry_prefix attempt) false (net w3).

End RetryLoopEvents.

Section JobEnds.

Variable path_join : jsstring -> jsstring -> jsstring.
Variable theSong : Song.
Variable dir : jsstring.

(** How a job ends, given how its retry loop ended, with the progress
    events that follow the loop. *)
Inductive job_end : Outcome unit -> Outcome DownloadResult -> list (Status * Z) -> Prop :=
| end_waits_in_fetch w1 :
    job_end (Waiting w1) (Waiting w1) []
| end_fails_in_fetch e w1 w2 :
    job_end (Throw e w1) (Ret (failed_result theSong e) w2) [(failed, 0%Z)]
| end_waits_in_convert w1 w2 :
    ffmpeg w1 = [] ->
    job_end (Ret tt w1) (Waiting w2) [(converting, 50%Z)]
| end_fails_in_convert w1 e rest w3 :
    ffmpeg w1 = TranscodeFailed e :: rest ->
    job_end (Ret tt w1) (Ret (failed_result theSong e) w3)
            [(converting, 50%Z); (failed, 0%Z)]
| end_completes w1 rest w3 :
    ffmpeg w1 = Transcoded :: rest ->
    job_end (Ret tt w1) (Ret (completed_result path_join theSong dir) w3)
            [(converting, 50%Z); (completed, 100%Z)].

End JobEnds.

(* ================================================================= *)
(** ** Vocabulary of the further properties *)

(** [needle] occurs in [text], the case of ASCII letters apart. *)
Definition contains_ci (needle text : jsstring) : Prop :=
  exists a p b, text = a ++ p ++ b /\ map canon p = map canon needle.

(** The texts [isValidYouTubeUrl] looks for. *)
Definition url_markers : list jsstring :=
  [ lit "//youtube.com/playlist?list=";
    lit "//www.youtube.com/playlist?list=";
    lit "//youtube.com/watch?v=";
    lit "//www.youtube.com/watch?v=";
    lit "//music.youtube.com/playlist?list=";
    lit "//music.youtube.com/browse/";
    lit "//youtu.be/" ].

(** The texts [isNetworkError] looks for, the one that another includes
    left out. *)
Definition network_markers : list jsstring :=
  [ lit "ENOTFOUND";
    lit "EAI_AGAIN";
    lit "ECONNRESET";
    lit "ETIMEDOUT";
    lit "network is unreachable";
    lit "Temporary failure in name resolution";
    lit "Resolving timed out" ].

(** The link [fetchPlaylistMetadata] makes of a playlist identifier. *)
Definition playlistUrl (playlistId : jsstring) : jsstring :=
  lit "https://www.youtube.com/playlist?list=" ++ playlistId.

(** Started in a world of [P], the computation returns in a world of [Q],
    throws in a world of [E], or stays unsettled in a world of [W]. *)
Definition triple {A} (P : World -> Prop) (m : M A)
           (Q : A -> World -> Prop) (E : thrown -> World -> Prop)
           (W : World -> Prop) : Prop :=
  forall w, P w ->
    match m w with
    | Ret a w' => Q a w'
    | Throw e w' => E e w'
    | Waiting w' => W w'
    end.

(** An assertion on the staging directory alone. *)
Definition on_files (P : list jsstring -> Prop) : World -> Prop :=
  fun w => P (files w).

(** Two states of the staging directory hold the same files, those of
    [paths] apart. *)
Definition unchanged_but (paths before after : list jsstring) : Prop :=
  forall f, ~ In f paths -> (In f after <-> In f before).

Definition nowhere : World -> Prop := fun _ => False.

(** A run of the retrieval tool that fails with a network error. *)
Definition network_failure (o : FetchOutcome) : bool :=
  match o with
  | Fetched => false
  | FetchFailed e _ => isNetworkError (message_of e)
  end.

(** What lets a job succeed: the retrieval tool fails on the network fewer
    than [maxRetries] times and then returns, the network answers positively
    often enough for the waits before and after each failure, and the
    conversion ends. *)
Definition recoverable (fails : list FetchOutcome) (w : World) : Prop :=
  (exists rest, ytdlp w = fails ++ Fetched :: rest)
  /\ List.length fails < maxRetries
  /\ forallb network_failure fails = true
  /\ 2 * List.length fails + 1 <= online_count (net w)
  /\ hd_error (ffmpeg w) = Some Transcoded.

(** What ends a job in failure with the error [e]: after network failures
    only, fewer than [maxRetries], with the network answering positively
    often enough for the waits, either the retrieval tool fails with [e],
    which is no network error or comes at the last attempt, or it returns
    and the conversion fails with [e]. *)
Definition fails_with (fails : list FetchOutcome) (e : thrown) (w : World) : Prop :=
  List.length fails < maxRetries
  /\ forallb network_failure fails = true
  /\ 2 * List.length fails + 1 <= online_count (net w)
  /\ (((exists partial rest, ytdlp w = fails ++ FetchFailed e partial :: rest)
       /\ (isNetworkError (message_of e) = false
           \/ S (List.length fails) = maxRetries))
      \/ ((exists rest, ytdlp w = fails ++ Fetched :: rest)
          /\ hd_error (ffmpeg w) = Some (TranscodeFailed e))).

Definition is_ffmpeg (e : Event) : bool :=
  match e with Ffmpeg _ _ => true | _ => false end.

(** The number of times the conversion was started. *)
Definition conversions (t : list Event) : nat := List.length (filter is_ffmpeg t).

(* ================================================================= *)
(** ** src/services/downloader/downloader.ts: the downloader without retry *)

Module Plain.

Section Job.

Variable path_join : jsstring -> jsstring -> jsstring.
Variable theSong : Song.
Variable outputDir : jsstring.
Variable cookiesFile : option jsstring.

Definition downloadCommand : jsstring :=
  lit "py -m yt_dlp -f " ++ dq ++ lit "bestaudio[ext=webm]/bestaudio" ++ dq
  ++ lit " " ++ cookiesArg cookiesFile ++ lit " "
  ++ dq ++ (lit "https://www.youtube.com/watch?v=" ++ song_id theSong) ++ dq
  ++ lit " -o " ++ dq ++ tempAudioPath path_join theSong outputDir ++ dq
  ++ lit " --no-warnings".

(** The inner [try] around [execSync]: what it catches is thrown again
    under a new message. *)
Definition fetch : M unit :=
  try_catch
    (execSync downloadCommand (tempAudioPath path_join theSong outputDir))
    (fun err =>
       throw (ErrorObj (lit "yt-dlp download failed: " ++ message_of err))).

Definition downloadSong : M DownloadResult :=
  try_catch
    (onProgress (progress_event theSong downloading 0 None) ;;
     fetch ;;
     convert path_join theSong outputDir ;;
     ret {| song := theSong;
            filePath := outputPath path_join theSong outputDir;
            success := true; error := None |})
    (on_job_error path_join theSong outputDir).

End Job.

End Plain.

(** The error the downloader without retry makes of a failure of the
    retrieval tool. *)
Definition fetch_failure (e : thrown) : thrown :=
  ErrorObj (lit "yt-dlp download failed: " ++ message_of e).

Definition is_probe (e : Event) : bool :=
  match e with Probe _ => true | _ => false end.

(** Two outcomes of the same kind, with the same value, in worlds that [R]
    relates. *)
Definition alike (R : World -> World -> Prop) {A} (o o' : Outcome A) : Prop :=
  match o, o' with
  | Ret a w, Ret a' w' => a = a' /\ R w w'
  | Throw e w, Throw e' w' => e = e' /\ R w w'
  | Waiting w, Waiting w' => R w w'
  | _, _ => False
  end.

(** Run in worlds that [R] relates, the two computations end alike. *)
Definition simulates (R : World -> World -> Prop) {A} (m m' : M A) : Prop :=
  forall w w', R w w' -> alike R (m w) (m' w').

(** The first world is the second after a wait: the network has moved on
    to [ps], and the events [wt] of the wait stand in the trace after the
    events [t0] that came before. *)
Definition ahead (ps : list bool) (t0 wt : list Event) (w w' : World) : Prop :=
  net w = ps /\ ytdlp w = ytdlp w' /\ ffmpeg w = ffmpeg w' /\ files w = files w'
  /\ exists evs, trace w = t0 ++ wt ++ evs /\ trace w' = t0 ++ evs.

(** Since the world of network answers [n0] and trace [t0], the retrieval
    tool was started [k] times and the network was neither asked nor
    awaited. *)
Definition fetched_times (n0 : list bool) (t0 : list Event) (k : nat) (w : World)
  : Prop :=
  net w = n0
  /\ exists t, trace w = t0 ++ t /\ fetch_count t = k /\ filter is_probe t = [].

(** What the job of an item returns, if it returns. *)
Definition job_result (path_join : jsstring -> jsstring -> jsstring)
           (env : BatchEnv) (options : DownloadOptions) (job : Job)
  : option DownloadResult :=
  result_of (run_job path_join env options job).

(** The jobs that are running or queued, the oldest first. *)
Definition line (s : Sched) : list Job := running s ++ pq_queue s.

(** The jobs that settle while the queue is drained, in the order in which
    they settle: each entry of the schedule that picks a running job whose
    function settles contributes that job. *)
Fixpoint settle_order (path_join : jsstring -> jsstring -> jsstring)
         (env : BatchEnv) (options : DownloadOptions)
         (schedule : list nat) (s : Sched) : list Job :=
  match schedule with
  | [] => []
  | i :: rest =>
      match settled s with
      | Some _ => []
      | None =>
          let pick := i mod List.length (running s) in
          match nth_error (running s) pick, finish path_join env options pick s with
          | Some job, Some s' => job :: settle_order path_join env options rest s'
          | _, _ => settle_order path_join env options rest s
          end
      end
  end.

(** Every job of the list carries its position. *)
Definition indexed (batch : list Job) : Prop :=
  forall i job, nth_error batch i = Some job -> job_index job = i.

(** The jobs that were started are the first of the batch: a running job
    stands in the batch before the number of the jobs started so far, and
    the queue holds the rest of the batch. *)
Definition started_first (batch : list Job) (s : Sched) : Prop :=
  let m := List.length (results s) + List.length (running s) in
  m <= List.length batch
  /\ (forall job, In job (running s) -> job_index job < m)
  /\ pq_queue s = skipn m batch.

(** The second job of the batch settles before the first. *)
Definition second_first : list nat := [1; 0].

Definition other_song : Song :=
  {| song_id := lit "9bZkp7q19f0"; song_title := lit "Other"; song_artist := lit "Artist";
     song_duration := 252; coverUrl := None; downloadUrl := None |}.

(** The staging directory is missing and cannot be made. *)
Definition locked_env : BatchEnv :=
  {| staging_exists := false;
     mkdir_error := Some (ErrorObj (lit "EACCES: permission denied, mkdir"));
     job_world := fun _ => world0 [true] [FetchFailed NonError false] [] |}.

(* ================================================================= *)
(** ** services/youtube/fetcher.ts: fetchPlaylistMetadata, fetchSongDetails *)

Module Fetcher.

(** What an [execSync] of the fetcher gives: the standard output of the
    tool, or an error with its [stderr], when it has one, and its message. *)
Inductive ExecOutcome : Type :=
| Output (stdout : jsstring)
| ExecError (stderr : option jsstring) (message : jsstring).

(** [text.includes(needle)] *)
Fixpoint includes (needle text : jsstring) : bool :=
  match starts_with needle text with
  | Some _ => true
  | None =>
      match text with
      | [] => false
      | _ :: rest => includes needle rest
      end
  end.

(** [text.split(sep)] for a separator of one code unit. *)
Fixpoint split (sep : char16) (text : jsstring) : list jsstring :=
  match text with
  | [] => [[]]
  | c :: rest =>
      if (c =? sep)%N then [] :: split sep rest
      else
        match split sep rest with
        | line :: lines => (c :: line) :: lines
        | [] => [[c]]
        end
  end.

(** [line.startsWith('{')] *)
Definition starts_with_brace (line : jsstring) : bool :=
  match line with
  | c :: _ => (c =? 123)%N
  | [] => false
  end.

(** [output.trim().split('\n').filter(line => line.length > 0 &&
    line.startsWith('{'))] *)
Definition json_lines (output : jsstring) : list jsstring :=
  filter (fun line => (0 <? List.length line) && starts_with_brace line)
         (split 10%N (trim output)).

Section Model.

(** The numbers of JavaScript, with their test in a condition (false of
    [0], [-0] and [NaN]) and the literal [0]. *)
Variable jsnum : Type.
Variable num_truthy : jsnum -> bool.
Variable num_zero : jsnum.

(** The values [JSON.parse] makes, and [undefined]. *)
#[warnings="-register-all"] Inductive jsval : Type :=
| VUndefined
| VNull
| VBool (b : bool)
| VNum (n : jsnum)
| VStr (s : jsstring)
| VArr (items : list jsval)
| VObj (fields : list (jsstring * jsval)).

(** [JSON.parse]: the value, or the message of the [SyntaxError]. *)
Variable JSON_parse : jsstring -> jsstring + jsval.

(** [execSync(command, ...)], by the command. *)
Variable run : jsstring -> ExecOutcome.

(** The message of the [TypeError] that reading a property of [null]
    throws. *)
Variable null_property_message : jsstring.

(** [!!v] *)
Definition truthy (v : jsval) : bool :=
  match v with
  | VUndefined | VNull => false
  | VBool b => b
  | VNum n => num_truthy n
  | VStr s => match s with [] => false | _ => true end
  | VArr _ | VObj _ => true
  end.

(** [a || b] *)
Definition or_else (a b : jsval) : jsval := if truthy a then a else b.

Fixpoint lookup (key : jsstring) (fields : list (jsstring * jsval)) : jsval :=
  match fields with
  | [] => VUndefined
  | (k, v) :: rest => if jsstring_eqb k key then v else lookup key rest
  end.

(** [v.key], for a [v] that is neither [null] nor [undefined] and a key of
    the fetcher: none of them is a property of a primitive or of an array,
    except [entries] of an array, a function, which [Array.isArray]
    refuses like [undefined]. *)
Definition get (v : jsval) (key : string) : jsval :=
  match v with
  | VObj fields => lookup (lit key) fields
  | _ => VUndefined
  end.

(** [Array.isArray(v) ? v : []] *)
Definition array_or_empty (v : jsval) : list jsval :=
  match v with
  | VArr items => items
  | _ => []
  end.

(** An item as the fetcher builds it, its fields being whatever the tool
    reported. *)
Record Song : Type := {
  id : jsval;
  title : jsval;
  artist : jsval;
  duration : jsval;
  coverUrl : jsval;
  downloadUrl : jsval
}.

Record Playlist : Type := {
  name : jsval;
  songs : list Song;
  totalCount : nat;
  uploader : option jsval
}.

(** What a call prints with [console.log], and how it ends. *)
Record Fetched (A : Type) : Type := {
  logged : list jsstring;
  outcome : thrown + A
}.

(** [Array.isArray(e.thumbnails) && e.thumbnails.length
      ? e.thumbnails[e.thumbnails.length - 1]?.url
      : (e.thumbnail || undefined)] *)
Definition thumb (e : jsval) : jsval :=
  match get e "thumbnails" with
  | VArr (first :: rest) =>
      match last (first :: rest) VUndefined with
      | VUndefined | VNull => VUndefined
      | t => get t "url"
      end
  | _ => or_else (get e "thumbnail") VUndefined
  end.

(** [typeof e.duration === 'number' ? e.duration
      : (typeof e.duration_seconds === 'number' ? e.duration_seconds : 0)] *)
Definition duration_of (e : jsval) : jsval :=
  match get e "duration" with
  | VNum n => VNum n
  | _ =>
      match get e "duration_seconds" with
      | VNum n => VNum n
      | _ => VNum num_zero
      end
  end.

(** The function given to [map]. *)
Definition to_song (e : jsval) : Song :=
  {| id := or_else (get e "id") (VStr []);
     title := or_else (get e "title") (VStr (lit "Unknown"));
     artist := or_else (get e "artist")
                 (or_else (get e "channel")
                    (or_else (get e "uploader") (VStr (lit "Unknown Artist"))));
     duration := duration_of e;
     coverUrl := or_else (thumb e) VUndefined;
     downloadUrl := VUndefined |}.

(** From [const entries = Array.isArray(data.entries) ? ...] to
    [return result]. *)
Definition build_playlist (data playlistTitle uploader : jsval) : thrown + Playlist :=
  match array_or_empty (get data "entries") with
  | [] => inl (ErrorObj (lit "No videos found in playlist."))
  | entries =>
      let songs := map to_song (filter truthy entries) in
      inr {| name := playlistTitle;
             songs := songs;
             totalCount := List.length songs;
             uploader := if truthy uploader then Some uploader else None |}
  end.

Definition unknown_playlist : jsval := VStr (lit "Unknown Playlist").

Section Call.

Variable playlistId : jsstring.
Variable cookiesFile : option jsstring.

Definition command : jsstring :=
  lit "py -m yt_dlp -J " ++ cookiesArg cookiesFile ++ lit " --no-warnings "
  ++ dq ++ playlistUrl playlistId ++ dq.

Definition flatCommand : jsstring :=
  lit "py -m yt_dlp --dump-json --flat-playlist " ++ cookiesArg cookiesFile
  ++ lit " --no-warnings " ++ dq ++ playlistUrl playlistId ++ dq.

(** The first [try] block: the data with the title and the uploader read
    from it, or nothing when anything in the block throws: [execSync],
    [JSON.parse], or the reading of [data.title] when the data is
    [null]. *)
Definition complete_metadata : option (jsval * jsval * jsval) :=
  match run command with
  | ExecError _ _ => None
  | Output jsonText =>
      match JSON_parse jsonText with
      | inl _ => None
      | inr VNull | inr VUndefined => None
      | inr data =>
          Some (data,
                or_else (get data "title")
                  (or_else (get data "playlist") unknown_playlist),
                or_else (get data "uploader")
                  (or_else (get data "channel") VUndefined))
      end
  end.

(** The [catch (flatError)] clause. *)
Definition flat_failure (stderr : option jsstring) (message : jsstring) : thrown :=
  let stderr := match stderr with Some s => s | None => [] end in
  if includes (lit "Private video") stderr
     || includes (lit "This video is private") stderr then
    ErrorObj (lit "Playlist contains private videos or requires authentication. Try using --cookies option.")
  else if includes (lit "This playlist does not exist") stderr then
    ErrorObj (lit "Playlist not found or is private.")
  else
    ErrorObj (lit "Failed to fetch playlist: "
              ++ match stderr with [] => message | _ => stderr end).

(** The [for (const line of lines)] loop. *)
Definition parse_lines (lines : list jsstring) : list jsval :=
  flat_map (fun line =>
              match JSON_parse line with
              | inr item => [item]
              | inl _ => []
              end) lines.

(** [entries.length > 0 && entries[0]?.playlist ? entries[0].playlist
    : 'Unknown Playlist'], the title after the fallback. *)
Definition flat_title (entries : list jsval) : jsval :=
  match entries with
  | [] => unknown_playlist
  | VUndefined :: _ | VNull :: _ => unknown_playlist
  | first :: _ =>
      if truthy (get first "playlist") then get first "playlist"
      else unknown_playlist
  end.

(** The fallback, after its [console.log]: the data and the title. *)
Definition flat_metadata : thrown + (jsval * jsval) :=
  match run flatCommand with
  | ExecError stderr message => inl (flat_failure stderr message)
  | Output output =>
      match json_lines output with
      | [] => inl (ErrorObj (lit "No videos found in playlist. It may be private or empty."))
      | lines =>
          let entries := parse_lines lines in
          inr (VObj [(lit "entries", VArr entries)], flat_title entries)
      end
  end.

Definition fallback_notice : jsstring :=
  lit "  " ++ [9888; 65039]%N
  ++ lit "  Large playlist detected, using alternative fetch method...".

(** The outer [catch] clause. *)
Definition rethrow {A} (r : thrown + A) : thrown + A :=
  match r with
  | inl error => inl (ErrorObj (lit "Failed to fetch playlist: " ++ message_of error))
  | inr a => inr a
  end.

Definition fetchPlaylistMetadata : Fetched Playlist :=
  match complete_metadata with
  | Some (data, playlistTitle, uploader) =>
      {| logged := [];
         outcome := rethrow (build_playlist data playlistTitle uploader) |}
  | None =>
      {| logged := [fallback_notice];
         outcome :=
           rethrow
             match flat_metadata with
             | inl error => inl error
             | inr (data, playlistTitle) =>
                 build_playlist data playlistTitle VUndefined
             end |}
  end.

End Call.

Section Details.

Variable videoId : jsstring.
Variable cookiesFile : option jsstring.

Definition details_command : jsstring :=
  lit "py -m yt_dlp " ++ cookiesArg cookiesFile ++ lit " --dump-json "
  ++ dq ++ (lit "https://www.youtube.com/watch?v=" ++ videoId) ++ dq.

Definition details_failure (message : jsstring) : thrown :=
  ErrorObj (lit "Failed to fetch song details for " ++ videoId ++ lit ": " ++ message).

Definition fetchSongDetails : thrown + Song :=
  match run details_command with
  | ExecError _ message => inl (details_failure message)
  | Output output =>
      match JSON_parse output with
      | inl message => inl (details_failure message)
      | inr VNull | inr VUndefined => inl (details_failure null_property_message)
      | inr data =>
          inr {| id := VStr videoId;
                 title := or_else (get data "title") (VStr (lit "Unknown"));
                 artist := or_else (get data "channel") (VStr (lit "Unknown Artist"));
                 duration := or_else (get data "duration") (VNum num_zero);
                 coverUrl := or_else (get data "thumbnail") VUndefined;
                 downloadUrl := VStr videoId |}
      end
  end.

End Details.

(** What every item of a fetched playlist has: a title and an artist that
    are set, an identifier that is set or the empty string, a number for a
    duration, a cover link that is set or missing. *)
Definition song_ok (s : Song) : Prop :=
  truthy (title s) = true
  /\ truthy (artist s) = true
  /\ (truthy (id s) = true \/ id s = VStr [])
  /\ (exists n, duration s = VNum n)
  /\ (truthy (coverUrl s) = true \/ coverUrl s = VUndefined).

(** The first attempt gave data to read. *)
Definition complete_data (playlistId : jsstring) (cookiesFile : option jsstring)
           (data : jsval) : Prop :=
  exists jsonText,
    run (command playlistId cookiesFile) = Output jsonText
    /\ JSON_parse jsonText = inr data
    /\ data <> VNull /\ data <> VUndefined.

End Model.

Arguments VUndefined {jsnum}.
Arguments VNull {jsnum}.
Arguments VBool {jsnum} b.
Arguments VStr {jsnum} s.

(** A tool and a parser for concrete calls: the complete metadata of the
    playlist [PLnull] are an object whose one entry is [null]; those of
    [PLflat] cannot be had, and its flat listing has two lines, of which
    the second is cut. *)
Definition toy_truthy (n : nat) : bool := negb (Nat.eqb n 0).

Definition toy_parse (text : jsstring) : jsstring + jsval nat :=
  if jsstring_eqb text (lit "{entries:[null]}") then
    inr (VObj [(lit "title", VStr (lit "Mix")); (lit "entries", VArr [VNull])])
  else if jsstring_eqb text (lit "{id:a}") then
    inr (VObj [(lit "id", VStr (lit "a")); (lit "playlist", VStr (lit "Flat"));
               (lit "duration", VStr (lit "3:21"))])
  else inl (lit "Unexpected end of JSON input").

Definition toy_run (command : jsstring) : ExecOutcome :=
  if includes (lit "list=PLnull") command then
    if includes (lit " -J ") command then Output (lit "{entries:[null]}")
    else ExecError None (lit "not called")
  else if includes (lit "list=PLflat") command then
    if includes (lit " -J ") command then ExecError (Some (lit "ERROR: timed out")) (lit "Command failed")
    else Output (lit "{id:a}" ++ [10%N] ++ lit "{id:")
  else if includes (lit "watch?v=a") command then Output (lit "{id:a}")
  else ExecError (Some (lit "ERROR: This video is private. Private video")) (lit "Command failed").

End Fetcher.

(** The text that [fetchPlaylistMetadata] puts before the message of every
    error it throws. *)
Definition fetch_prefix : jsstring := lit "Failed to fetch playlist: ".

(** [stderr] names a private video. *)
Definition names_private (stderr : jsstring) : bool :=
  Fetcher.includes (lit "Private video") stderr
  || Fetcher.includes (lit "This video is private") stderr.

(** [flatError.stderr?.toString() || ''] *)
Definition stderr_text (stderr : option jsstring) : jsstring :=
  match stderr with Some s => s | None => [] end.

(** The number of progress events with a given status. *)
Definition count_status (st : Status) (t : list Event) : nat :=
  List.length (filter (fun sp => status_eqb (fst sp) st) (progress_list t)).

(* ================================================================= *)
(** ** services/metadata/tagger.ts *)

Module Tagger.

(** [await downloadCoverArt(url)]: the bytes, when the response ends;
    [null] when the request or the response fails; what [https.get] throws
    at once, for a link it refuses; or nothing at all: the request has no
    time-out, and a response that neither ends nor fails leaves the promise
    unsettled. *)
Inductive CoverOutcome : Type :=
| CoverBuffer (bytes : list N)
| CoverNull
| CoverThrows (e : thrown)
| CoverPending.

Record Image : Type := {
  mime : jsstring;
  type_id : N;
  type_name : jsstring;
  description : jsstring;
  imageBuffer : list N
}.

Record Tags : Type := {
  tag_title : jsstring;
  tag_artist : jsstring;
  image : option Image
}.

(** [NodeID3.write(tags, filePath)]: what it returns, as a condition reads
    it, or what it throws. *)
Inductive WriteOutcome : Type :=
| WriteReturns (truthy : bool)
| WriteThrows (e : thrown).

Inductive Method : Type := m_log | m_error | m_warn | m_info.

(** What the tagger does to the outside, in order. *)
Inductive Effect : Type :=
| HttpsGet (url : jsstring)
| ID3Write (tags : Tags) (filePath : jsstring)
| Print (method : Method) (text : jsstring).

Record TagJob : Type := { filePath : jsstring; song : Song }.

Section Model.

Variable cover : jsstring -> CoverOutcome.
Variable write : Tags -> jsstring -> WriteOutcome.
Variable existsSync : jsstring -> bool.

(** [logger.warn], [logger.error], [logger.info], [logger.success] *)
Definition warn (message : jsstring) : Effect :=
  Print m_warn ([9888%N] ++ lit " " ++ message).
Definition error (message : jsstring) : Effect :=
  Print m_error ([10007%N] ++ lit " " ++ message).
Definition info (message : jsstring) : Effect :=
  Print m_info ([8505%N] ++ lit " " ++ message).
Definition success (message : jsstring) : Effect :=
  Print m_log ([10003%N] ++ lit " " ++ message).

Definition cover_image (bytes : list N) : Image :=
  {| mime := lit "image/jpeg"; type_id := 3; type_name := lit "front cover";
     description := lit "Cover"; imageBuffer := bytes |}.

(** The [catch] clause of [addMetadata]. *)
Definition on_error (theSong : Song) (e : thrown) : Effect :=
  error (lit "Error adding metadata to " ++ dq ++ song_title theSong ++ dq
         ++ lit ": " ++ message_of e).

(** From [NodeID3.write] on. *)
Definition write_tags (path : jsstring) (theSong : Song) (img : option Image)
  : list Effect * bool :=
  let tags := {| tag_title := song_title theSong;
                 tag_artist := song_artist theSong;
                 image := img |} in
  match write tags path with
  | WriteReturns true => ([ID3Write tags path], true)
  | WriteReturns false =>
      ([ID3Write tags path;
        warn (lit "Failed to write metadata for: " ++ song_title theSong)], false)
  | WriteThrows e => ([ID3Write tags path; on_error theSong e], false)
  end.

(** What the call does, and the value its promise is fulfilled with;
    [None] when the promise stays unsettled. *)
Definition addMetadata (path : jsstring) (theSong : Song)
  : list Effect * option bool :=
  match coverUrl theSong with
  | Some (c :: rest) =>
      let url := c :: rest in
      match cover url with
      | CoverPending => ([HttpsGet url], None)
      | CoverThrows e => ([HttpsGet url; on_error theSong e], Some false)
      | CoverBuffer bytes =>
          let (effects, ok) := write_tags path theSong (Some (cover_image bytes)) in
          (HttpsGet url :: effects, Some ok)
      | CoverNull =>
          let (effects, ok) := write_tags path theSong None in
          (HttpsGet url :: effects, Some ok)
      end
  | _ =>
      let (effects, ok) := write_tags path theSong None in
      (effects, Some ok)
  end.

(** [for (const { filePath, song } of files) { ... }]: what the loop does,
    and whether it comes to its end. *)
Fixpoint tag_each (files : list TagJob) : list Effect * bool :=
  match files with
  | [] => ([], true)
  | job :: rest =>
      if existsSync (filePath job) then
        match addMetadata (filePath job) (song job) with
        | (effects, None) => (effects, false)
        | (effects, Some _) =>
            let (more, done) := tag_each rest in (effects ++ more, done)
        end
      else tag_each rest
  end.

(** What the call does, and whether its promise is fulfilled. *)
Definition addMetadataToFiles (files : list TagJob) : list Effect * bool :=
  let (effects, done) := tag_each files in
  (info (lit "Adding metadata to " ++ num_to_string (List.length files)
         ++ lit " files...")
   :: effects ++ (if done then [success (lit "Metadata addition complete")] else []),
   done).

(** The request for the cover of an item is refused at once. *)
Definition cover_refused (theSong : Song) : bool :=
  match coverUrl theSong with
  | Some (c :: rest) =>
      match cover (c :: rest) with CoverThrows _ => true | _ => false end
  | _ => false
  end.

(** The request for the cover of an item never settles. *)
Definition cover_pending (theSong : Song) : bool :=
  match coverUrl theSong with
  | Some (c :: rest) =>
      match cover (c :: rest) with CoverPending => true | _ => false end
  | _ => false
  end.

(** The call of [addMetadata] for a file of the list never settles. *)
Definition stuck (job : TagJob) : bool :=
  existsSync (filePath job) && cover_pending (song job).

(** The files the loop is done with: those before the first one whose call
    never settles. *)
Fixpoint served (files : list TagJob) : list TagJob :=
  match files with
  | [] => []
  | job :: rest => if stuck job then [] else job :: served rest
  end.

(** The bytes of the cover of an item, when it has a link and the request
    gives them. *)
Definition cover_bytes (theSong : Song) : option (list N) :=
  match coverUrl theSong with
  | Some (c :: rest) =>
      match cover (c :: rest) with CoverBuffer bytes => Some bytes | _ => None end
  | _ => None
  end.

(** The tags [addMetadata] makes for an item. *)
Definition tags_for (theSong : Song) : Tags :=
  {| tag_title := song_title theSong;
     tag_artist := song_artist theSong;
     image := option_map cover_image (cover_bytes theSong) |}.

End Model.

(** The call returned [false]. *)
Definition returned_false (value : option bool) : bool :=
  match value with Some false => true | _ => false end.

(** The line that [addMetadataToFiles] ends with. *)
Definition is_completion (e : Effect) : bool :=
  match e with Print m_log _ => true | _ => false end.

(** The writes of a run, in order. *)
Definition writes (effects : list Effect) : list (Tags * jsstring) :=
  flat_map (fun e => match e with ID3Write tags path => [(tags, path)] | _ => [] end)
           effects.

Definition prints (effects : list Effect) : list Effect :=
  filter (fun e => match e with Print _ _ => true | _ => false end) effects.

End Tagger.

(** Three files for concrete runs of the tagger: the first is missing, the
    write of the second throws, the cover of the third is fetched. *)
Definition tagged_song (name : string) (cover : option jsstring) : Song :=
  {| song_id := lit name; song_title := lit name; song_artist := lit "Artist";
     song_duration := 60; coverUrl := cover; downloadUrl := None |}.

Definition toy_files : list Tagger.TagJob :=
  [ {| Tagger.filePath := lit "out/gone.mp3";
       Tagger.song := tagged_song "gone" None |};
    {| Tagger.filePath := lit "out/locked.mp3";
       Tagger.song := tagged_song "locked" None |};
    {| Tagger.filePath := lit "out/fine.mp3";
       Tagger.song := tagged_song "fine" (Some (lit "https://i.ytimg.com/fine.jpg")) |} ].

Definition toy_cover (url : jsstring) : Tagger.CoverOutcome :=
  if jsstring_eqb url (lit "https://i.ytimg.com/slow.jpg")
  then Tagger.CoverPending
  else Tagger.CoverBuffer [255; 216; 255]%N.

(** Two more files: the response with the cover of the first never ends. *)
Definition slow_files : list Tagger.TagJob :=
  [ {| Tagger.filePath := lit "out/slow.mp3";
       Tagger.song := tagged_song "slow" (Some (lit "https://i.ytimg.com/slow.jpg")) |};
    {| Tagger.filePath := lit "out/late.mp3";
       Tagger.song := tagged_song "late" None |} ].

Definition toy_write (tags : Tagger.Tags) (path : jsstring) : Tagger.WriteOutcome :=
  if jsstring_eqb path (lit "out/locked.mp3")
  then Tagger.WriteThrows (ErrorObj (lit "EACCES: permission denied"))
  else Tagger.WriteReturns true.

Definition toy_exists (path : jsstring) : bool :=
  negb (jsstring_eqb path (lit "out/gone.mp3")).

(** The time a trace spends in [delay], in milliseconds. *)
Definition total_delay (t : list Event) : N :=
  fold_right (fun e acc => match e with Delay ms => (ms + acc)%N | _ => acc end) 0%N t.

(** The number of connectivity probes of a trace. *)
Definition probe_count (t : list Event) : nat := List.length (filter is_probe t).

(* ================================================================= *)
(** ** services/zipper/zipper.ts: getDirectorySize *)

Module Zipper.

(** What [fs.statSync] tells of an entry, as far as the code reads it. *)
Record Stats : Type := { isFile : bool; size : N }.

Section Model.

Variable path_join : jsstring -> jsstring -> jsstring.
Variable existsSync : jsstring -> bool.
(** [fs.readdirSync] and [fs.statSync]: the answer, or what they throw. *)
Variable readdirSync : jsstring -> thrown + list jsstring.
Variable statSync : jsstring -> thrown + Stats.
(** The addition of two numbers that hold sizes. *)
Variable add : N -> N -> N.

(** The [for (const file of files)] loop, entered with [totalSize]. *)
Fixpoint add_sizes (dirPath : jsstring) (files : list jsstring) (totalSize : N)
  : thrown + N :=
  match files with
  | [] => inr totalSize
  | file :: rest =>
      match statSync (path_join dirPath file) with
      | inl e => inl e
      | inr stats =>
          add_sizes dirPath rest
            (if isFile stats then add totalSize (size stats) else totalSize)
      end
  end.

Definition getDirectorySize (dirPath : jsstring) : thrown + N :=
  if negb (existsSync dirPath) then inr 0%N
  else
    match readdirSync dirPath with
    | inl e => inl e
    | inr files => add_sizes dirPath files 0%N
    end.

(** The size an entry counts for: its own when it is a regular file that
    can be examined, none otherwise. *)
Definition counted (dirPath file : jsstring) : N :=
  match statSync (path_join dirPath file) with
  | inr stats => if isFile stats then size stats else 0%N
  | inl _ => 0%N
  end.

Definition examined (dirPath file : jsstring) : bool :=
  match statSync (path_join dirPath file) with
  | inr _ => true
  | inl _ => false
  end.

Definition total (dirPath : jsstring) (files : list jsstring) : N :=
  fold_right (fun file acc => (counted dirPath file + acc)%N) 0%N files.

End Model.

(** A directory for concrete calls: two files and a folder. *)
Definition toy_stat (path : jsstring) : thrown + Stats :=
  if jsstring_eqb path (lit "out/a.mp3") then inr {| isFile := true; size := 1000 |}
  else if jsstring_eqb path (lit "out/b.mp3") then inr {| isFile := true; size := 234 |}
  else if jsstring_eqb path (lit "out/sub") then inr {| isFile := false; size := 4096 |}
  else inl (ErrorObj (lit "ENOENT: no such file or directory, stat")).

Definition toy_readdir (path : jsstring) : thrown + list jsstring :=
  if jsstring_eqb path (lit "out") then inr [lit "a.mp3"; lit "sub"; lit "b.mp3"]
  else inl (ErrorObj (lit "ENOTDIR: not a directory, scandir")).

End Zipper.

(* ================================================================= *)
(** ** utils/validator.ts: extractVideoId *)

(** The matcher of the language, in continuation-passing style as its
    specification has it: [backtrack i r s k] matches [r] at the head of
    [s] and hands what is left to [k]; the first alternative and the longest
    repetition are tried first, and the next choice is taken when what
    follows fails.  A repetition gives up an iteration that matches
    nothing. *)
Fixpoint backtrack {A} (i : bool) (r : regex) (s : jsstring)
         (k : jsstring -> option A) : option A :=
  match r with
  | Void => None
  | Eps => k s
  | Chr a =>
      match s with
      | c :: s' => if chr_eqb i a c then k s' else None
      | [] => None
      end
  | Class rs =>
      match s with
      | c :: s' => if in_ranges rs c then k s' else None
      | [] => None
      end
  | Seq r1 r2 => backtrack i r1 s (fun s' => backtrack i r2 s' k)
  | Alt r1 r2 =>
      match backtrack i r1 s k with
      | Some x => Some x
      | None => backtrack i r2 s k
      end
  | Star r1 =>
      (fix loop (fuel : nat) (s : jsstring) : option A :=
         match fuel with
         | O => k s
         | S fuel' =>
             match backtrack i r1 s
                     (fun s' => if List.length s' <? List.length s
                                then loop fuel' s' else None) with
             | Some x => Some x
             | None => k s
             end
         end) (List.length s) s
  end.

(** [.]: any code unit but the line terminators. *)
Definition dot_ranges : list (char16 * char16) :=
  [(0, 9); (11, 12); (14, 8231); (8234, 65535)]%N.

(** [[^&\n?#]] *)
Definition video_id_ranges : list (char16 * char16) :=
  [(0, 9); (11, 34); (36, 37); (39, 62); (64, 65535)]%N.

(** [(?:youtube\.com\/watch\?v=|youtube\.com\/.*[?&]v=|youtu\.be\/)] *)
Definition re_video_prefix : regex :=
  Alt (Str (lit "youtube.com/watch?v="))
      (Alt (Seq (Str (lit "youtube.com/"))
                (Seq (Star (Class dot_ranges))
                     (Seq (Class [(63, 63); (38, 38)]%N) (Str (lit "v=")))))
           (Str (lit "youtu.be/"))).

(** The match that starts at the head of [s], if there is one: its
    group. *)
Definition match_video_at (s : jsstring) : option jsstring :=
  backtrack false re_video_prefix s
    (fun s1 =>
       backtrack false (Plus (Class video_id_ranges)) s1
         (fun s2 => Some (firstn (List.length s1 - List.length s2) s1))).

(** [url.match(/(?:...)([^&\n?#]+)/)?.[1] ?? null]: the match that starts
    first. *)
Fixpoint extractVideoId (url : jsstring) : option jsstring :=
  match match_video_at url with
  | Some id => Some id
  | None =>
      match url with
      | [] => None
      | _ :: rest => extractVideoId rest
      end
  end.

Fixpoint drop_while (p : char16 -> bool) (s : jsstring) : jsstring :=
  match s with
  | [] => []
  | c :: s' => if p c then drop_while p s' else s
  end.

(** The link [downloadSong] and [fetchSongDetails] make of an identifier. *)
Definition videoUrl (videoId : jsstring) : jsstring :=
  lit "https://www.youtube.com/watch?v=" ++ videoId.

(* ================================================================= *)
(** * Properties *)

(** ** The validator on concrete inputs *)

Example isValid_playlist :
  isValidYouTubeUrl (lit "https://music.youtube.com/playlist?list=PL123") = true.
Proof. vm_compute. reflexivity. Qed.

Example isValid_other_site :
  isValidYouTubeUrl (lit "https://example.com/playlist?list=PL123") = false.
Proof. vm_compute. reflexivity. Qed.

Example extract_playlist :
  validateAndExtractId (lit "HTTPS://WWW.YouTube.com/watch?v=abc&list=PL_1-2#t")
  = inr (lit "PL_1-2").
Proof. vm_compute. reflexivity. Qed.

Example sanitize_example :
  sanitizeFilename (lit "  AC/DC  -   Back: in <Black>?  ")
  = lit "ACDC - Back in Black".
Proof. vm_compute. reflexivity. Qed.

Example isNetworkError_examples :
  isNetworkError (lit "Command failed: getaddrinfo enotfound www.youtube.com") = true
  /\ isNetworkError (lit "ERROR: Video unavailable") = false.
Proof. vm_compute. split; reflexivity. Qed.

(* ----------------------------------------------------------------- *)
(** ** The matcher computes the denotation *)

Lemma denotes_nil_inv i r s : denotes i r s -> s = [] -> nullable r = true.
Proof.
  induction 1; intros Hs; simpl; auto; try discriminate.
  - apply app_eq_nil in Hs as [-> ->]. now rewrite IHdenotes1, IHdenotes2.
  - now rewrite IHdenotes.
  - rewrite IHdenotes by assumption. apply orb_true_r.
Qed.

Lemma nullable_denotes i r : nullable r = true <-> denotes i r [].
Proof.
  split; [|intros H; eapply denotes_nil_inv; eauto].
  induction r; simpl; intros H; try discriminate.
  - constructor.
  - apply andb_true_iff in H as [H1 H2].
    change (@nil char16) with (@nil char16 ++ []). constructor; auto.
  - apply orb_true_iff in H as [H|H]; [apply d_alt_l|apply d_alt_r]; auto.
  - constructor.
Qed.

Lemma denotes_star_cons_inv i r c s :
  denotes i (Star r) (c :: s) ->
  exists s1 s2, s = s1 ++ s2 /\ denotes i r (c :: s1) /\ denotes i (Star r) s2.
Proof.
  intros H. remember (Star r) as sr eqn:Er. remember (c :: s) as cs eqn:Es.
  revert c s Er Es.
  induction H; intros c0 s0 Er Es; try discriminate.
  inversion Er; subst r0. clear Er.
  destruct s1 as [|d s1].
  - simpl in Es. eapply IHdenotes2; eauto.
  - simpl in Es. inversion Es; subst d s0. exists s1, s2. auto.
Qed.

Lemma denotes_seq_inv i r1 r2 s :
  denotes i (Seq r1 r2) s ->
  exists s1 s2, s = s1 ++ s2 /\ denotes i r1 s1 /\ denotes i r2 s2.
Proof. intros H. inversion H; subst. eauto. Qed.

Lemma deriv_denotes i c r : forall s,
  denotes i (deriv i c r) s <-> denotes i r (c :: s).
Proof.
  induction r as [| |a|rs|r1 IH1 r2 IH2|r1 IH1 r2 IH2|r1 IH1]; intros s; simpl.
  - split; intros H; inversion H.
  - split; intros H; inversion H.
  - destruct (chr_eqb i a c) eqn:E; split; intros H; inversion H; subst.
    + now constructor.
    + constructor.
    + congruence.
  - destruct (in_ranges rs c) eqn:E; split; intros H; inversion H; subst.
    + now constructor.
    + constructor.
    + congruence.
  - assert (Hseq : denotes i (Seq (deriv i c r1) r2) s ->
                   denotes i (Seq r1 r2) (c :: s)).
    { intros H. inversion H; subst.
      change (c :: s1 ++ s2) with ((c :: s1) ++ s2). constructor; auto.
      now apply IH1. }
    assert (Hinv : denotes i (Seq r1 r2) (c :: s) ->
                   denotes i (Seq (deriv i c r1) r2) s
                   \/ (nullable r1 = true /\ denotes i (deriv i c r2) s)).
    { intros H. apply denotes_seq_inv in H as (s1 & s2 & Heq & H1 & H2).
      destruct s1 as [|d s1].
      - simpl in Heq. subst s2. right. split.
        + now apply (nullable_denotes i).
        + now apply IH2.
      - simpl in Heq. inversion Heq; subst. left. constructor; auto. now apply IH1. }
    destruct (nullable r1) eqn:En.
    + split.
      * intros H. inversion H; subst; [now apply Hseq|].
        change (c :: s) with ([] ++ c :: s). constructor.
        -- now apply nullable_denotes.
        -- now apply IH2.
      * intros H. destruct (Hinv H) as [H'|[_ H']]; [now apply d_alt_l|now apply d_alt_r].
    + split; [exact Hseq|].
      intros H. destruct (Hinv H) as [H'|[Hn _]]; [exact H'|discriminate].
  - split; intros H; inversion H; subst.
    + apply d_alt_l. now apply IH1.
    + apply d_alt_r. now apply IH2.
    + apply d_alt_l. now apply IH1.
    + apply d_alt_r. now apply IH2.
  - split.
    + intros H. inversion H; subst.
      change (c :: s1 ++ s2) with ((c :: s1) ++ s2). constructor; auto. now apply IH1.
    + intros H. apply denotes_star_cons_inv in H as (s1 & s2 & -> & H1 & H2).
      constructor; auto. now apply IH1.
Qed.

Lemma matches_prefix_denotes i : forall s r,
  matches_prefix i r s = true <-> exists p q, s = p ++ q /\ denotes i r p.
Proof.
  induction s as [|c s IH]; intros r; simpl.
  - rewrite orb_false_r. split.
    + intros H. exists [], []. split; [reflexivity|now apply nullable_denotes].
    + intros (p & q & Heq & H). symmetry in Heq. apply app_eq_nil in Heq as [-> _].
      now apply (nullable_denotes i).
  - split.
    + intros H. apply orb_true_iff in H as [H|H].
      * exists [], (c :: s). split; [reflexivity|now apply nullable_denotes].
      * apply IH in H as (p & q & -> & H). exists (c :: p), q.
        split; [reflexivity|now apply deriv_denotes].
    + intros (p & q & Heq & H). apply orb_true_iff.
      destruct p as [|d p].
      * left. now apply (nullable_denotes i).
      * right. simpl in Heq. inversion Heq; subst. apply IH.
        exists p, q. split; [reflexivity|now apply deriv_denotes].
Qed.

Lemma test_denotes i r : forall s,
  test i r s = true <-> exists a p q, s = a ++ p ++ q /\ denotes i r p.
Proof.
  induction s as [|c s IH]; simpl.
  - rewrite !orb_false_r. split.
    + intros H. exists [], [], []. split; [reflexivity|now apply nullable_denotes].
    + intros (a & p & q & Heq & H). symmetry in Heq.
      apply app_eq_nil in Heq as [_ Heq]. apply app_eq_nil in Heq as [-> _].
      now apply (nullable_denotes i).
  - split.
    + intros H. apply orb_true_iff in H as [H|H].
      * apply orb_true_iff in H as [H|H].
        -- exists [], [], (c :: s). split; [reflexivity|now apply nullable_denotes].
        -- apply matches_prefix_denotes in H as (p & q & -> & H).
           exists [], (c :: p), q. split; [reflexivity|now apply deriv_denotes].
      * apply IH in H as (a & p & q & -> & H). exists (c :: a), p, q. auto.
    + intros (a & p & q & Heq & H). apply orb_true_iff.
      destruct a as [|d a].
      * left. simpl in Heq.
        change (nullable r || matches_prefix i (deriv i c r) s)
          with (matches_prefix i r (c :: s)).
        apply matches_prefix_denotes. exists p, q. auto.
      * right. simpl in Heq. inversion Heq; subst. apply IH. exists a, p, q. auto.
Qed.

(* ----------------------------------------------------------------- *)
(** ** extractPlaylistId against its pattern *)

Lemma denotes_Str s : forall p, denotes false (Str s) p <-> p = s.
Proof.
  induction s as [|a s IH]; intros p; simpl.
  - split; [intros H; now inversion H|intros ->; constructor].
  - split.
    + intros H. apply denotes_seq_inv in H as (s1 & s2 & -> & H1 & H2).
      inversion H1; subst. apply IH in H2. subst s2.
      simpl in *. match goal with H : (a =? _)%N = true |- _ => apply N.eqb_eq in H end.
      now subst.
    + intros ->. change (a :: s) with ([a] ++ s). constructor.
      * constructor. simpl. apply N.eqb_refl.
      * now apply IH.
Qed.

Lemma denotes_Star_Class i rs p :
  denotes i (Star (Class rs)) p <-> forallb (in_ranges rs) p = true.
Proof.
  split.
  - intros H. remember (Star (Class rs)) as r eqn:Er.
    induction H; try discriminate; [reflexivity|].
    inversion Er; subst r. rewrite forallb_app, IHdenotes2 by assumption.
    inversion H; subst. simpl.
    match goal with H : in_ranges rs _ = true |- _ => now rewrite H end.
  - induction p as [|c p IH]; simpl; intros H; [constructor|].
    apply andb_true_iff in H as [Hc Hp].
    change (c :: p) with ([c] ++ p). constructor; [now constructor|auto].
Qed.

Lemma denotes_playlist_id p :
  denotes false re_playlist_id p <->
  exists c ids,
    p = c :: lit "list=" ++ ids
    /\ in_ranges [(63, 63); (38, 38)]%N c = true
    /\ ids <> [] /\ forallb (in_ranges id_ranges) ids = true.
Proof.
  unfold re_playlist_id, Plus. split.
  - intros H. apply denotes_seq_inv in H as (s1 & s2 & -> & H1 & H2).
    apply denotes_seq_inv in H2 as (s3 & s4 & -> & H3 & H4).
    apply denotes_seq_inv in H4 as (s5 & s6 & -> & H5 & H6).
    apply denotes_Str in H3. subst s3.
    apply denotes_Star_Class in H6.
    inversion H1; subst. inversion H5; subst.
    exists c, ([c0] ++ s6). repeat split; auto; [discriminate|].
    rewrite forallb_app, H6. cbn [forallb].
    match goal with H : in_ranges id_ranges c0 = true |- _ => now rewrite H end.
  - intros (c & ids & -> & Hc & Hne & Hids).
    destruct ids as [|d ids]; [congruence|]. cbn [forallb] in Hids.
    apply andb_true_iff in Hids as [Hd Hids].
    change (c :: lit "list=" ++ d :: ids) with ([c] ++ lit "list=" ++ [d] ++ ids).
    constructor; [now constructor|]. constructor; [now apply denotes_Str|].
    constructor; [now constructor|now apply denotes_Star_Class].
Qed.

Lemma starts_with_app p : forall s tail,
  starts_with p s = Some tail <-> s = p ++ tail.
Proof.
  induction p as [|a p IH]; intros s tail; simpl.
  - split; [intros H; now inversion H|now intros ->].
  - destruct s as [|c s]; [split; discriminate|].
    destruct (a =? c)%N eqn:E.
    + apply N.eqb_eq in E. subst c. rewrite IH. split; [now intros ->|now inversion 1].
    + apply N.eqb_neq in E. split; [discriminate|]. inversion 1. congruence.
Qed.

Lemma take_while_prefix f s :
  exists rest, s = take_while f s ++ rest /\ forallb f (take_while f s) = true.
Proof.
  induction s as [|c s (rest & Hs & Hf)]; simpl.
  - now exists [].
  - destruct (f c) eqn:E.
    + exists rest. simpl. rewrite E, Hf. split; [now f_equal|reflexivity].
    + now exists (c :: s).
Qed.

Lemma take_while_nonempty f ids q :
  ids <> [] -> forallb f ids = true -> take_while f (ids ++ q) <> [].
Proof.
  destruct ids as [|d ids]; [congruence|]. simpl. intros _ H.
  apply andb_true_iff in H as [-> _]. discriminate.
Qed.

(** The scanner finds an identifier exactly where the pattern of the source
    matches, and what it returns is a non-empty run of identifier
    characters that follows [list=] after a [?] or a [&]. *)
Lemma extractPlaylistId_pattern url :
  ((exists id, extractPlaylistId url = Some id)
   <-> test false re_playlist_id url = true)
  /\ forall id,
       extractPlaylistId url = Some id ->
       id <> [] /\ forallb (in_ranges id_ranges) id = true
       /\ exists a c q,
            url = a ++ c :: lit "list=" ++ id ++ q
            /\ in_ranges [(63, 63); (38, 38)]%N c = true.
Proof.
  assert (Hsound : forall url id,
    extractPlaylistId url = Some id ->
    id <> [] /\ forallb (in_ranges id_ranges) id = true
    /\ exists a c q,
         url = a ++ c :: lit "list=" ++ id ++ q
         /\ in_ranges [(63, 63); (38, 38)]%N c = true).
  { clear url. induction url as [|c rest IH]; intros id H; [discriminate|].
    cbn [extractPlaylistId] in H.
    destruct (in_ranges [(63, 63); (38, 38)]%N c) eqn:Ec.
    - destruct (starts_with (lit "list=") rest) as [tail|] eqn:Es.
      + destruct (take_while (in_ranges id_ranges) tail) as [|d ids] eqn:Et.
        * destruct (IH _ H) as (Hne & Hf & a & c' & q & -> & Hc').
          repeat split; auto. exists (c :: a), c', q. auto.
        * inversion H; subst id. clear H.
          destruct (take_while_prefix (in_ranges id_ranges) tail) as (q & Htail & Hf).
          rewrite Et in Htail, Hf. apply starts_with_app in Es.
          repeat split; [discriminate|exact Hf|].
          exists [], c, q. split; [|exact Ec]. simpl. now rewrite Es, Htail.
      + destruct (IH _ H) as (Hne & Hf & a & c' & q & -> & Hc').
        repeat split; auto. exists (c :: a), c', q. auto.
    - destruct (IH _ H) as (Hne & Hf & a & c' & q & -> & Hc').
      repeat split; auto. exists (c :: a), c', q. auto. }
  split; [|apply Hsound].
  rewrite test_denotes. split.
  - intros (id & H). destruct (Hsound _ _ H) as (Hne & Hf & a & c & q & -> & Hc).
    exists a, (c :: lit "list=" ++ id), q. split.
    + simpl. reflexivity.
    + apply denotes_playlist_id. exists c, id. auto.
  - intros (a & p & q & -> & H).
    apply denotes_playlist_id in H as (c & ids & -> & Hc & Hne & Hids).
    induction a as [|x a IH].
    + cbn [app extractPlaylistId]. rewrite Hc.
      assert (Hs : starts_with (lit "list=") ((lit "list=" ++ ids) ++ q)
                   = Some (ids ++ q))
        by (apply starts_with_app; now rewrite <- app_assoc).
      rewrite Hs.
      pose proof (take_while_nonempty (in_ranges id_ranges) q Hne Hids) as Ht.
      destruct (take_while (in_ranges id_ranges) (ids ++ q)); [congruence|eauto].
    + destruct IH as (id & IH).
      change ((x :: a) ++ (c :: lit "list=" ++ ids) ++ q)
        with (x :: (a ++ (c :: lit "list=" ++ ids) ++ q)).
      remember (a ++ (c :: lit "list=" ++ ids) ++ q) as u eqn:Eu.
      cbn [extractPlaylistId]. rewrite IH.
      destruct (in_ranges [(63, 63); (38, 38)]%N x); [|eauto].
      destruct (starts_with (lit "list=") u) as [tail|]; [|eauto].
      destruct (take_while (in_ranges id_ranges) tail); eauto.
Qed.

(* ----------------------------------------------------------------- *)
(** ** sanitizeFilename *)

Lemma collapse_from_true_head s : head_not_space (collapse_from true s) = true.
Proof.
  induction s as [|c s IH]; simpl; auto.
  destruct (is_space c) eqn:E; simpl; auto.
  now rewrite E.
Qed.

Lemma no_space_run_cons c s :
  no_space_run (c :: s) = (negb (is_space c) || head_not_space s) && no_space_run s.
Proof.
  destruct s as [|d s]; simpl.
  - now rewrite orb_true_r.
  - now rewrite negb_andb.
Qed.

Lemma collapse_from_no_run b s : no_space_run (collapse_from b s) = true.
Proof.
  revert b; induction s as [|c s IH]; intros b; [reflexivity|].
  cbn [collapse_from].
  destruct (is_space c) eqn:E.
  - destruct b; [apply IH|].
    rewrite no_space_run_cons, collapse_from_true_head, IH.
    now rewrite orb_true_r.
  - rewrite no_space_run_cons, E, IH. reflexivity.
Qed.

Lemma no_space_run_app a b :
  no_space_run (a ++ b) = true -> no_space_run a = true /\ no_space_run b = true.
Proof.
  induction a as [|c a IH]; simpl app; intros H; [split; [reflexivity|exact H]|].
  rewrite no_space_run_cons in H. apply andb_true_iff in H as [H1 H2].
  destruct (IH H2) as [Ha Hb]. split; [|exact Hb].
  rewrite no_space_run_cons, Ha, andb_true_r.
  destruct a as [|d a]; [now rewrite orb_true_r|exact H1].
Qed.

Lemma trim_start_suffix s : exists pre, s = pre ++ trim_start s.
Proof.
  induction s as [|c s [pre IH]]; simpl.
  - now exists [].
  - destruct (is_space c).
    + exists (c :: pre). simpl. now f_equal.
    + now exists [].
Qed.

Lemma trim_end_prefix s : exists post, s = trim_end s ++ post.
Proof.
  unfold trim_end. destruct (trim_start_suffix (rev s)) as [pre H].
  exists (rev pre). rewrite <- rev_app_distr, <- H. now rewrite rev_involutive.
Qed.

Lemma trim_parts s : exists pre post, s = pre ++ trim s ++ post.
Proof.
  unfold trim. destruct (trim_start_suffix s) as [pre H].
  destruct (trim_end_prefix (trim_start s)) as [post H'].
  exists pre, post. now rewrite <- H', <- H.
Qed.

Lemma collapse_from_In b s c :
  In c (collapse_from b s) -> c = 32%N \/ In c s.
Proof.
  revert b; induction s as [|d s IH]; intros b; simpl; [tauto|].
  destruct (is_space d).
  - destruct b; simpl; intros H.
    + destruct (IH _ H); auto.
    + destruct H as [H|H]; [now left|]. destruct (IH _ H); auto.
  - simpl. intros [H|H]; [auto|]. destruct (IH _ H); auto.
Qed.

Lemma sanitizeFilename_parts s :
  exists pre post,
    collapse_spaces (strip_illegal s) = pre ++ sanitizeFilename s ++ post.
Proof.
  unfold sanitizeFilename, slice0.
  destruct (trim_parts (collapse_spaces (strip_illegal s))) as (pre & post & H).
  exists pre, (skipn 200 (trim (collapse_spaces (strip_illegal s))) ++ post).
  now rewrite (app_assoc (firstn _ _)), firstn_skipn.
Qed.

(** C9.  For every input string, the sanitized file name holds none of the
    ten illegal characters, holds no two adjacent white-space characters,
    and is at most 200 code units long. *)
Theorem sanitizeFilename_safe_and_bounded (s : jsstring) :
  (forall c, In c (sanitizeFilename s) -> ~ In c illegal_chars)
  /\ (forall pre c1 c2 post,
        sanitizeFilename s = pre ++ c1 :: c2 :: post ->
        ~ (is_space c1 = true /\ is_space c2 = true))
  /\ List.length (sanitizeFilename s) <= 200.
Proof.
  destruct (sanitizeFilename_parts s) as (pre0 & post0 & Hparts).
  split; [|split].
  - intros c Hc Hill.
    assert (Hin : In c (collapse_spaces (strip_illegal s))).
    { rewrite Hparts. apply in_or_app. right. apply in_or_app. now left. }
    apply collapse_from_In in Hin. destruct Hin as [->|Hin].
    + simpl in Hill. repeat (destruct Hill as [Hill|Hill]; [discriminate|]). exact Hill.
    + unfold strip_illegal in Hin. apply filter_In in Hin as [_ Hn].
      apply negb_true_iff in Hn. unfold is_illegal in Hn.
      assert (Hex : existsb (N.eqb c) illegal_chars = true).
      { apply existsb_exists. exists c. split; [exact Hill|apply N.eqb_refl]. }
      congruence.
  - intros pre c1 c2 post Heq [H1 H2].
    pose proof (collapse_from_no_run false (strip_illegal s)) as Hrun.
    fold (collapse_spaces (strip_illegal s)) in Hrun.
    rewrite Hparts in Hrun.
    apply no_space_run_app in Hrun as [_ Hrun].
    apply no_space_run_app in Hrun as [Hrun _].
    rewrite Heq in Hrun.
    apply no_space_run_app in Hrun as [_ Hrun].
    simpl in Hrun. rewrite H1, H2 in Hrun. discriminate.
  - unfold sanitizeFilename, slice0. apply firstn_le_length.
Qed.

(** A name of C9: the slash is gone, the letters stay. *)
Lemma sanitizeFilename_safe_and_bounded_witness :
  sanitizeFilename (lit "AC/DC") = lit "ACDC"
  /\ ~ In 67%N illegal_chars
  /\ List.length (sanitizeFilename (lit "AC/DC")) <= 200.
Proof.
  destruct (sanitizeFilename_safe_and_bounded (lit "AC/DC")) as (Hsafe & _ & Hlen).
  split; [vm_compute; reflexivity|]. split; [|exact Hlen].
  apply Hsafe. vm_compute. auto.
Defined.

(* ----------------------------------------------------------------- *)
(** ** validateAndExtractId *)

(** C10.  Some URLs pass [isValidYouTubeUrl] and still make
    [validateAndExtractId] throw the could-not-extract error: a watch link
    and a short link without a [list=] parameter are two of them. *)
Theorem valid_url_may_lack_playlist_id :
  (isValidYouTubeUrl url_watch = true
   /\ validateAndExtractId url_watch = inl (no_playlist_id_error url_watch))
  /\ (isValidYouTubeUrl url_short = true
      /\ validateAndExtractId url_short = inl (no_playlist_id_error url_short))
  /\ exists url,
       isValidYouTubeUrl url = true
       /\ validateAndExtractId url = inl (no_playlist_id_error url).
Proof.
  assert (Hw : isValidYouTubeUrl url_watch = true
               /\ validateAndExtractId url_watch = inl (no_playlist_id_error url_watch))
    by (vm_compute; split; reflexivity).
  assert (Hs : isValidYouTubeUrl url_short = true
               /\ validateAndExtractId url_short = inl (no_playlist_id_error url_short))
    by (vm_compute; split; reflexivity).
  split; [exact Hw|]. split; [exact Hs|]. exists url_short. exact Hs.
Qed.

(* ----------------------------------------------------------------- *)
(** ** waitForReconnect in closed form *)

Lemma moved_moved ps1 t1 ps2 t2 w :
  moved ps2 t2 (moved ps1 t1 w) = moved ps2 (t1 ++ t2) w.
Proof. unfold moved; simpl. now rewrite app_assoc. Qed.

Lemma waitLoop_closed fuel logPrefix announced w :
  List.length (net w) < fuel ->
  waitLoop fuel logPrefix announced w =
  match after_online (net w) with
  | Some rest => Ret tt (moved rest (wait_trace logPrefix announced (net w)) w)
  | None => Waiting (moved [] (wait_trace logPrefix announced (net w)) w)
  end.
Proof.
  revert announced w.
  induction fuel as [|fuel IH]; intros announced w Hlen; [lia|].
  destruct w as [ps y f fs t]. simpl in Hlen.
  destruct ps as [|[|] ps].
  - cbn. unfold moved; simpl. now rewrite app_nil_r.
  - destruct announced; cbn [waitLoop];
      unfold bind, isOnline, console_log, ret, emit, emit_in, moved; simpl;
      rewrite <- ?app_assoc; reflexivity.
  - cbn [waitLoop]. unfold bind at 1. cbn [isOnline net].
    cbv beta iota.
    assert (Hstep : forall msg,
      (console_log msg ;; delay 5000 ;; waitLoop fuel logPrefix true)
        {| net := ps; ytdlp := y; ffmpeg := f; files := fs;
           trace := t ++ [Probe false] |}
      = waitLoop fuel logPrefix true
          (moved ps [Probe false; Console c_log msg; Delay 5000]
             {| net := false :: ps; ytdlp := y; ffmpeg := f; files := fs; trace := t |})).
    { intros msg. unfold bind, console_log, delay, emit, emit_in, moved; simpl.
      now rewrite <- !app_assoc. }
    simpl in Hlen.
    destruct announced; cbn [negb]; rewrite Hstep, IH by (simpl; lia);
      cbn [net moved after_online wait_trace];
      destruct (after_online ps); rewrite moved_moved; reflexivity.
Qed.

Lemma waitForReconnect_closed logPrefix w :
  waitForReconnect logPrefix w =
  match after_online (net w) with
  | Some rest => Ret tt (moved rest (wait_trace logPrefix false (net w)) w)
  | None => Waiting (moved [] (wait_trace logPrefix false (net w)) w)
  end.
Proof. unfold waitForReconnect. apply waitLoop_closed. lia. Qed.

(* ----------------------------------------------------------------- *)
(** ** The notifications of waitForReconnect *)

Lemma emitted_app w t ps w0 :
  trace w = trace w0 -> emitted w0 (moved ps t w) = t.
Proof.
  intros H. unfold emitted, moved; simpl. rewrite H.
  rewrite skipn_app, skipn_all, Nat.sub_diag. reflexivity.
Qed.

Lemma wait_events_closed logPrefix w :
  wait_events logPrefix w = wait_trace logPrefix false (net w).
Proof.
  unfold wait_events. rewrite waitForReconnect_closed.
  destruct (after_online (net w)); simpl; now apply emitted_app.
Qed.

Lemma msgs_distinct p :
  msg_no_internet p <> msg_still_offline p
  /\ msg_no_internet p <> msg_reconnected p
  /\ msg_still_offline p <> msg_reconnected p.
Proof.
  unfold msg_no_internet, msg_still_offline, msg_reconnected.
  repeat split; intros H; apply app_inv_head in H; cbv in H; discriminate H.
Qed.

Lemma count_msg_cons_eq m msgs : count_msg m (m :: msgs) = S (count_msg m msgs).
Proof. unfold count_msg. now apply count_occ_cons_eq. Qed.

Lemma count_msg_cons_neq m m' msgs :
  m' <> m -> count_msg m (m' :: msgs) = count_msg m msgs.
Proof. unfold count_msg. now apply count_occ_cons_neq. Qed.

Lemma wait_trace_announced p ps :
  let t := wait_trace p true ps in
  let msgs := console_messages t in
  failed_probes t = leading_offline ps
  /\ count_msg (msg_no_internet p) msgs = 0
  /\ count_msg (msg_still_offline p) msgs = leading_offline ps
  /\ count_msg (msg_reconnected p) msgs = reconnect_count ps
  /\ List.length msgs = leading_offline ps + reconnect_count ps.
Proof.
  destruct (msgs_distinct p) as (D1 & D2 & D3).
  induction ps as [|[|] ps IH]; cbn [wait_trace leading_offline].
  - repeat split; reflexivity.
  - unfold reconnect_count. cbn [after_online leading_offline].
    change (console_messages [Probe true; Console c_log (msg_reconnected p)])
      with [msg_reconnected p].
    rewrite count_msg_cons_eq, !count_msg_cons_neq by congruence.
    repeat split; reflexivity.
  - cbn zeta in IH. destruct IH as (I0 & I1 & I2 & I3 & I4).
    unfold reconnect_count in *. cbn [after_online].
    change (console_messages (Probe false :: Console c_log (msg_still_offline p)
                                :: Delay 5000 :: wait_trace p true ps))
      with (msg_still_offline p :: console_messages (wait_trace p true ps)).
    change (failed_probes (Probe false :: Console c_log (msg_still_offline p)
                             :: Delay 5000 :: wait_trace p true ps))
      with (S (failed_probes (wait_trace p true ps))).
    rewrite count_msg_cons_eq, !count_msg_cons_neq by congruence.
    cbn [List.length]. repeat split; lia.
Qed.

(** C7, as the code has it.  One call of [waitForReconnect] prints the
    no-internet notice at most once and the reconnected notice at most once,
    and besides them one still-offline line for every failed poll after the
    first; it prints nothing else. *)
Theorem waitForReconnect_notices (logPrefix : jsstring) (w : World) :
  let t := wait_events logPrefix w in
  let msgs := console_messages t in
  count_msg (msg_no_internet logPrefix) msgs <= 1
  /\ count_msg (msg_reconnected logPrefix) msgs <= 1
  /\ count_msg (msg_still_offline logPrefix) msgs = pred (failed_probes t)
  /\ List.length msgs
     = count_msg (msg_no_internet logPrefix) msgs
       + count_msg (msg_still_offline logPrefix) msgs
       + count_msg (msg_reconnected logPrefix) msgs.
Proof.
  cbn zeta. rewrite wait_events_closed.
  destruct (msgs_distinct logPrefix) as (D1 & D2 & D3).
  destruct (net w) as [|[|] ps]; cbn [wait_trace].
  - cbn. repeat split; lia.
  - cbn. repeat split; lia.
  - destruct (wait_trace_announced logPrefix ps) as (I0 & I1 & I2 & I3 & I4).
    change (console_messages (Probe false :: Console c_log (msg_no_internet logPrefix)
                                :: Delay 5000 :: wait_trace logPrefix true ps))
      with (msg_no_internet logPrefix
              :: console_messages (wait_trace logPrefix true ps)).
    change (failed_probes (Probe false :: Console c_log (msg_no_internet logPrefix)
                             :: Delay 5000 :: wait_trace logPrefix true ps))
      with (S (failed_probes (wait_trace logPrefix true ps))).
    rewrite count_msg_cons_eq, !count_msg_cons_neq by congruence.
    cbn [List.length pred]. unfold reconnect_count in *.
    destruct (after_online ps); repeat split; lia.
Qed.

(** C7, as the spec has it, fails: with three failed polls before the
    network answers, one call prints four lines, two of them still-offline
    lines. *)
Lemma waitForReconnect_logs_each_failed_poll :
  let w := world0 [false; false; false; true] [] [] in
  console_messages (wait_events [] w)
  = [msg_no_internet []; msg_still_offline []; msg_still_offline []; msg_reconnected []]
  /\ ~ one_notice_per_transition [] w.
Proof.
  split; [vm_compute; reflexivity|].
  unfold one_notice_per_transition. vm_compute. intros H.
  repeat (apply le_S_n in H). inversion H.
Qed.

(* ----------------------------------------------------------------- *)
(** ** The retry loop, run by run *)

Section JobRuns.

Variable path_join : jsstring -> jsstring -> jsstring.
Variable theSong : Song.
Variable dir : jsstring.
Variable cookies : option jsstring.

Local Abbreviation tmp := (tempAudioPath path_join theSong dir).
Local Abbreviation cmd := (command path_join theSong dir cookies).
Local Abbreviation downloading_event := (Progress (progress_event theSong downloading 0 None)).

Lemma waitForReconnect_no_throw p w e w' : waitForReconnect p w <> Throw e w'.
Proof. rewrite waitForReconnect_closed. destruct (after_online (net w)); discriminate. Qed.

Lemma unlink_if_exists_ret path w :
  exists w', unlink_if_exists path w = Ret tt w'
             /\ net w' = net w /\ ytdlp w' = ytdlp w /\ ffmpeg w' = ffmpeg w
             /\ trace w' = trace w ++ cleanup_events path w.
Proof.
  unfold unlink_if_exists, bind, existsSync, unlinkSync, ret, cleanup_events.
  destruct (existsb (jsstring_eqb path) (files w)); eexists; split;
    try reflexivity; simpl; repeat split; rewrite ?app_nil_r; reflexivity.
Qed.

Lemma fetch_attempts_run fuel attempt w :
  attempt <= maxRetries -> attempt + fuel = S maxRetries ->
  attempt_run path_join theSong dir cookies attempt w
    (fetch_attempts path_join theSong dir cookies fuel attempt w).
Proof.
  revert attempt w. induction fuel as [|fuel IH]; intros attempt w Hle Hsum; [lia|].
  cbn [fetch_attempts].
  destruct (maxRetries <? attempt) eqn:Hlt; [apply Nat.ltb_lt in Hlt; lia|].
  unfold bind at 1.
  destruct (waitForReconnect [] w) as [[] w1|e w1|w1] eqn:Hw.
  2:{ now apply waitForReconnect_no_throw in Hw. }
  2:{ now apply run_offline. }
  unfold bind at 1. unfold onProgress at 1. unfold emit at 1. cbv beta iota.
  unfold bind at 1. unfold try_catch at 1. unfold bind at 1.
  destruct (execSync cmd tmp (emit_in downloading_event w1)) as [[] w2|e w2|w2] eqn:Hx.
  - unfold ret. eapply run_fetched; eassumption.
  - unfold on_fetch_error. unfold bind at 1.
    destruct (unlink_if_exists_ret tmp w2) as (w3 & Hu & _).
    rewrite Hu.
    change (isNetworkError (message_of e) && (attempt <? maxRetries))
      with (retryable attempt e).
    destruct (retryable attempt e) eqn:Hr.
    + unfold bind at 1. unfold console_log at 1. unfold emit at 1. cbv beta iota.
      unfold bind at 1.
      change (lit "(" ++ num_to_string attempt ++ lit "/" ++ num_to_string maxRetries
              ++ lit ") ") with (retry_prefix attempt).
      change (Console c_log (retry_prefix attempt
               ++ lit "Network issue detected. Pausing until internet returns..."))
        with (network_issue attempt).
      destruct (waitForReconnect (retry_prefix attempt)
                  (emit_in (network_issue attempt) w3)) as [[] w4|e4 w4|w4] eqn:Hw2.
      * unfold ret at 1. cbv beta iota.
        eapply run_retry; try eassumption.
        apply IH; [|lia].
        unfold retryable in Hr. apply andb_true_iff in Hr as [_ Hr].
        apply Nat.ltb_lt in Hr. lia.
      * now apply waitForReconnect_no_throw in Hw2.
      * eapply run_retry_offline; eassumption.
    + unfold throw. eapply run_fatal; eassumption.
  - eapply run_stalled; eassumption.
Qed.

End JobRuns.

(* ----------------------------------------------------------------- *)
(** ** What each primitive does to the world *)

Lemma waitForReconnect_ret p w w1 :
  waitForReconnect p w = Ret tt w1 ->
  after_online (net w) = Some (net w1)
  /\ ytdlp w1 = ytdlp w /\ ffmpeg w1 = ffmpeg w
  /\ trace w1 = trace w ++ wait_trace p false (net w).
Proof.
  rewrite waitForReconnect_closed.
  destruct (after_online (net w)); intros H; inversion H; subst. simpl. auto.
Qed.

Lemma waitForReconnect_waiting p w w1 :
  waitForReconnect p w = Waiting w1 ->
  after_online (net w) = None
  /\ ytdlp w1 = ytdlp w /\ ffmpeg w1 = ffmpeg w
  /\ trace w1 = trace w ++ wait_trace p false (net w).
Proof.
  rewrite waitForReconnect_closed.
  destruct (after_online (net w)); intros H; inversion H; subst. simpl. auto.
Qed.

Lemma execSync_ret c target w w2 :
  execSync c target w = Ret tt w2 ->
  ytdlp w = Fetched :: ytdlp w2
  /\ net w2 = net w /\ ffmpeg w2 = ffmpeg w
  /\ trace w2 = trace w ++ [ExecSync c].
Proof.
  unfold execSync. destruct (ytdlp w) as [|[|e partial] ys] eqn:Hy;
    intros H; inversion H; subst; simpl. auto.
Qed.

Lemma execSync_throw c target w e w2 :
  execSync c target w = Throw e w2 ->
  (exists partial, ytdlp w = FetchFailed e partial :: ytdlp w2)
  /\ net w2 = net w /\ ffmpeg w2 = ffmpeg w
  /\ trace w2 = trace w ++ [ExecSync c].
Proof.
  unfold execSync. destruct (ytdlp w) as [|[|e' partial] ys] eqn:Hy;
    intros H; inversion H; subst.
  destruct partial; simpl; eauto.
Qed.

Lemma execSync_waiting c target w w2 :
  execSync c target w = Waiting w2 ->
  ytdlp w = [] /\ ytdlp w2 = []
  /\ net w2 = net w /\ ffmpeg w2 = ffmpeg w
  /\ trace w2 = trace w ++ [ExecSync c].
Proof.
  unfold execSync. destruct (ytdlp w) as [|[|e' partial] ys] eqn:Hy;
    intros H; inversion H; subst; simpl. auto.
Qed.

Lemma ffmpeg_save_cases input output w :
  match ffmpeg_save input output w with
  | Ret _ w2 => ffmpeg w = Transcoded :: ffmpeg w2
  | Throw e w2 => ffmpeg w = TranscodeFailed e :: ffmpeg w2
  | Waiting w2 => ffmpeg w = []
  end
  /\ net (world_of (ffmpeg_save input output w)) = net w
  /\ ytdlp (world_of (ffmpeg_save input output w)) = ytdlp w
  /\ trace (world_of (ffmpeg_save input output w)) = trace w ++ [Ffmpeg input output].
Proof.
  unfold ffmpeg_save. destruct (ffmpeg w) as [|[|e] fs]; simpl; auto.
Qed.

Lemma unlink_if_exists_eq path w :
  unlink_if_exists path w = Ret tt (world_of (unlink_if_exists path w)).
Proof. destruct (unlink_if_exists_ret path w) as (w' & H & _). now rewrite H. Qed.

Lemma unlink_if_exists_world path w :
  let w' := world_of (unlink_if_exists path w) in
  net w' = net w /\ ytdlp w' = ytdlp w /\ ffmpeg w' = ffmpeg w
  /\ trace w' = trace w ++ cleanup_events path w.
Proof.
  destruct (unlink_if_exists_ret path w) as (w' & H & Hrest). now rewrite H.
Qed.

(* ----------------------------------------------------------------- *)
(** ** The job, run by run *)

Section JobOutcomes.

Variable path_join : jsstring -> jsstring -> jsstring.
Variable theSong : Song.
Variable dir : jsstring.
Variable cookies : option jsstring.

Local Abbreviation tmp := (tempAudioPath path_join theSong dir).
Local Abbreviation out := (outputPath path_join theSong dir).

Lemma on_job_error_ret e w :
  exists w', on_job_error path_join theSong dir e w = Ret (failed_result theSong e) w'
             /\ trace w' = trace w ++ failure_events path_join theSong dir e w.
Proof.
  unfold on_job_error. unfold bind at 1.
  rewrite unlink_if_exists_eq.
  destruct (unlink_if_exists_world tmp w) as (_ & _ & _ & Ht).
  set (w1 := world_of (unlink_if_exists tmp w)) in *.
  eexists. split; [reflexivity|].
  simpl. rewrite Ht. unfold failure_events, failed_event, failure_log.
  now rewrite <- !app_assoc.
Qed.

Lemma downloadSong_run w :
  job_run path_join theSong dir cookies w (downloadSong path_join theSong dir cookies w).
Proof.
  unfold downloadSong, try_catch.
  unfold bind at 1.
  pose proof (@fetch_attempts_run path_join theSong dir cookies maxRetries 1 w) as Hrun.
  specialize (Hrun ltac:(unfold maxRetries; lia) ltac:(unfold maxRetries; lia)).
  destruct (fetch_attempts path_join theSong dir cookies maxRetries 1 w)
    as [[] w1|e w1|w1] eqn:Hf.
  - unfold bind at 1. unfold convert.
    unfold bind at 1. unfold onProgress at 1. unfold emit at 1. cbv beta iota.
    unfold bind at 1.
    change (Progress (progress_event theSong converting 50 None))
      with (converting_event theSong).
    pose proof (ffmpeg_save_cases tmp out (emit_in (converting_event theSong) w1)) as (Hc & _ & _ & Ht).
    destruct (ffmpeg_save tmp out (emit_in (converting_event theSong) w1)) as [[] w2|e w2|w2] eqn:Hs;
      simpl in Hc, Ht.
    + unfold bind at 1. rewrite unlink_if_exists_eq.
      destruct (unlink_if_exists_world tmp w2) as (_ & _ & _ & Hu).
      unfold onProgress, emit, ret. cbv beta iota.
      eapply job_completes; [exact Hrun|exact Hc| |].
      * rewrite Ht, <- app_assoc. reflexivity.
      * simpl. rewrite Hu, <- app_assoc. reflexivity.
    + destruct (on_job_error_ret e w2) as (w3 & -> & Ht3).
      eapply job_fails_in_convert; [exact Hrun|exact Hc| |exact Ht3].
      rewrite Ht, <- app_assoc. reflexivity.
    + eapply job_waits_in_convert; [exact Hrun|exact Hc|].
      rewrite Ht, <- app_assoc. reflexivity.
  - destruct (on_job_error_ret e w1) as (w2 & -> & Ht2).
    eapply job_fails_in_fetch; eassumption.
  - now apply job_waits_in_fetch.
Qed.

End JobOutcomes.

(* ----------------------------------------------------------------- *)
(** ** Reading a trace *)

Lemma fetch_count_app a b : fetch_count (a ++ b) = fetch_count a + fetch_count b.
Proof. unfold fetch_count. now rewrite filter_app, length_app. Qed.

Lemma progress_list_app a b : progress_list (a ++ b) = progress_list a ++ progress_list b.
Proof. unfold progress_list. now rewrite flat_map_app. Qed.

Lemma progress_values_list t : progress_values t = map snd (progress_list t).
Proof.
  induction t as [|e t IH]; [reflexivity|].
  destruct e; simpl; try exact IH. now f_equal.
Qed.

Lemma guard_end_app ok a b : guard_end ok (a ++ b) = guard_end (guard_end ok a) b.
Proof.
  revert ok; induction a as [|e a IH]; intros ok; [reflexivity|].
  destruct e; simpl; auto.
Qed.

Lemma guard_ok_app ok a b :
  guard_ok ok (a ++ b) = guard_ok ok a && guard_ok (guard_end ok a) b.
Proof.
  revert ok; induction a as [|e a IH]; intros ok; [reflexivity|].
  destruct e; simpl; auto. now rewrite IH, andb_assoc.
Qed.

Lemma wait_trace_quietly p a ps :
  fetch_count (wait_trace p a ps) = 0
  /\ progress_list (wait_trace p a ps) = []
  /\ forall ok, guard_ok ok (wait_trace p a ps) = true.
Proof.
  revert a; induction ps as [|[|] ps IH]; intros a; cbn [wait_trace].
  - repeat split.
  - destruct a; repeat split.
  - destruct (IH true) as (I1 & I2 & I3). repeat split; auto.
    intros ok. simpl. apply I3.
Qed.

Lemma wait_trace_online p a ps rest ok :
  after_online ps = Some rest -> guard_end ok (wait_trace p a ps) = true.
Proof.
  revert a ok; induction ps as [|[|] ps IH]; intros a ok H; cbn [wait_trace].
  - discriminate.
  - destruct a; reflexivity.
  - simpl. now apply IH.
Qed.

Lemma cleanup_events_quietly path w :
  fetch_count (cleanup_events path w) = 0
  /\ progress_list (cleanup_events path w) = []
  /\ (forall ok, guard_ok ok (cleanup_events path w) = true)
  /\ (forall ok, guard_end ok (cleanup_events path w) = ok).
Proof.
  unfold cleanup_events. destruct (existsb _ _); repeat split.
Qed.

(** A trace that passes [guard_ok] has, before each fetch, a positive
    connectivity answer with nothing but quiet events in between. *)
Lemma guard_ok_preceded t : forall ok pre c post,
  guard_ok ok t = true ->
  t = pre ++ ExecSync c :: post ->
  (ok = true /\ Forall quiet pre)
  \/ exists pre1 pre2, pre = pre1 ++ Probe true :: pre2 /\ Forall quiet pre2.
Proof.
  induction t as [|e t IH]; intros ok pre c post Hok Heq.
  - destruct pre; discriminate.
  - destruct pre as [|e' pre].
    + simpl in Heq. inversion Heq; subst. simpl in Hok.
      apply andb_true_iff in Hok as [-> _]. left. split; [reflexivity|constructor].
    + simpl in Heq. inversion Heq; subst e' t.
      assert (Hcase : forall ok',
                guard_ok ok' (pre ++ ExecSync c :: post) = true ->
                (ok' = true /\ Forall quiet pre)
                \/ exists pre1 pre2, pre = pre1 ++ Probe true :: pre2 /\ Forall quiet pre2)
        by (intros ok' H'; eapply IH; [exact H'|reflexivity]).
      destruct e; simpl in Hok.
      * destruct (Hcase _ Hok) as [[-> Hq]|(p1 & p2 & -> & Hq)].
        -- right. exists [], pre. split; [reflexivity|exact Hq].
        -- right. exists (Probe online :: p1), p2. split; [reflexivity|exact Hq].
      * destruct (Hcase _ Hok) as [[-> Hq]|(p1 & p2 & -> & Hq)].
        -- left. split; [reflexivity|]. constructor; [exact I|exact Hq].
        -- right. exists (Console s message :: p1), p2. split; [reflexivity|exact Hq].
      * destruct (Hcase _ Hok) as [[-> Hq]|(p1 & p2 & -> & Hq)].
        -- left. split; [reflexivity|]. constructor; [exact I|exact Hq].
        -- right. exists (Delay ms :: p1), p2. split; [reflexivity|exact Hq].
      * destruct (Hcase _ Hok) as [[-> Hq]|(p1 & p2 & -> & Hq)].
        -- left. split; [reflexivity|]. constructor; [exact I|exact Hq].
        -- right. exists (Progress p :: p1), p2. split; [reflexivity|exact Hq].
      * apply andb_true_iff in Hok as [_ Hok].
        destruct (Hcase _ Hok) as [[Hf _]|(p1 & p2 & -> & Hq)]; [discriminate|].
        right. exists (ExecSync command0 :: p1), p2. split; [reflexivity|exact Hq].
      * destruct (Hcase _ Hok) as [[-> Hq]|(p1 & p2 & -> & Hq)].
        -- left. split; [reflexivity|]. constructor; [exact I|exact Hq].
        -- right. exists (Ffmpeg input output :: p1), p2. split; [reflexivity|exact Hq].
      * destruct (Hcase _ Hok) as [[-> Hq]|(p1 & p2 & -> & Hq)].
        -- left. split; [reflexivity|]. constructor; [exact I|exact Hq].
        -- right. exists (Unlink path :: p1), p2. split; [reflexivity|exact Hq].
Qed.

(* ----------------------------------------------------------------- *)
(** ** The trace of the retry loop *)

Section LoopTrace.

Variable path_join : jsstring -> jsstring -> jsstring.
Variable theSong : Song.
Variable dir : jsstring.
Variable cookies : option jsstring.

Local Abbreviation tmp := (tempAudioPath path_join theSong dir).
Local Abbreviation cmd := (command path_join theSong dir cookies).
Local Abbreviation downloading_event := (Progress (progress_event theSong downloading 0 None)).

Lemma unlink_if_exists_inv path w w' :
  unlink_if_exists path w = Ret tt w' ->
  net w' = net w /\ ytdlp w' = ytdlp w /\ ffmpeg w' = ffmpeg w
  /\ trace w' = trace w ++ cleanup_events path w.
Proof.
  intros H. destruct (unlink_if_exists_ret path w) as (w'' & H' & Hrest).
  rewrite H in H'. inversion H'; subst. exact Hrest.
Qed.

Lemma attempt_head_facts ps rest :
  after_online ps = Some rest ->
  fetch_count (attempt_head path_join theSong dir cookies ps) = 1
  /\ progress_list (attempt_head path_join theSong dir cookies ps) = [(downloading, 0%Z)]
  /\ (forall ok, guard_ok ok (attempt_head path_join theSong dir cookies ps) = true)
  /\ (forall ok, guard_end ok (attempt_head path_join theSong dir cookies ps) = false).
Proof.
  intros Hon. unfold attempt_head.
  destruct (wait_trace_quietly [] false ps) as (F & P & G).
  rewrite fetch_count_app, progress_list_app, F, P.
  repeat split; try reflexivity; intros ok.
  - rewrite guard_ok_app, G, (wait_trace_online [] false ps ok Hon). reflexivity.
  - rewrite guard_end_app. reflexivity.
Qed.

Lemma retry_events_facts attempt ps rest w2 w3 :
  after_online ps = Some rest ->
  fetch_count (retry_events path_join theSong dir cookies attempt ps w2 w3) = 1
  /\ progress_list (retry_events path_join theSong dir cookies attempt ps w2 w3) = [(downloading, 0%Z)]
  /\ (forall ok, guard_ok ok (retry_events path_join theSong dir cookies attempt ps w2 w3) = true).
Proof.
  intros Hon. unfold retry_events.
  destruct (attempt_head_facts _ Hon) as (F & P & G & E).
  destruct (cleanup_events_quietly tmp w2) as (F1 & P1 & G1 & E1).
  destruct (wait_trace_quietly (retry_prefix attempt) false (net w3)) as (F2 & P2 & G2).
  change (network_issue attempt :: wait_trace (retry_prefix attempt) false (net w3))
    with ([network_issue attempt] ++ wait_trace (retry_prefix attempt) false (net w3)).
  rewrite !fetch_count_app, !progress_list_app, F, P, F1, P1, F2, P2.
  repeat split; try reflexivity. intros ok.
  rewrite !guard_ok_app, G, G1, G2. reflexivity.
Qed.

Ltac use_prims :=
  repeat match goal with
  | H : waitForReconnect _ _ = Ret tt _ |- _ =>
      apply waitForReconnect_ret in H; destruct H as (? & ? & ? & ?)
  | H : waitForReconnect _ _ = Waiting _ |- _ =>
      apply waitForReconnect_waiting in H; destruct H as (? & ? & ? & ?)
  | H : execSync _ _ _ = Ret tt _ |- _ =>
      apply execSync_ret in H; destruct H as (? & ? & ? & ?)
  | H : execSync _ _ _ = Throw _ _ |- _ =>
      apply execSync_throw in H; destruct H as ((? & ?) & ? & ? & ?)
  | H : execSync _ _ _ = Waiting _ |- _ =>
      apply execSync_waiting in H; destruct H as (? & ? & ? & ? & ?)
  | H : unlink_if_exists _ _ = Ret tt _ |- _ =>
      apply unlink_if_exists_inv in H; destruct H as (? & ? & ? & ?)
  end.

Ltac trace_eq :=
  simpl in *;
  repeat match goal with Ht : trace _ = _ |- _ => rewrite Ht; clear Ht end;
  rewrite <- ?app_assoc; reflexivity.

Lemma attempt_run_trace attempt w o :
  attempt_run path_join theSong dir cookies attempt w o ->
  exists t,
    trace (world_of o) = trace w ++ t
    /\ progress_list t = repeat (downloading, 0%Z) (fetch_count t)
    /\ (forall ok, guard_ok ok t = true)
    /\ ffmpeg (world_of o) = ffmpeg w
    /\ (fetch_count t = 0 -> after_online (net w) = None /\ is_waiting o = true).
Proof.
  induction 1; use_prims; simpl world_of.
  - (* offline *)
    destruct (wait_trace_quietly [] false (net w)) as (F & P & G).
    eexists. split; [eassumption|]. rewrite F, P. repeat split; auto.
  - (* stalled *)
    match goal with Hon : after_online (net w) = Some _ |- _ =>
      destruct (attempt_head_facts _ Hon) as (F & P & G & E) end.
    exists (attempt_head path_join theSong dir cookies (net w)). rewrite F, P.
    split; [unfold attempt_head; trace_eq|].
    repeat split; auto; try discriminate. simpl in *. congruence.
  - (* fetched *)
    match goal with Hon : after_online (net w) = Some _ |- _ =>
      destruct (attempt_head_facts _ Hon) as (F & P & G & E) end.
    exists (attempt_head path_join theSong dir cookies (net w)). rewrite F, P.
    split; [unfold attempt_head; trace_eq|].
    repeat split; auto; try discriminate. simpl in *. congruence.
  - (* fatal *)
    match goal with Hon : after_online (net w) = Some _ |- _ =>
      destruct (attempt_head_facts _ Hon) as (F & P & G & E) end.
    destruct (cleanup_events_quietly tmp w2) as (F1 & P1 & G1 & E1).
    exists (attempt_head path_join theSong dir cookies (net w) ++ cleanup_events tmp w2).
    rewrite fetch_count_app, progress_list_app, F, P, F1, P1.
    split; [unfold attempt_head; trace_eq|].
    repeat split; auto; try discriminate.
    + intros ok. now rewrite guard_ok_app, G, G1.
    + simpl in *. congruence.
  - (* retry, then offline *)
    match goal with Hon : after_online (net w) = Some _ |- _ =>
      destruct (retry_events_facts attempt _ w2 w3 Hon) as (F & P & G) end.
    exists (retry_events path_join theSong dir cookies attempt (net w) w2 w3). rewrite F, P.
    split; [unfold retry_events, attempt_head; trace_eq|].
    repeat split; auto; try discriminate. simpl in *. congruence.
  - (* retry *)
    destruct IHattempt_run as (t' & Ht' & P' & G' & Fm' & _).
    match goal with Hon : after_online (net w) = Some _ |- _ =>
      destruct (retry_events_facts attempt _ w2 w3 Hon) as (F & P & G) end.
    exists (retry_events path_join theSong dir cookies attempt (net w) w2 w3 ++ t').
    rewrite fetch_count_app, progress_list_app, F, P, P'.
    split; [rewrite Ht'; unfold retry_events, attempt_head; trace_eq|].
    repeat split; auto; try discriminate.
    + intros ok. now rewrite guard_ok_app, G, G'.
    + simpl in *. congruence.
Qed.

End LoopTrace.

(* ----------------------------------------------------------------- *)
(** ** The trace of a job *)

Section JobTrace.

Variable path_join : jsstring -> jsstring -> jsstring.
Variable theSong : Song.
Variable dir : jsstring.
Variable cookies : option jsstring.

Local Abbreviation tmp := (tempAudioPath path_join theSong dir).
Local Abbreviation out := (outputPath path_join theSong dir).

Lemma failure_events_quietly e w :
  fetch_count (failure_events path_join theSong dir e w) = 0
  /\ progress_list (failure_events path_join theSong dir e w) = [(failed, 0%Z)]
  /\ forall ok, guard_ok ok (failure_events path_join theSong dir e w) = true.
Proof.
  unfold failure_events.
  destruct (cleanup_events_quietly tmp w) as (F & P & G & E).
  rewrite fetch_count_app, progress_list_app, F, P.
  repeat split. intros ok. now rewrite guard_ok_app, G.
Qed.

Lemma job_run_summary w o :
  job_run path_join theSong dir cookies w o ->
  exists o1 tail,
    attempt_run path_join theSong dir cookies 1 w o1
    /\ trace (world_of o) = trace (world_of o1) ++ tail
    /\ fetch_count tail = 0
    /\ (forall ok, guard_ok ok tail = true)
    /\ job_end path_join theSong dir o1 o (progress_list tail).
Proof.
  destruct 1 as [w1 Hrun|e w1 w2 Hrun Ht|w1 w2 Hrun Hf Ht
                 |w1 e w2 w3 Hrun Hf Ht Ht3|w1 w2 w3 Hrun Hf Ht Ht3].
  - exists (Waiting w1), []. simpl. rewrite app_nil_r.
    repeat split; auto. constructor.
  - destruct (failure_events_quietly e w1) as (F & P & G).
    exists (Throw e w1), (failure_events path_join theSong dir e w1).
    simpl. rewrite P. repeat split; auto. constructor.
  - exists (Ret tt w1), [converting_event theSong; Ffmpeg tmp out].
    simpl. repeat split; auto. now constructor.
  - destruct (failure_events_quietly e w2) as (F & P & G).
    exists (Ret tt w1),
      ([converting_event theSong; Ffmpeg tmp out]
       ++ failure_events path_join theSong dir e w2).
    rewrite fetch_count_app, progress_list_app, F, P.
    simpl world_of. rewrite Ht3, Ht, <- app_assoc.
    repeat split; auto;
      try solve [intros ok; rewrite guard_ok_app; simpl; apply G].
    simpl. econstructor; eassumption.
  - destruct (cleanup_events_quietly tmp w2) as (F & P & G & E).
    exists (Ret tt w1),
      ([converting_event theSong; Ffmpeg tmp out]
       ++ cleanup_events tmp w2 ++ [completed_event theSong]).
    rewrite !fetch_count_app, !progress_list_app, F, P.
    simpl world_of. rewrite Ht3, Ht, <- !app_assoc.
    repeat split; auto;
      try solve [intros ok; rewrite !guard_ok_app, G; reflexivity].
    simpl. econstructor; eassumption.
Qed.

Lemma emitted_unique w w' t : trace w' = trace w ++ t -> emitted w w' = t.
Proof.
  intros H. unfold emitted. rewrite H, skipn_app, skipn_all, Nat.sub_diag.
  reflexivity.
Qed.

(** What every run of [downloadSong] looks like from outside: the events
    of the loop, then those of the conversion or of the failure. *)
Lemma downloadSong_summary w :
  let o := downloadSong path_join theSong dir cookies w in
  exists o1 t1 tail,
    attempt_run path_join theSong dir cookies 1 w o1
    /\ emitted w (world_of o1) = t1
    /\ emitted w (world_of o) = t1 ++ tail
    /\ progress_list t1 = repeat (downloading, 0%Z) (fetch_count t1)
    /\ (forall ok, guard_ok ok (t1 ++ tail) = true)
    /\ fetch_count (t1 ++ tail) = fetch_count t1
    /\ ffmpeg (world_of o1) = ffmpeg w
    /\ (fetch_count t1 = 0 -> after_online (net w) = None /\ is_waiting o1 = true)
    /\ job_end path_join theSong dir o1 o (progress_list tail).
Proof.
  intros o.
  destruct (job_run_summary (downloadSong_run path_join theSong dir cookies w))
    as (o1 & tail & Hrun & Ht & F & G & Hend).
  destruct (attempt_run_trace Hrun) as (t1 & Ht1 & P1 & G1 & Fm & Hz).
  exists o1, t1, tail.
  split; [exact Hrun|].
  split; [now apply emitted_unique|].
  split; [apply emitted_unique; unfold o; rewrite Ht, Ht1, <- app_assoc; reflexivity|].
  split; [exact P1|].
  split; [intros ok; now rewrite guard_ok_app, G1, G|].
  split; [rewrite fetch_count_app, F; lia|].
  split; [exact Fm|].
  split; [exact Hz|exact Hend].
Qed.

End JobTrace.

(* ----------------------------------------------------------------- *)
(** ** Connectivity before every fetch *)

Lemma attempt_run_offline pj sg dir cookies attempt w o :
  attempt_run pj sg dir cookies attempt w o ->
  after_online (net w) = None ->
  is_waiting o = true /\ fetch_count (emitted w (world_of o)) = 0.
Proof.
  intros Hrun Hoff.
  destruct Hrun as [w1 Hw| | | | | ];
    try (match goal with H : waitForReconnect _ w = Ret tt _ |- _ =>
           apply waitForReconnect_ret in H; destruct H as (H & _); congruence end).
  apply waitForReconnect_waiting in Hw. destruct Hw as (_ & _ & _ & Ht).
  split; [reflexivity|]. simpl.
  rewrite (@emitted_unique _ _ _ Ht).
  apply wait_trace_quietly.
Qed.

(** C6.  In every run of [downloadSong], each start of the retrieval tool
    comes after a positive answer of the connectivity probe, with no other
    probe and no other fetch in between: the wait has returned before every
    attempt, the first included.  A job started while the network never
    answers waits and starts no fetch. *)
Theorem fetch_preceded_by_connectivity
        (path_join : jsstring -> jsstring -> jsstring)
        (theSong : Song) (dir : jsstring) (cookies : option jsstring) (w : World) :
  let o := downloadSong path_join theSong dir cookies w in
  let t := emitted w (world_of o) in
  (forall pre c post,
      t = pre ++ ExecSync c :: post ->
      exists pre1 pre2, pre = pre1 ++ Probe true :: pre2 /\ Forall quiet pre2)
  /\ (after_online (net w) = None -> is_waiting o = true /\ fetch_count t = 0).
Proof.
  intros o t.
  destruct (downloadSong_summary path_join theSong dir cookies w)
    as (o1 & t1 & tail & Hrun & Ht1 & Ht & P1 & G & Fc & Fm & Hz & Hend).
  fold o in Ht, Hend. fold t in Ht.
  split.
  - intros pre c post Heq.
    assert (Hg : guard_ok false t = true) by (rewrite Ht; apply G).
    destruct (@guard_ok_preceded t false pre c post Hg Heq) as [[Hf _]|H];
      [discriminate|exact H].
  - intros Hoff.
    destruct (attempt_run_offline Hrun Hoff) as (Hw & Hc).
    rewrite Ht, Fc, <- Ht1. split; [|exact Hc].
    destruct Hend; try discriminate. reflexivity.
Qed.

(** A run of C6: offline for two polls, a network error, then success. *)
Lemma fetch_preceded_by_connectivity_witness :
  let w := world0 [false; false; true; true; true]
                  [FetchFailed (ErrorObj (lit "read ECONNRESET")) true; Fetched]
                  [Transcoded] in
  let t := emitted w (world_of (downloadSong join_slash demo_song (lit "out") None w)) in
  fetch_count t = 2
  /\ exists pre c post pre1 pre2,
       t = pre ++ ExecSync c :: post
       /\ pre = pre1 ++ Probe true :: pre2 /\ Forall quiet pre2.
Proof.
  intros w t. split; [vm_compute; reflexivity|].
  pose proof (fetch_preceded_by_connectivity join_slash demo_song (lit "out") None w)
    as [H _].
  fold t in H.
  exists (firstn 9 t), (command join_slash demo_song (lit "out") None), (skipn 10 t).
  destruct (H (firstn 9 t) (command join_slash demo_song (lit "out") None) (skipn 10 t))
    as (pre1 & pre2 & Hpre & Hq).
  - vm_compute. reflexivity.
  - exists pre1, pre2. split; [vm_compute; reflexivity|]. split; assumption.
Defined.

(* ----------------------------------------------------------------- *)
(** ** The progress indicator *)

Lemma nondecreasing_zeros n l :
  match l with [] => True | x :: _ => (0 <= x)%Z end ->
  nondecreasing (repeat 0%Z n ++ l) = nondecreasing l.
Proof.
  intros Hl. induction n as [|n IH]; [reflexivity|].
  simpl repeat. simpl app.
  destruct (repeat 0%Z n ++ l) as [|y rest] eqn:E.
  - destruct n; simpl in E; [subst l; reflexivity|discriminate].
  - assert (Hy : (0 <= y)%Z).
    { destruct n; simpl in E.
      - subst l. exact Hl.
      - inversion E. lia. }
    change (nondecreasing (0%Z :: y :: rest))
      with ((0 <=? y)%Z && nondecreasing (y :: rest)).
    rewrite IH. apply Z.leb_le in Hy. now rewrite Hy.
Qed.

Lemma progress_shape_facts n tail :
  let pl := repeat (downloading, 0%Z) n ++ tail in
  map snd pl = repeat 0%Z n ++ map snd tail
  /\ filter (fun sp => negb (status_eqb (fst sp) failed)) pl
     = repeat (downloading, 0%Z) n
       ++ filter (fun sp => negb (status_eqb (fst sp) failed)) tail
  /\ (forall st, st <> downloading ->
        existsb (fun sp => status_eqb (fst sp) st) pl
        = existsb (fun sp => status_eqb (fst sp) st) tail)
  /\ (Forall (fun sp => snd sp = indicator (fst sp)) tail ->
      Forall (fun sp => snd sp = indicator (fst sp)) pl).
Proof.
  cbn zeta. induction n as [|n (I1 & I2 & I3 & I4)]; [simpl; auto|].
  simpl repeat. simpl app. cbn [map filter fst snd status_eqb negb existsb].
  rewrite I1, I2. repeat split.
  - intros st Hst. rewrite (I3 st Hst). destruct st; try reflexivity. congruence.
  - intros Ht. constructor; [reflexivity|auto].
Qed.

Lemma job_progress_shape pj sg dir cookies w :
  let o := downloadSong pj sg dir cookies w in
  let t := emitted w (world_of o) in
  exists n tail,
    progress_list t = repeat (downloading, 0%Z) n ++ tail
    /\ (tail = []
        \/ tail = [(failed, 0%Z)]
        \/ tail = [(converting, 50%Z)]
        \/ tail = [(converting, 50%Z); (failed, 0%Z)]
        \/ tail = [(converting, 50%Z); (completed, 100%Z)]).
Proof.
  intros o t.
  destruct (downloadSong_summary pj sg dir cookies w)
    as (o1 & t1 & tail & Hrun & Ht1 & Ht & P1 & G & Fc & Fm & Hz & Hend).
  fold o in Ht, Hend. fold t in Ht.
  exists (fetch_count t1), (progress_list tail).
  split; [rewrite Ht, progress_list_app, P1; reflexivity|].
  destruct Hend; auto 6.
Qed.

(** C5, as the code has it.  Each progress event carries the indicator of
    its status (0 downloading, 50 converting, 100 completed, 0 failed); the
    indicators of the events before the [failed] one never decrease; and the
    whole sequence is non-decreasing exactly in the runs that do not fail
    after the conversion has started. *)
Theorem progress_nondecreasing_before_failure
        (path_join : jsstring -> jsstring -> jsstring)
        (theSong : Song) (dir : jsstring) (cookies : option jsstring) (w : World) :
  let t := emitted w (world_of (downloadSong path_join theSong dir cookies w)) in
  Forall (fun sp => snd sp = indicator (fst sp)) (progress_list t)
  /\ nondecreasing (progress_before_failure t) = true
  /\ nondecreasing (job_progress path_join theSong dir cookies w)
     = negb (has_status converting t && has_status failed t).
Proof.
  intros t.
  destruct (job_progress_shape path_join theSong dir cookies w)
    as (n & tail & Hpl & Htail).
  fold t in Hpl.
  destruct (progress_shape_facts n tail) as (M & F & E & I).
  unfold job_progress, progress_before_failure, has_status. fold t.
  rewrite progress_values_list, Hpl, M, F.
  rewrite (E converting), (E failed) by discriminate.
  split; [|split].
  - apply I.
    destruct Htail as [->|[->|[->|[->| ->]]]]; repeat constructor.
  - destruct Htail as [->|[->|[->|[->| ->]]]]; cbn [filter fst snd status_eqb negb];
      rewrite (proj1 (progress_shape_facts n _));
      cbn [map snd]; rewrite nondecreasing_zeros; cbn; auto; lia.
  - destruct Htail as [->|[->|[->|[->| ->]]]]; cbn [map snd];
      rewrite nondecreasing_zeros; cbn; auto; lia.
Qed.

(** C5, as the spec has it, fails: when the conversion fails after a
    successful fetch the indicators are 0, 50, 0. *)
Lemma progress_drops_when_conversion_fails :
  let w := world0 [true] [Fetched]
                  [TranscodeFailed (ErrorObj (lit "ffmpeg exited with code 1"))] in
  job_progress join_slash demo_song (lit "out") None w = [0; 50; 0]%Z
  /\ nondecreasing (job_progress join_slash demo_song (lit "out") None w) = false
  /\ option_map success
       (result_of (downloadSong join_slash demo_song (lit "out") None w)) = Some false.
Proof. vm_compute. repeat split. Qed.

(* ----------------------------------------------------------------- *)
(** ** The retry policy *)

Lemma after_online_some ps rest :
  after_online ps = Some rest -> online_count ps = S (online_count rest).
Proof.
  induction ps as [|[|] ps IH]; simpl; intros H.
  - discriminate.
  - inversion H; subst. reflexivity.
  - now apply IH.
Qed.

Lemma after_online_none ps : after_online ps = None -> online_count ps = 0.
Proof.
  induction ps as [|[|] ps IH]; simpl; intros H; auto. discriminate.
Qed.

Lemma retryable_lt attempt e : retryable attempt e = true -> attempt < maxRetries.
Proof.
  unfold retryable. intros H. apply andb_true_iff in H as [_ H].
  now apply Nat.ltb_lt.
Qed.

Section LoopPolicy.

Variable path_join : jsstring -> jsstring -> jsstring.
Variable theSong : Song.
Variable dir : jsstring.
Variable cookies : option jsstring.

Local Abbreviation tmp := (tempAudioPath path_join theSong dir).

Ltac trace_eq :=
  simpl in *;
  repeat match goal with Ht : trace _ = _ |- _ => rewrite Ht; clear Ht end;
  rewrite <- ?app_assoc; reflexivity.

Lemma attempt_run_policy attempt w o :
  attempt_run path_join theSong dir cookies attempt w o ->
  let n := fetch_count (emitted w (world_of o)) in
  (forall j e partial,
      nth_error (ytdlp w) j = Some (FetchFailed e partial) -> j < n ->
      (S j < n -> retryable (attempt + j) e = true)
      /\ (retryable (attempt + j) e = false -> n = S j /\ exists w', o = Throw e w')
      /\ (retryable (attempt + j) e = true ->
          2 * j + 3 <= online_count (net w) -> S j < n))
  /\ (forall e w', o = Throw e w' ->
        exists partial, nth_error (ytdlp w) (pred n) = Some (FetchFailed e partial))
  /\ (attempt <= maxRetries ->
      2 * (maxRetries - attempt) + 1 <= online_count (net w) ->
      S maxRetries - attempt <= List.length (ytdlp w) ->
      is_waiting o = false)
  /\ (attempt <= maxRetries -> n <= S maxRetries - attempt).
Proof.
  induction 1 as [attempt w w1 Hw
                 |attempt w w1 w2 Hw Hx
                 |attempt w w1 w2 Hw Hx
                 |attempt w w1 e w2 w3 Hw Hx Hu Hr
                 |attempt w w1 e w2 w3 w4 Hw Hx Hu Hr Hw2
                 |attempt w w1 e w2 w3 w4 o Hw Hx Hu Hr Hw2 Hrun IH]; cbn zeta.
  - (* offline *)
    apply waitForReconnect_waiting in Hw. destruct Hw as (Hoff & _ & _ & Ht).
    simpl world_of. rewrite (@emitted_unique _ _ _ Ht).
    rewrite (proj1 (wait_trace_quietly [] false (net w))).
    apply after_online_none in Hoff.
    split; [intros; lia|]. split; [discriminate|]. split; intros; lia.
  - (* stalled *)
    apply waitForReconnect_ret in Hw. destruct Hw as (Hon & Hy1 & _ & Ht1).
    apply execSync_waiting in Hx. destruct Hx as (Hy & _ & _ & _ & Ht2).
    simpl in Hy. rewrite Hy1 in Hy.
    assert (Ht : trace w2 = trace w ++ attempt_head path_join theSong dir cookies (net w))
      by (unfold attempt_head; trace_eq).
    simpl world_of. rewrite (@emitted_unique _ _ _ Ht).
    rewrite (proj1 (attempt_head_facts path_join theSong dir cookies _ Hon)).
    split; [intros j e partial Hnth; rewrite Hy in Hnth; destruct j; discriminate|].
    split; [discriminate|]. split; [|intros; lia].
    intros Hle _ Hlen. rewrite Hy in Hlen. cbn [List.length] in Hlen. lia.
  - (* fetched *)
    apply waitForReconnect_ret in Hw. destruct Hw as (Hon & Hy1 & _ & Ht1).
    apply execSync_ret in Hx. destruct Hx as (Hy & _ & _ & Ht2).
    simpl in Hy. rewrite Hy1 in Hy.
    assert (Ht : trace w2 = trace w ++ attempt_head path_join theSong dir cookies (net w))
      by (unfold attempt_head; trace_eq).
    simpl world_of. rewrite (@emitted_unique _ _ _ Ht).
    rewrite (proj1 (attempt_head_facts path_join theSong dir cookies _ Hon)).
    split; [|split; [discriminate|split; [reflexivity|intros; lia]]].
    intros j e partial Hnth Hj. assert (j = 0) by lia. subst j.
    rewrite Hy in Hnth. discriminate.
  - (* fatal *)
    apply waitForReconnect_ret in Hw. destruct Hw as (Hon & Hy1 & _ & Ht1).
    apply execSync_throw in Hx. destruct Hx as ((partial0 & Hy) & _ & _ & Ht2).
    apply unlink_if_exists_inv in Hu. destruct Hu as (_ & _ & _ & Ht3).
    simpl in Hy. rewrite Hy1 in Hy.
    assert (Ht : trace w3 = trace w ++ attempt_head path_join theSong dir cookies (net w)
                               ++ cleanup_events tmp w2)
      by (unfold attempt_head; trace_eq).
    simpl world_of. rewrite (@emitted_unique _ _ _ Ht).
    rewrite fetch_count_app,
      (proj1 (attempt_head_facts path_join theSong dir cookies _ Hon)),
      (proj1 (cleanup_events_quietly tmp w2)).
    split; [|split; [|split]].
    + intros j e0 partial Hnth Hj. assert (j = 0) by lia. subst j.
      rewrite Hy in Hnth. inversion Hnth; subst e0 partial.
      replace (attempt + 0) with attempt by lia.
      split; [lia|]. split; [intros _; split; [reflexivity|eauto]|congruence].
    + intros e0 w' Heq. inversion Heq; subst e0 w'. rewrite Hy. simpl. eauto.
    + reflexivity.
    + intros; lia.
  - (* retry, then offline *)
    apply waitForReconnect_ret in Hw. destruct Hw as (Hon & Hy1 & _ & Ht1).
    apply execSync_throw in Hx. destruct Hx as ((partial0 & Hy) & Hn2 & _ & Ht2).
    apply unlink_if_exists_inv in Hu. destruct Hu as (Hn3 & _ & _ & Ht3).
    apply waitForReconnect_waiting in Hw2. destruct Hw2 as (Hoff & _ & _ & Ht4).
    simpl in Hy, Hn2, Hoff. rewrite Hy1 in Hy.
    assert (Ht : trace w4 = trace w ++ retry_events path_join theSong dir cookies
                                         attempt (net w) w2 w3)
      by (unfold retry_events, attempt_head; trace_eq).
    simpl world_of. rewrite (@emitted_unique _ _ _ Ht).
    rewrite (proj1 (retry_events_facts path_join theSong dir cookies attempt _ w2 w3 Hon)).
    apply after_online_some in Hon. apply after_online_none in Hoff.
    rewrite Hn3, Hn2 in Hoff.
    split; [|split; [|split]].
    + intros j e0 partial Hnth Hj. assert (j = 0) by lia. subst j.
      rewrite Hy in Hnth. inversion Hnth; subst e0 partial.
      replace (attempt + 0) with attempt by lia.
      split; [lia|]. split; [congruence|]. intros _ Hc. lia.
    + discriminate.
    + intros Hle Hc _. apply retryable_lt in Hr. lia.
    + intros; lia.
  - (* retry *)
    destruct IH as (IHp & IHt & IHw & IHn).
    destruct (attempt_run_trace Hrun) as (t' & Ht' & _ & _ & _ & Hz).
    rewrite (@emitted_unique _ _ _ Ht') in IHp, IHt, IHn.
    apply waitForReconnect_ret in Hw. destruct Hw as (Hon & Hy1 & _ & Ht1).
    apply execSync_throw in Hx. destruct Hx as ((partial0 & Hy) & Hn2 & _ & Ht2).
    apply unlink_if_exists_inv in Hu. destruct Hu as (Hn3 & Hy3 & _ & Ht3).
    apply waitForReconnect_ret in Hw2. destruct Hw2 as (Hon2 & Hy4 & _ & Ht4).
    simpl in Hy, Hn2, Hon2, Hy4. rewrite Hy1 in Hy.
    assert (Ht : trace (world_of o)
                 = trace w ++ retry_events path_join theSong dir cookies
                                attempt (net w) w2 w3 ++ t')
      by (rewrite Ht'; unfold retry_events, attempt_head; trace_eq).
    rewrite (@emitted_unique _ _ _ Ht).
    rewrite fetch_count_app,
      (proj1 (retry_events_facts path_join theSong dir cookies attempt _ w2 w3 Hon)).
    apply after_online_some in Hon. apply after_online_some in Hon2.
    rewrite Hn3, Hn2 in Hon2.
    assert (Hy' : ytdlp w = FetchFailed e partial0 :: ytdlp w4) by congruence.
    pose proof (retryable_lt _ _ Hr) as Hlt.
    split; [|split; [|split]].
    + intros j e0 partial Hnth Hj. rewrite Hy' in Hnth.
      destruct j as [|j'].
      * simpl in Hnth. inversion Hnth; subst e0 partial.
        replace (attempt + 0) with attempt by lia.
        split; [auto|]. split; [congruence|].
        intros _ Hc.
        destruct (fetch_count t') eqn:Hn'; [|lia].
        destruct (Hz eq_refl) as (Hoff & _).
        apply after_online_none in Hoff. lia.
      * simpl in Hnth.
        destruct (IHp j' e0 partial Hnth ltac:(simpl in Hj; lia)) as (I1 & I2 & I3).
        replace (attempt + S j') with (S attempt + j') by lia.
        split; [intros; apply I1; simpl in *; lia|].
        split; [intros Hf; destruct (I2 Hf) as (-> & Hth); split; [reflexivity|exact Hth]|].
        intros Hrt Hc. simpl. apply -> Nat.succ_lt_mono. apply I3; [exact Hrt|lia].
    + intros e0 w' Heq. destruct (IHt _ _ Heq) as (partial & Hnth).
      exists partial. rewrite Hy'.
      destruct (fetch_count t') eqn:Hn'.
      * destruct (Hz eq_refl) as (_ & Hwait). subst o. discriminate.
      * simpl in *. exact Hnth.
    + intros Hle Hc Hlen. apply IHw; [lia|lia|].
      rewrite Hy' in Hlen. cbn [List.length] in Hlen. lia.
    + intros Hle. specialize (IHn ltac:(lia)). lia.
Qed.

End LoopPolicy.

(** What the retry loop of a job did, seen from the job. *)
Lemma downloadSong_loop pj sg dir cookies w :
  let o := downloadSong pj sg dir cookies w in
  exists o1 tail,
    attempt_run pj sg dir cookies 1 w o1
    /\ fetch_count (emitted w (world_of o)) = fetch_count (emitted w (world_of o1))
    /\ ffmpeg (world_of o1) = ffmpeg w
    /\ job_end pj sg dir o1 o tail.
Proof.
  intros o.
  destruct (downloadSong_summary pj sg dir cookies w)
    as (o1 & t1 & tail & Hrun & Ht1 & Ht & P1 & G & Fc & Fm & Hz & Hend).
  fold o in Ht, Hend.
  exists o1, (progress_list tail). rewrite Ht, Fc, Ht1. auto.
Qed.

(** C1.  With [n] the number of fetch attempts of a run: [n] is at most 4;
    if the attempt numbered [k+1] is made and fails with [e], then a further
    attempt is made only if [e] is a network error and fewer than 4 attempts
    were made, and is made in that case once the connectivity waits return
    (seven positive probe answers are enough for all of them); otherwise the
    job ends Failed with the text of [e], after exactly [k+1] attempts. *)
Theorem fetch_retry_policy
        (path_join : jsstring -> jsstring -> jsstring)
        (theSong : Song) (dir : jsstring) (cookies : option jsstring) (w : World) :
  let o := downloadSong path_join theSong dir cookies w in
  let n := fetch_count (emitted w (world_of o)) in
  n <= maxRetries
  /\ forall k e partial,
       nth_error (ytdlp w) k = Some (FetchFailed e partial) ->
       k < n ->
       (S k < n -> isNetworkError (message_of e) = true /\ S k < maxRetries)
       /\ (isNetworkError (message_of e) = true -> S k < maxRetries ->
           2 * maxRetries - 1 <= online_count (net w) -> S k < n)
       /\ (isNetworkError (message_of e) = false \/ maxRetries <= S k ->
           n = S k
           /\ exists w', o = Ret {| song := theSong; filePath := [];
                                    success := false;
                                    error := Some (message_of e) |} w').
Proof.
  intros o n.
  destruct (downloadSong_loop path_join theSong dir cookies w)
    as (o1 & tail & Hrun & Hn & Fm & Hend).
  fold o in Hn, Hend. fold n in Hn.
  destruct (attempt_run_policy Hrun) as (Hp & _ & _ & Hb).
  rewrite <- Hn in Hp, Hb.
  split; [specialize (Hb ltac:(unfold maxRetries; lia)); lia|].
  intros k e partial Hnth Hk.
  destruct (Hp k e partial Hnth Hk) as (I1 & I2 & I3).
  change (1 + k) with (S k) in I1, I2, I3.
  unfold retryable in I1, I2, I3.
  split; [|split].
  - intros Hlt. specialize (I1 Hlt). apply andb_true_iff in I1 as [Hnet Hlt'].
    apply Nat.ltb_lt in Hlt'. auto.
  - intros Hnet Hlt Hc. apply I3.
    + rewrite Hnet. apply Nat.ltb_lt in Hlt. now rewrite Hlt.
    + unfold maxRetries in *. lia.
  - intros Hterm.
    assert (Hf : isNetworkError (message_of e) && (S k <? maxRetries) = false).
    { destruct Hterm as [->|Hge]; [reflexivity|].
      apply andb_false_iff. right. apply Nat.ltb_ge. exact Hge. }
    destruct (I2 Hf) as (Hn' & w' & Ho1). split; [exact Hn'|].
    subst o1. inversion Hend; subst. eexists. reflexivity.
Qed.

(** A run of C1: three time-outs are retried, the fourth ends the job. *)
Lemma fetch_retry_policy_witness :
  let timeout := ErrorObj (lit "connect ETIMEDOUT 142.250.1.1:443") in
  let w := world0 (repeat true 7)
                  (repeat (FetchFailed timeout false) 4) [Transcoded] in
  let o := downloadSong join_slash demo_song (lit "out") None w in
  fetch_count (emitted w (world_of o)) = 4
  /\ exists w', o = Ret {| song := demo_song; filePath := []; success := false;
                           error := Some (message_of timeout) |} w'.
Proof.
  intros timeout w o.
  destruct (fetch_retry_policy join_slash demo_song (lit "out") None w) as [_ H].
  destruct (H 3 timeout false) as (_ & _ & Hterm).
  - reflexivity.
  - vm_compute. lia.
  - apply Hterm. right. unfold maxRetries. lia.
Defined.

(** An error that is no network error ends the job at the first attempt,
    although the tool would have succeeded at the second. *)
Example other_error_is_not_retried :
  let unavailable := ErrorObj (lit "ERROR: Video unavailable") in
  let w := world0 [true; true; true] [FetchFailed unavailable false; Fetched] [Transcoded] in
  let o := downloadSong join_slash demo_song (lit "out") None w in
  fetch_count (trace (world_of o)) = 1
  /\ result_of o = Some {| song := demo_song; filePath := []; success := false;
                           error := Some (lit "ERROR: Video unavailable") |}.
Proof. vm_compute. split; reflexivity. Qed.

(* ----------------------------------------------------------------- *)
(** ** The retry loop against the answers of the tool *)

Ltac prims :=
  repeat match goal with
  | H : waitForReconnect _ _ = Ret tt _ |- _ =>
      apply waitForReconnect_ret in H; destruct H as (? & ? & ? & ?)
  | H : waitForReconnect _ _ = Waiting _ |- _ =>
      apply waitForReconnect_waiting in H; destruct H as (? & ? & ? & ?)
  | H : execSync _ _ _ = Ret tt _ |- _ =>
      apply execSync_ret in H; destruct H as (? & ? & ? & ?)
  | H : execSync _ _ _ = Throw _ _ |- _ =>
      apply execSync_throw in H; destruct H as ((? & ?) & ? & ? & ?)
  | H : execSync _ _ _ = Waiting _ |- _ =>
      apply execSync_waiting in H; destruct H as (? & ? & ? & ? & ?)
  | H : unlink_if_exists _ _ = Ret tt _ |- _ =>
      apply unlink_if_exists_inv in H; destruct H as (? & ? & ? & ?)
  | H : after_online _ = Some _ |- _ => apply after_online_some in H
  | H : after_online _ = None |- _ => apply after_online_none in H
  end.

Section JobSuccess.

Variable path_join : jsstring -> jsstring -> jsstring.
Variable theSong : Song.
Variable dir : jsstring.
Variable cookies : option jsstring.

Local Abbreviation tmp := (tempAudioPath path_join theSong dir).
Local Abbreviation out := (outputPath path_join theSong dir).

(** A loop that returns met network failures only, then a fetch that
    returned. *)
Lemma attempt_run_fetched attempt w o :
  attempt_run path_join theSong dir cookies attempt w o ->
  forall w1, o = Ret tt w1 -> attempt <= maxRetries ->
  exists fails t,
    ytdlp w = fails ++ Fetched :: ytdlp w1
    /\ attempt + List.length fails <= maxRetries
    /\ forallb network_failure fails = true
    /\ online_count (net w) = 2 * List.length fails + 1 + online_count (net w1)
    /\ ffmpeg w1 = ffmpeg w
    /\ trace w1 = trace w ++ t /\ fetch_count t = S (List.length fails).
Proof.
  induction 1 as [attempt w w1 Hw
                 |attempt w w1 w2 Hw Hx
                 |attempt w w1 w2 Hw Hx
                 |attempt w w1 e w2 w3 Hw Hx Hu Hr
                 |attempt w w1 e w2 w3 w4 Hw Hx Hu Hr Hw2
                 |attempt w w1 e w2 w3 w4 o Hw Hx Hu Hr Hw2 Hrun IH];
    intros wf Ho Hle; try discriminate Ho.
  - inversion Ho; subst wf. prims. simpl in *.
    exists [], (wait_trace [] false (net w)
                ++ [Progress (progress_event theSong downloading 0 None);
                    ExecSync (command path_join theSong dir cookies)]).
    destruct (wait_trace_quietly [] false (net w)) as (F & _).
    rewrite fetch_count_app, F.
    repeat split; simpl; try congruence; try lia.
    match goal with Ht : trace w2 = _ |- _ => rewrite Ht end.
    match goal with Ht : trace w1 = _ |- _ => rewrite Ht end.
    now rewrite <- !app_assoc.
  - pose proof (retryable_lt _ _ Hr) as Hlt.
    destruct (IH wf Ho ltac:(lia)) as (fails & t & Hy & Hk & Hn & Hc & Hm & Ht & Hf).
    unfold retryable in Hr. apply andb_true_iff in Hr as [Hnet _].
    prims. simpl in *.
    match goal with Hp : ytdlp w1 = FetchFailed e ?p :: _ |- _ =>
      exists (FetchFailed e p :: fails) end.
    destruct (wait_trace_quietly [] false (net w)) as (F1 & _).
    destruct (wait_trace_quietly (retry_prefix attempt) false (net w3)) as (F2 & _).
    destruct (cleanup_events_quietly tmp w2) as (F3 & _).
    assert (Hc1 : online_count (net w3) = online_count (net w1))
      by (f_equal; congruence).
    eexists. repeat split.
    + simpl. congruence.
    + simpl. lia.
    + simpl. now rewrite Hnet, Hn.
    + simpl. lia.
    + congruence.
    + rewrite Ht.
      repeat match goal with Hx : trace _ = _ |- _ => rewrite Hx; clear Hx end.
      simpl. rewrite <- !app_assoc. reflexivity.
    + rewrite !fetch_count_app, F1, F2, F3, Hf. reflexivity.
Qed.

(** A loop that meets network failures only, fewer than it has attempts
    left, and finds the network each time, returns. *)
Lemma attempt_run_recovers attempt w o :
  attempt_run path_join theSong dir cookies attempt w o ->
  forall fails rest,
    ytdlp w = fails ++ Fetched :: rest ->
    attempt + List.length fails <= maxRetries ->
    forallb network_failure fails = true ->
    2 * List.length fails + 1 <= online_count (net w) ->
    exists w1, o = Ret tt w1.
Proof.
  induction 1 as [attempt w w1 Hw
                 |attempt w w1 w2 Hw Hx
                 |attempt w w1 w2 Hw Hx
                 |attempt w w1 e w2 w3 Hw Hx Hu Hr
                 |attempt w w1 e w2 w3 w4 Hw Hx Hu Hr Hw2
                 |attempt w w1 e w2 w3 w4 o Hw Hx Hu Hr Hw2 Hrun IH];
    intros fails rest Hy Hk Hn Hc; prims; simpl in *.
  - lia.
  - destruct fails; simpl in Hy; congruence.
  - eauto.
  - destruct fails as [|f fails]; simpl in Hy; [congruence|].
    assert (f = FetchFailed e x) by congruence. subst f.
    simpl in Hn, Hk. apply andb_true_iff in Hn as [Hnet _].
    unfold retryable in Hr. rewrite Hnet in Hr. simpl in Hr.
    apply Nat.ltb_ge in Hr. lia.
  - assert (Hc1 : online_count (net w3) = online_count (net w1))
      by (f_equal; congruence).
    destruct fails as [|f fails]; simpl in Hy, Hc; [congruence|]. lia.
  - assert (Hc1 : online_count (net w3) = online_count (net w1))
      by (f_equal; congruence).
    destruct fails as [|f fails]; simpl in Hy; [congruence|].
    assert (f = FetchFailed e x) by congruence. subst f.
    simpl in Hn, Hk, Hc. apply andb_true_iff in Hn as [_ Hn].
    apply (IH fails rest); try assumption; try lia. congruence.
Qed.


(** A loop that throws met network failures only, and then the failure it
    throws, which it does not retry. *)
Lemma attempt_run_thrown attempt w o :
  attempt_run path_join theSong dir cookies attempt w o ->
  forall e w1, o = Throw e w1 -> attempt <= maxRetries ->
  exists fails partial rest,
    ytdlp w = fails ++ FetchFailed e partial :: rest
    /\ attempt + List.length fails <= maxRetries
    /\ forallb network_failure fails = true
    /\ retryable (attempt + List.length fails) e = false
    /\ 2 * List.length fails + 1 <= online_count (net w).
Proof.
  induction 1 as [attempt w w1 Hw
                 |attempt w w1 w2 Hw Hx
                 |attempt w w1 w2 Hw Hx
                 |attempt w w1 e w2 w3 Hw Hx Hu Hr
                 |attempt w w1 e w2 w3 w4 Hw Hx Hu Hr Hw2
                 |attempt w w1 e w2 w3 w4 o Hw Hx Hu Hr Hw2 Hrun IH];
    intros e' wf Ho Hle; try discriminate Ho.
  - inversion Ho; subst e' wf. prims. simpl in *.
    match goal with Hp : ytdlp w1 = FetchFailed e ?p :: ?r |- _ =>
      exists [], p, r end.
    rewrite Nat.add_0_r. repeat split; simpl; try congruence; lia.
  - pose proof (retryable_lt _ _ Hr) as Hlt.
    destruct (IH e' wf Ho ltac:(lia)) as (fails & partial & rest & Hy & Hk & Hn & Hf & Hc).
    unfold retryable in Hr. apply andb_true_iff in Hr as [Hnet _].
    prims. simpl in *.
    match goal with Hp : ytdlp w1 = FetchFailed e ?p :: _ |- _ =>
      exists (FetchFailed e p :: fails), partial, rest end.
    assert (Hc1 : online_count (net w3) = online_count (net w1))
      by (f_equal; congruence).
    repeat split.
    + simpl. congruence.
    + simpl. lia.
    + simpl. now rewrite Hnet, Hn.
    + simpl. now rewrite Nat.add_succ_r.
    + simpl. lia.
Qed.

(** A loop that meets network failures only, fewer than it has attempts
    left, finds the network each time, and then meets a failure it does not
    retry, throws that failure. *)
Lemma attempt_run_fails attempt w o :
  attempt_run path_join theSong dir cookies attempt w o ->
  forall fails e partial rest,
    ytdlp w = fails ++ FetchFailed e partial :: rest ->
    attempt + List.length fails <= maxRetries ->
    forallb network_failure fails = true ->
    retryable (attempt + List.length fails) e = false ->
    2 * List.length fails + 1 <= online_count (net w) ->
    exists w1, o = Throw e w1.
Proof.
  induction 1 as [attempt w w1 Hw
                 |attempt w w1 w2 Hw Hx
                 |attempt w w1 w2 Hw Hx
                 |attempt w w1 e w2 w3 Hw Hx Hu Hr
                 |attempt w w1 e w2 w3 w4 Hw Hx Hu Hr Hw2
                 |attempt w w1 e w2 w3 w4 o Hw Hx Hu Hr Hw2 Hrun IH];
    intros fails e' partial rest Hy Hk Hn Hf Hc; prims; simpl in *.
  - lia.
  - destruct fails; simpl in Hy; congruence.
  - destruct fails as [|f fails]; simpl in Hy; [congruence|].
    assert (f = Fetched) by congruence. subst f. discriminate Hn.
  - destruct fails as [|f fails]; simpl in Hy.
    + assert (e' = e) by congruence. subst e'. eauto.
    + assert (f = FetchFailed e x) by congruence. subst f.
      simpl in Hn, Hk. apply andb_true_iff in Hn as [Hnet _].
      unfold retryable in Hr. rewrite Hnet in Hr. simpl in Hr.
      apply Nat.ltb_ge in Hr. lia.
  - assert (Hc1 : online_count (net w3) = online_count (net w1))
      by (f_equal; congruence).
    destruct fails as [|f fails]; simpl in Hy, Hc, Hf.
    + assert (e' = e) by congruence. subst e'.
      rewrite Nat.add_0_r in Hf. congruence.
    + lia.
  - assert (Hc1 : online_count (net w3) = online_count (net w1))
      by (f_equal; congruence).
    destruct fails as [|f fails]; simpl in Hy, Hf.
    + assert (e' = e) by congruence. subst e'.
      rewrite Nat.add_0_r in Hf. congruence.
    + assert (f = FetchFailed e x) by congruence. subst f.
      simpl in Hn, Hk, Hc. apply andb_true_iff in Hn as [_ Hn].
      apply (IH fails e' partial rest); try assumption; try lia; try congruence.
      now rewrite Nat.add_succ_r in Hf.
Qed.

End JobSuccess.

(* ----------------------------------------------------------------- *)
(** ** The job never throws *)

Lemma sanitized_name_nonempty (s ext : jsstring) : ext <> [] -> s ++ ext <> [].
Proof. intros He H. apply app_eq_nil in H as [_ H]. contradiction. Qed.

Lemma retryable_false_iff k e :
  k < maxRetries ->
  (retryable (1 + k) e = false
   <-> isNetworkError (message_of e) = false \/ S k = maxRetries).
Proof.
  intros Hk. unfold retryable. rewrite andb_false_iff, Nat.ltb_ge.
  unfold maxRetries in *. simpl. split; intros [H|H]; auto; right; lia.
Qed.

(** C4.  Whatever the fetch and the conversion do, [downloadSong] never
    throws.  When it returns, the result names the item and is one of two:
    the success, with the output path, which is not empty, and no error, and
    then the fetch and the conversion went through; or the failure, with an
    empty path and the text of the error that ended the job.  Every error
    that ends the fetch (one that is no network error, or the one of the
    fourth attempt) and every error of the conversion gives the failure
    with its text, and a fetch and a conversion that go through give the
    success.  And the job does return once the outside world answers its
    calls: seven positive probe answers, four answers of the retrieval tool
    and one of the transcoder are enough. *)
Theorem downloadSong_never_throws
        (path_join : jsstring -> jsstring -> jsstring)
        (Hjoin : forall d f, f <> [] -> path_join d f <> [])
        (theSong : Song) (dir : jsstring) (cookies : option jsstring) (w : World) :
  let o := downloadSong path_join theSong dir cookies w in
  is_throw o = false
  /\ (forall r w', o = Ret r w' ->
        song r = theSong
        /\ ((success r = true /\ filePath r = outputPath path_join theSong dir
             /\ filePath r <> [] /\ error r = None
             /\ exists fails, recoverable fails w)
            \/ (success r = false /\ filePath r = []
                /\ exists fails e, error r = Some (message_of e)
                                   /\ fails_with fails e w)))
  /\ (forall fails e,
        fails_with fails e w ->
        o = Ret {| song := theSong; filePath := []; success := false;
                   error := Some (message_of e) |} (world_of o))
  /\ (forall fails,
        recoverable fails w ->
        o = Ret {| song := theSong; filePath := outputPath path_join theSong dir;
                   success := true; error := None |} (world_of o))
  /\ (2 * maxRetries - 1 <= online_count (net w) ->
      maxRetries <= List.length (ytdlp w) ->
      1 <= List.length (ffmpeg w) ->
      exists r w', o = Ret r w').
Proof.
  intros o.
  pose proof (downloadSong_run path_join theSong dir cookies w) as Hrun.
  fold o in Hrun.
  destruct (downloadSong_loop path_join theSong dir cookies w)
    as (o1 & tail & Hloop & Hn & Fm & Hend).
  fold o in Hn, Hend.
  destruct (attempt_run_policy Hloop) as (_ & _ & Hwait & _).
  split; [|split; [|split; [|split]]].
  - destruct Hend; reflexivity.
  - intros r w' Ho. rewrite Ho in Hrun.
    inversion Hrun as [w1 H1 Hq|e w1 w2 H1 Ht2 Hq|w1 w2 H1 Hf Ht2 Hq
                      |w1 e w2 w3 H1 Hf Ht2 Ht3 Hq|w1 w2 w3 H1 Hf Ht2 Ht3 Hq];
      subst; simpl; (split; [reflexivity|]).
    + right. repeat split.
      destruct (attempt_run_thrown H1 eq_refl ltac:(unfold maxRetries; lia))
        as (fails & partial & rest & Hy & Hk & Hnet & Hr & Hc).
      assert (Hlt : List.length fails < maxRetries) by lia.
      exists fails, e. split; [reflexivity|].
      split; [exact Hlt|]. split; [exact Hnet|]. split; [exact Hc|].
      left. split; [eauto|]. now apply retryable_false_iff.
    + right. repeat split.
      destruct (attempt_run_fetched H1 eq_refl ltac:(unfold maxRetries; lia))
        as (fails & t & Hy & Hk & Hnet & Hc & Hm & _).
      exists fails, e. split; [reflexivity|].
      split; [lia|]. split; [exact Hnet|]. split; [lia|].
      right. split; [eauto|]. rewrite <- Hm, Hf. reflexivity.
    + left. repeat split.
      * apply Hjoin. apply sanitized_name_nonempty. discriminate.
      * destruct (attempt_run_fetched H1 eq_refl ltac:(unfold maxRetries; lia))
          as (fails & t & Hy & Hk & Hnet & Hc & Hm & _).
        exists fails. split; [eauto|]. split; [lia|]. split; [exact Hnet|].
        split; [lia|]. rewrite <- Hm, Hf. reflexivity.
  - intros fails e (Hk & Hnet & Hc & [((partial & rest & Hy) & Hr)|((rest & Hy) & Hm)]).
    + assert (Hthrow : forall o1',
                attempt_run path_join theSong dir cookies 1 w o1' ->
                exists w1, o1' = Throw e w1).
      { intros o1' H1.
        apply (attempt_run_fails H1 fails e partial rest Hy); auto; try lia.
        now apply retryable_false_iff. }
      inversion Hrun as [w1 H1 Hq|e' w1 w2 H1 Ht2 Hq|w1 w2 H1 Hf Ht2 Hq
                        |w1 e' w2 w3 H1 Hf Ht2 Ht3 Hq|w1 w2 w3 H1 Hf Ht2 Ht3 Hq];
        destruct (Hthrow _ H1) as (wl & Hl); try discriminate Hl.
      inversion Hl; subst. reflexivity.
    + assert (Hret : forall o1',
                attempt_run path_join theSong dir cookies 1 w o1' ->
                exists w1, o1' = Ret tt w1 /\ ffmpeg w1 = ffmpeg w).
      { intros o1' H1.
        destruct (attempt_run_recovers H1 fails rest Hy ltac:(lia) Hnet Hc) as (w1 & ->).
        destruct (attempt_run_fetched H1 eq_refl ltac:(unfold maxRetries; lia))
          as (_ & _ & _ & _ & _ & _ & Hm' & _).
        eauto. }
      inversion Hrun as [w1 H1 Hq|e' w1 w2 H1 Ht2 Hq|w1 w2 H1 Hf Ht2 Hq
                        |w1 e' w2 w3 H1 Hf Ht2 Ht3 Hq|w1 w2 w3 H1 Hf Ht2 Ht3 Hq];
        destruct (Hret _ H1) as (wl & Hl & Hml);
        try discriminate Hl; inversion Hl; subst wl;
        rewrite Hml in Hf; rewrite Hf in Hm; try discriminate Hm.
      inversion Hm; subst. reflexivity.
  - intros fails ((rest & Hy) & Hk & Hnet & Hc & Hm).
    assert (Hret : forall o1',
              attempt_run path_join theSong dir cookies 1 w o1' ->
              exists w1, o1' = Ret tt w1 /\ ffmpeg w1 = ffmpeg w).
    { intros o1' H1.
      destruct (attempt_run_recovers H1 fails rest Hy ltac:(lia) Hnet Hc) as (w1 & ->).
      destruct (attempt_run_fetched H1 eq_refl ltac:(unfold maxRetries; lia))
        as (_ & _ & _ & _ & _ & _ & Hm' & _).
      eauto. }
    inversion Hrun as [w1 H1 Hq|e' w1 w2 H1 Ht2 Hq|w1 w2 H1 Hf Ht2 Hq
                      |w1 e' w2 w3 H1 Hf Ht2 Ht3 Hq|w1 w2 w3 H1 Hf Ht2 Ht3 Hq];
      destruct (Hret _ H1) as (wl & Hl & Hml);
      try discriminate Hl; inversion Hl; subst wl;
      rewrite Hml in Hf; rewrite Hf in Hm; try discriminate Hm.
    reflexivity.
  - intros Hc Hy Hf.
    assert (Hnw : is_waiting o1 = false).
    { apply Hwait; unfold maxRetries in *; lia. }
    destruct Hend; try discriminate; eauto.
    simpl in Fm. rewrite <- Fm in Hf.
    match goal with H : ffmpeg _ = [] |- _ => rewrite H in Hf end.
    simpl in Hf. lia.
Qed.

Lemma join_slash_nonempty d f : f <> [] -> join_slash d f <> [].
Proof.
  intros _ H. unfold join_slash in H.
  apply app_eq_nil in H as [_ H]. discriminate H.
Qed.

(** A run of C4: the tool fails with an error that is no network error, and
    the job returns the failure with its text. *)
Lemma downloadSong_never_throws_witness :
  let unavailable := ErrorObj (lit "ERROR: Video unavailable") in
  let w := world0 (repeat true 7) (repeat (FetchFailed unavailable true) 4)
                  [Transcoded] in
  let o := downloadSong join_slash demo_song (lit "out") None w in
  is_throw o = false
  /\ o = Ret {| song := demo_song; filePath := []; success := false;
                error := Some (lit "ERROR: Video unavailable") |} (world_of o).
Proof.
  intros unavailable w o.
  destruct (downloadSong_never_throws join_slash join_slash_nonempty
              demo_song (lit "out") None w) as (Hno & _ & Hfail & _).
  split; [exact Hno|].
  apply (Hfail [] unavailable).
  split; [unfold maxRetries; simpl; lia|]. split; [reflexivity|].
  split; [vm_compute; lia|].
  left. split; [exists true, (repeat (FetchFailed unavailable true) 3); reflexivity|].
  left. vm_compute. reflexivity.
Defined.

(* ----------------------------------------------------------------- *)
(** ** Numbers against counts *)

Lemma js_lt_nat_Num k q :
  js_lt (number_of_nat k) (Num q) = true <-> (inject_Z (Z.of_nat k) < q)%Q.
Proof.
  unfold number_of_nat, number_of_Z, js_lt. rewrite negb_true_iff. split.
  - intros H. apply Qnot_le_lt. intros Hle. apply Qle_bool_iff in Hle. congruence.
  - intros H. destruct (Qle_bool q (inject_Z (Z.of_nat k))) eqn:E; [|reflexivity].
    apply Qle_bool_iff in E. apply Qlt_not_le in H. contradiction.
Qed.

Lemma js_ge_one c :
  js_ge c (number_of_Z 1) = true <-> c = PosInfinity \/ exists q, c = Num q /\ (1 <= q)%Q.
Proof.
  destruct c as [| | |q]; unfold js_ge, js_lt, number_of_Z; cbv beta iota; cbn [negb].
  - split; [discriminate|]. intros [H|(q & H & _)]; discriminate H.
  - split; auto.
  - split; [discriminate|]. intros [H|(q & H & _)]; discriminate H.
  - rewrite negb_involutive, Qle_bool_iff. split.
    + intros H. right. exists q. auto.
    + intros [H|(q' & H & Hq)]; [discriminate H|]. now inversion H; subst.
Qed.

Lemma js_lt_nat_down a b c :
  a <= b -> js_lt (number_of_nat b) c = true -> js_lt (number_of_nat a) c = true.
Proof.
  intros Hab. destruct c as [| | |q]; try (intros H; exact H).
  rewrite !js_lt_nat_Num. intros H.
  eapply Qle_lt_trans; [|exact H]. rewrite <- Zle_Qle. lia.
Qed.

Lemma js_lt_nat_up a b c :
  a <= b -> js_lt (number_of_nat a) c = false -> js_lt (number_of_nat b) c = false.
Proof.
  intros Hab Ha. destruct (js_lt (number_of_nat b) c) eqn:Eb; [|reflexivity].
  rewrite (js_lt_nat_down _ Hab Eb) in Ha. discriminate Ha.
Qed.

Lemma js_ge_one_zero c :
  js_ge c (number_of_Z 1) = true -> js_lt (number_of_nat 0) c = true.
Proof.
  intros H. apply js_ge_one in H as [->|(q & -> & Hq)]; [reflexivity|].
  apply js_lt_nat_Num. eapply Qlt_le_trans; [|exact Hq]. reflexivity.
Qed.

(* ----------------------------------------------------------------- *)
(** ** The queue: slots *)

Lemma tryToStartAnother_slots c s :
  startable c s -> slots_ok c (tryToStartAnother s).
Proof.
  intros (Hc & Hp & Hle & Hq). unfold tryToStartAnother.
  destruct (pq_queue s) as [|job rest] eqn:Eq.
  - unfold slots_ok. repeat split; auto. congruence.
  - rewrite Hp, Hc.
    destruct (js_lt (number_of_nat (List.length (running s))) c) eqn:Elt.
    + unfold slots_ok; simpl. rewrite length_app; simpl.
      repeat split; auto; [lia| |].
      * intros k Hk. destruct (Nat.eq_dec k (List.length (running s))) as [->|Hne];
          [exact Elt|apply Hle; lia].
      * intros Hrest. rewrite Nat.add_1_r. apply Hq.
        destruct rest; [congruence|]. simpl. lia.
    + repeat split; auto.
Qed.

Lemma new_PQueue_slots number_text c q :
  new_PQueue number_text c = inr q ->
  slots_ok c q /\ js_ge c (number_of_Z 1) = true.
Proof.
  unfold new_PQueue. destruct (js_ge c (number_of_Z 1)) eqn:E;
    intros H; inversion H; subst.
  unfold slots_ok; simpl. repeat split; auto; [intros k Hk; lia|congruence].
Qed.

Lemma add_slots c job s : slots_ok c s -> slots_ok c (add job s).
Proof.
  intros (Hc & Hp & Hle & Hq). apply tryToStartAnother_slots.
  unfold startable; simpl. repeat split; auto.
  rewrite length_app; simpl. intros Hlen.
  apply (js_lt_nat_up (a := List.length (running s))); [lia|].
  apply Hq. destruct (pq_queue s); [simpl in Hlen; lia|congruence].
Qed.

Lemma add_all_slots c jobs s : slots_ok c s -> slots_ok c (add_all jobs s).
Proof.
  revert s. induction jobs as [|job jobs IH]; intros s H; [exact H|].
  simpl. apply IH. now apply add_slots.
Qed.

Lemma remove_nth_length {A} (l : list A) i x :
  nth_error l i = Some x -> S (List.length (remove_nth i l)) = List.length l.
Proof.
  revert i; induction l as [|a l IH]; intros [|i] H; simpl in *; try discriminate; auto.
Qed.

Lemma remove_nth_perm {A} (l : list A) i x :
  nth_error l i = Some x -> Permutation l (x :: remove_nth i l).
Proof.
  revert i; induction l as [|a l IH]; intros [|i] H; simpl in *; try discriminate.
  - inversion H; subst. reflexivity.
  - rewrite (IH _ H) at 1. apply perm_swap.
Qed.

(** What the invariant of the slots says in whole numbers: at most [c]
    rounded up, and exactly that many while an item waits; with no limit,
    no item waits. *)
Lemma slots_bound c s :
  js_ge c (number_of_Z 1) = true -> slots_ok c s ->
  match c with
  | Num q =>
      (Z.of_nat (List.length (running s)) <= Qceiling q)%Z
      /\ (pq_queue s <> [] -> Z.of_nat (List.length (running s)) = Qceiling q)
  | _ => pq_queue s = []
  end.
Proof.
  intros Hge (_ & _ & Hle & Hq).
  apply js_ge_one in Hge as [->|(q & -> & Hone)].
  - destruct (pq_queue s); [reflexivity|]. discriminate Hq. discriminate.
  - assert (Hup : (Z.of_nat (List.length (running s)) <= Qceiling q)%Z).
    { destruct (List.length (running s)) as [|m] eqn:En.
      - rewrite Zle_Qle. apply Qle_trans with (y := q); [|apply Qle_ceiling].
        eapply Qle_trans; [|exact Hone]. discriminate.
      - specialize (Hle m ltac:(lia)). apply js_lt_nat_Num in Hle.
        assert (Hm : (Z.of_nat m < Qceiling q)%Z).
        { rewrite Zlt_Qlt. eapply Qlt_le_trans; [exact Hle|apply Qle_ceiling]. }
        lia. }
    split; [exact Hup|]. intros Hne. specialize (Hq Hne).
    assert (Hdown : (Qceiling q <= Z.of_nat (List.length (running s)))%Z).
    { rewrite <- (Qceiling_Z (Z.of_nat (List.length (running s)))).
      apply Qceiling_resp_le. apply Qnot_lt_le. intros Hlt.
      apply js_lt_nat_Num in Hlt. congruence. }
    lia.
Qed.

Section QueueSlots.

Variable number_text : jsnumber -> jsstring.
Variable path_join : jsstring -> jsstring -> jsstring.
Variable env : BatchEnv.
Variable options : DownloadOptions.

(** The state handed to [tryToStartAnother] when the [i]-th running job
    has settled. *)
Lemma finish_shape i s s' :
  finish path_join env options i s = Some s' ->
  exists job freed,
    nth_error (running s) i = Some job
    /\ s' = tryToStartAnother freed
    /\ pq_concurrency freed = pq_concurrency s
    /\ pq_pending freed = pred (pq_pending s)
    /\ pq_queue freed = pq_queue s
    /\ running freed = remove_nth i (running s).
Proof.
  unfold finish. destruct (nth_error (running s) i) as [job|] eqn:E; [|discriminate].
  destruct (run_job path_join env options job) as [r w'|e w'|w'];
    intros H; inversion H; subst; clear H;
    eexists job, _; (split; [reflexivity|]); (split; [reflexivity|]);
    simpl; auto.
Qed.

(** A running job whose function settles leaves the queue. *)
Lemma finish_defined i s job :
  nth_error (running s) i = Some job ->
  is_waiting (run_job path_join env options job) = false ->
  exists s', finish path_join env options i s = Some s'.
Proof.
  intros Hnth Hw. unfold finish. rewrite Hnth.
  destruct (run_job path_join env options job); [eauto|eauto|discriminate Hw].
Qed.

Lemma finish_slots c i s s' :
  slots_ok c s -> finish path_join env options i s = Some s' -> slots_ok c s'.
Proof.
  intros (Hc & Hp & Hle & Hq) Hf.
  destruct (finish_shape _ _ Hf) as (job & freed & Hnth & -> & Fc & Fp & Fq & Fr).
  pose proof (remove_nth_length _ _ Hnth) as Hlen.
  apply tryToStartAnother_slots. unfold startable.
  rewrite Fc, Fp, Fq, Fr. repeat split; auto; try lia.
  - intros k Hk. apply Hle. lia.
  - intros Hq2. rewrite Hlen. apply Hq.
    destruct (pq_queue s); [simpl in Hq2; lia|congruence].
Qed.

(** When a job settles, the head of the queue takes its slot at once. *)
Lemma finish_admits_next c i s s' :
  slots_ok c s -> finish path_join env options i s = Some s' ->
  match pq_queue s with
  | [] => pq_queue s' = [] /\ running s' = remove_nth i (running s)
  | job :: rest =>
      pq_queue s' = rest /\ running s' = remove_nth i (running s) ++ [job]
  end.
Proof.
  intros (Hc & Hp & Hle & Hq) Hf.
  destruct (finish_shape _ _ Hf) as (job & freed & Hnth & -> & Fc & Fp & Fq & Fr).
  pose proof (remove_nth_length _ _ Hnth) as Hlen.
  unfold tryToStartAnother. rewrite Fq.
  destruct (pq_queue s) as [|next rest] eqn:Eq; [split; [exact Fq|exact Fr]|].
  rewrite Fp, Fc, Hp, Hc.
  rewrite (Hle (pred (List.length (running s)))) by lia.
  simpl. rewrite Fr. auto.
Qed.

Lemma steps_slots c s0 s :
  slots_ok c s0 -> steps path_join env options s0 s -> slots_ok c s.
Proof.
  intros H0 Hs. induction Hs as [|s s' s'' _ IH Hstep]; [exact H0|].
  destruct Hstep as [i s1 s2 Hf]. eapply finish_slots; [apply IH; exact H0|exact Hf].
Qed.

Lemma steps_trans s0 s1 s2 :
  steps path_join env options s0 s1 -> steps path_join env options s1 s2 ->
  steps path_join env options s0 s2.
Proof.
  intros H1 H2. induction H2 as [|s s' s'' _ IH Hstep]; [exact H1|].
  eapply steps_more; [apply IH; exact H1|exact Hstep].
Qed.

(** Draining the queue goes through the steps. *)
Lemma drain_steps schedule : forall s,
  steps path_join env options s (drain path_join env options schedule s).
Proof.
  induction schedule as [|i schedule IH]; intros s; simpl; [apply steps_refl|].
  destruct (settled s); [apply steps_refl|].
  destruct (finish path_join env options (i mod List.length (running s)) s)
    as [s'|] eqn:Hf; [|apply IH].
  eapply steps_trans; [|apply IH].
  eapply steps_more; [apply steps_refl|]. econstructor. exact Hf.
Qed.

Lemma start_slots songs s0 :
  start number_text env options songs = inr s0 ->
  slots_ok (effective_concurrency options) s0
  /\ js_ge (effective_concurrency options) (number_of_Z 1) = true.
Proof.
  unfold start.
  destruct (if staging_exists env then None else mkdir_error env); [discriminate|].
  destruct (new_PQueue number_text (effective_concurrency options)) as [e|q] eqn:Eq;
    [discriminate|].
  intros H; inversion H; subst. apply new_PQueue_slots in Eq as [Hq Hc].
  split; [|exact Hc]. now apply add_all_slots.
Qed.

End QueueSlots.

(** C8, as the code has it.  With the concurrency [c] that [downloadSongs]
    uses (the option, or 5 when it is omitted) at least 1: while the items
    are being queued and in every state the batch reaches afterwards, the
    number of running jobs is at most [c] rounded up to a whole number, so
    at most [c] when [c] is whole, and an item waits only while that many
    jobs run; with no limit no item waits.  A running job whose function
    settles does leave the queue, and the head of the queue, if there is
    one, is started in the same step.  The states in which the jobs settle
    one after the other, in any order, are among these states. *)
Theorem running_jobs_bounded
        (number_text : jsnumber -> jsstring)
        (path_join : jsstring -> jsstring -> jsstring)
        (env : BatchEnv) (options : DownloadOptions) (songs : list Song) :
  let c := effective_concurrency options in
  let bounded s :=
    match c with
    | Num q =>
        (Z.of_nat (List.length (running s)) <= Qceiling q)%Z
        /\ (pq_queue s <> [] -> Z.of_nat (List.length (running s)) = Qceiling q)
    | _ => pq_queue s = []
    end
    /\ forall z, c = number_of_Z z -> (Z.of_nat (List.length (running s)) <= z)%Z in
  (concurrency options = None -> c = number_of_Z 5)
  /\ forall s0,
       start number_text env options songs = inr s0 ->
       js_ge c (number_of_Z 1) = true
       /\ (forall k q,
             new_PQueue number_text c = inr q ->
             bounded (add_all (firstn k (index_from 0 songs)) q))
       /\ (forall schedule,
             steps path_join env options s0 (drain path_join env options schedule s0))
       /\ forall s,
            steps path_join env options s0 s ->
            bounded s
            /\ forall i job,
                 nth_error (running s) i = Some job ->
                 is_waiting (run_job path_join env options job) = false ->
                 exists s',
                   finish path_join env options i s = Some s'
                   /\ match pq_queue s with
                      | [] => pq_queue s' = [] /\ running s' = remove_nth i (running s)
                      | next :: rest =>
                          pq_queue s' = rest
                          /\ running s' = remove_nth i (running s) ++ [next]
                      end.
Proof.
  intros c bounded. split.
  - unfold c, effective_concurrency. now intros ->.
  - intros s0 Hstart. destruct (start_slots _ _ _ _ Hstart) as [H0 Hc].
    fold c in H0, Hc.
    assert (Hbound : forall s, slots_ok c s -> bounded s).
    { intros s Hs. unfold bounded. pose proof (slots_bound Hc Hs) as Hb.
      split; [exact Hb|]. intros z Hz. rewrite Hz in Hb.
      unfold number_of_Z in Hb. rewrite Qceiling_Z in Hb. apply Hb. }
    split; [exact Hc|]. split; [|split].
    + intros k q Hq. apply Hbound. apply new_PQueue_slots in Hq as [Hq _].
      now apply add_all_slots.
    + intros schedule. apply drain_steps.
    + intros s Hs. pose proof (steps_slots H0 Hs) as Hinv.
      split; [now apply Hbound|].
      intros i job Hnth Hw.
      destruct (@finish_defined path_join env options _ _ _ Hnth Hw) as (s' & Hf).
      exists s'. split; [exact Hf|]. eapply finish_admits_next; eauto.
Qed.

(** A run of C8: two slots, three items; when the second job settles the
    third item takes its slot. *)
Lemma running_jobs_bounded_witness :
  let options := demo_options (Some (number_of_Z 2)) in
  exists s0 s1,
    start decimal_text demo_env options [demo_song; demo_song; demo_song] = inr s0
    /\ List.length (running s0) = 2
    /\ finish join_slash demo_env options 1 s0 = Some s1
    /\ map job_index (running s1) = [0; 2]
    /\ (Z.of_nat (List.length (running s1)) <= 2)%Z.
Proof.
  intros options.
  pose (job := fun k => {| job_index := k; job_song := demo_song |}).
  pose (s0 := {| pq_concurrency := number_of_Z 2; pq_pending := 2;
                 pq_queue := [job 2]; running := [job 0; job 1];
                 results := []; rejected := None |}).
  assert (Hs0 : start decimal_text demo_env options [demo_song; demo_song; demo_song]
                = inr s0) by (vm_compute; reflexivity).
  destruct (running_jobs_bounded decimal_text join_slash demo_env options
              [demo_song; demo_song; demo_song]) as [_ H].
  destruct (H s0 Hs0) as (_ & _ & _ & Hs).
  destruct (Hs s0 (steps_refl _ _ _ _)) as (_ & Hadm).
  destruct (Hadm 1 (job 1) eq_refl) as (s1 & Hf & Hq & Hr);
    [vm_compute; reflexivity|].
  exists s0, s1. split; [exact Hs0|]. split; [reflexivity|]. split; [exact Hf|].
  split; [rewrite Hr; reflexivity|].
  assert (Hstep : steps join_slash demo_env options s0 s1).
  { eapply steps_more; [apply steps_refl|]. econstructor. exact Hf. }
  destruct (Hs s1 Hstep) as ((_ & Hz) & _).
  apply (Hz 2%Z). reflexivity.
Defined.

(** C8, as the spec has it, fails: with a concurrency of 2.5, which is at
    least 1, three jobs run at once. *)
Lemma fractional_concurrency_is_exceeded :
  js_ge (Num (5 # 2)) (number_of_Z 1) = true
  /\ exists s0,
       start decimal_text demo_env (demo_options (Some (Num (5 # 2))))
             [demo_song; demo_song; demo_song; demo_song] = inr s0
       /\ List.length (running s0) = 3
       /\ ~ within_concurrency (Num (5 # 2)) s0.
Proof.
  split; [reflexivity|].
  eexists. split; [vm_compute; reflexivity|]. split; [reflexivity|].
  unfold within_concurrency. vm_compute. discriminate.
Qed.

(* ----------------------------------------------------------------- *)
(** ** The queue: no item is lost *)

Lemma downloadSong_result pj sg dir cookies w :
  match downloadSong pj sg dir cookies w with
  | Ret r _ => song r = sg
  | Throw _ _ => False
  | Waiting _ => True
  end.
Proof.
  destruct (downloadSong_loop pj sg dir cookies w) as (o1 & tail & _ & _ & _ & Hend).
  destruct Hend; simpl; auto.
Qed.

Lemma tryToStartAnother_accounted s :
  rejected (tryToStartAnother s) = rejected s
  /\ results (tryToStartAnother s) = results s
  /\ Permutation (accounted (tryToStartAnother s)) (accounted s)
  /\ Permutation (running (tryToStartAnother s) ++ pq_queue (tryToStartAnother s))
                 (running s ++ pq_queue s).
Proof.
  unfold tryToStartAnother.
  destruct (pq_queue s) as [|job rest] eqn:Eq;
    [unfold accounted; rewrite ?Eq; repeat split; reflexivity|].
  destruct (js_lt (number_of_nat (pq_pending s)) (pq_concurrency s));
    [|unfold accounted; rewrite ?Eq; repeat split; reflexivity].
  unfold accounted; simpl. rewrite ?Eq. repeat split.
  - rewrite map_app. simpl. rewrite <- app_assoc. reflexivity.
  - rewrite <- app_assoc. reflexivity.
Qed.

Lemma index_from_songs k songs : map job_song (index_from k songs) = songs.
Proof.
  revert k; induction songs as [|sg songs IH]; intros k; simpl; [reflexivity|].
  now rewrite IH.
Qed.

Lemma add_batch_inv done job s :
  batch_inv done s -> batch_inv (done ++ [job]) (add job s).
Proof.
  intros (Hr & Hp & Hin). unfold add.
  match goal with |- batch_inv _ (tryToStartAnother ?q) =>
    destruct (tryToStartAnother_accounted q) as (Tr & _ & Tp & Tq) end.
  unfold batch_inv. rewrite Tr. split; [exact Hr|]. split.
  - rewrite Tp. unfold accounted in *; simpl.
    rewrite !map_app, !app_assoc. simpl.
    apply Permutation_app_tail. rewrite <- app_assoc. exact Hp.
  - intros j Hj. apply (Permutation_in _ Tq) in Hj. simpl in Hj.
    rewrite app_assoc in Hj. apply in_app_or in Hj as [Hj|[->|[]]].
    + apply in_or_app. left. auto.
    + apply in_or_app. right. now left.
Qed.

Lemma add_all_batch_inv jobs : forall done s,
  batch_inv done s -> batch_inv (done ++ jobs) (add_all jobs s).
Proof.
  induction jobs as [|job jobs IH]; intros done s H; simpl.
  - now rewrite app_nil_r.
  - replace (done ++ job :: jobs) with ((done ++ [job]) ++ jobs)
      by (now rewrite <- app_assoc).
    apply IH. now apply add_batch_inv.
Qed.

Lemma new_PQueue_batch_inv number_text c q :
  new_PQueue number_text c = inr q -> batch_inv [] q.
Proof.
  unfold new_PQueue. destruct (js_ge c (number_of_Z 1)); intros H; inversion H; subst.
  unfold batch_inv, accounted; simpl. repeat split; auto.
Qed.

Section QueueAccounts.

Variable path_join : jsstring -> jsstring -> jsstring.
Variable env : BatchEnv.
Variable options : DownloadOptions.

Lemma finish_batch_inv jobs i s s' :
  batch_inv jobs s -> finish path_join env options i s = Some s' ->
  batch_inv jobs s'
  /\ List.length (running s') + List.length (pq_queue s')
     < List.length (running s) + List.length (pq_queue s).
Proof.
  intros (Hr & Hp & Hin) Hf. unfold finish in Hf.
  destruct (nth_error (running s) i) as [job|] eqn:Hnth; [|discriminate].
  pose proof (downloadSong_result path_join (job_song job) (outputDir options)
                (cookiesFile options) (job_world env (job_index job))) as Hres.
  fold (run_job path_join env options job) in Hres.
  destruct (run_job path_join env options job) as [r w'|e w'|w'];
    [|contradiction|discriminate].
  inversion Hf; subst s'; clear Hf.
  match goal with |- batch_inv _ (tryToStartAnother ?q) /\ _ =>
    destruct (tryToStartAnother_accounted q) as (Tr & _ & Tp & Tq) end.
  pose proof (remove_nth_perm _ _ Hnth) as Hperm.
  pose proof (remove_nth_length _ _ Hnth) as Hlen.
  split; [unfold batch_inv; rewrite Tr; split; [exact Hr|split]|].
  - rewrite Tp, <- Hp. unfold accounted; simpl.
    rewrite map_app. simpl. rewrite Hres, <- app_assoc. simpl.
    apply Permutation_app_head.
    change (Permutation
              (map job_song (job :: remove_nth i (running s)) ++ map job_song (pq_queue s))
              (map job_song (running s) ++ map job_song (pq_queue s))).
    apply Permutation_app_tail, Permutation_map. symmetry. exact Hperm.
  - intros j Hj. apply (Permutation_in _ Tq) in Hj. simpl in Hj.
    apply Hin. apply in_app_or in Hj as [Hj|Hj]; apply in_or_app; [left|now right].
    apply (Permutation_in _ (Permutation_sym Hperm)). now right.
  - apply Permutation_length in Tq. rewrite !length_app in Tq. simpl in Tq. lia.
Qed.

Lemma settled_results jobs s rs :
  batch_inv jobs s -> settled s = Some (inr rs) ->
  List.length rs = List.length jobs
  /\ Permutation (map song rs) (map job_song jobs).
Proof.
  intros (Hr & Hp & _) Hs. unfold settled in Hs. rewrite Hr in Hs.
  destruct (pq_queue s) eqn:Eq; [|discriminate].
  destruct (running s) eqn:Er; [|discriminate].
  inversion Hs; subst rs. unfold accounted in Hp. rewrite Eq, Er in Hp.
  simpl in Hp. rewrite app_nil_r in Hp. split; [|exact Hp].
  apply Permutation_length in Hp. now rewrite !length_map in Hp.
Qed.

Lemma drain_batch_inv jobs schedule : forall s,
  batch_inv jobs s -> batch_inv jobs (drain path_join env options schedule s).
Proof.
  induction schedule as [|i schedule IH]; intros s H; simpl; [exact H|].
  destruct (settled s); [exact H|].
  destruct (finish path_join env options (i mod List.length (running s)) s)
    as [s'|] eqn:Hf; [|auto].
  apply IH. eapply finish_batch_inv; eauto.
Qed.

(** Once every job settles, a schedule as long as the number of unsettled
    items drains the queue. *)
Lemma drain_settles c jobs schedule : forall s,
  js_ge c (number_of_Z 1) = true -> slots_ok c s -> batch_inv jobs s ->
  (forall job, In job jobs -> is_waiting (run_job path_join env options job) = false) ->
  List.length (running s) + List.length (pq_queue s) <= List.length schedule ->
  exists rs, settled (drain path_join env options schedule s) = Some (inr rs).
Proof.
  induction schedule as [|i schedule IH]; intros s Hc Hslots Hinv Hall Hlen.
  - simpl in *. destruct Hinv as (Hr & _ & _). unfold settled. rewrite Hr.
    destruct (pq_queue s), (running s); simpl in Hlen; try lia. eauto.
  - simpl. destruct (settled s) as [[e|rs]|] eqn:Hs.
    + destruct Hinv as (Hr & _ & _). unfold settled in Hs. rewrite Hr in Hs.
      destruct (pq_queue s), (running s); discriminate.
    + rewrite Hs. eauto.
    + assert (Hrun : running s <> []).
      { intros Hnil. destruct Hslots as (_ & _ & _ & Hq).
        destruct Hinv as (Hr & _ & _). unfold settled in Hs. rewrite Hr, Hnil in Hs.
        destruct (pq_queue s) eqn:Eq; [discriminate|].
        rewrite Hnil in Hq. simpl in Hq. specialize (Hq ltac:(congruence)).
        rewrite (@js_ge_one_zero c Hc) in Hq. discriminate Hq. }
      assert (Hi : i mod List.length (running s) < List.length (running s)).
      { apply Nat.mod_upper_bound. destruct (running s); [congruence|discriminate]. }
      destruct (nth_error (running s) (i mod List.length (running s))) as [job|] eqn:Hnth;
        [|apply nth_error_None in Hnth; lia].
      assert (Hjob : In job jobs).
      { destruct Hinv as (_ & _ & Hin). apply Hin. apply in_or_app. left.
        eapply nth_error_In; eauto. }
      destruct (finish path_join env options (i mod List.length (running s)) s)
        as [s'|] eqn:Hf.
      * destruct (@finish_batch_inv _ _ _ _ Hinv Hf) as (Hinv' & Hdec).
        apply (IH s' Hc); auto; [eapply finish_slots; eauto|simpl in Hlen; lia].
      * unfold finish in Hf. rewrite Hnth in Hf.
        specialize (Hall job Hjob).
        destruct (run_job path_join env options job); discriminate.
Qed.

End QueueAccounts.

(* ----------------------------------------------------------------- *)
(** ** downloadSongs *)

Lemma index_from_In k songs job :
  In job (index_from k songs) ->
  exists i, nth_error songs i = Some (job_song job) /\ job_index job = k + i.
Proof.
  revert k; induction songs as [|sg songs IH]; intros k H; simpl in H; [contradiction|].
  destruct H as [<-|H].
  - exists 0. simpl. split; [reflexivity|lia].
  - destruct (IH _ H) as (i & Hn & Hi). exists (S i). simpl. split; [exact Hn|lia].
Qed.

Lemma start_batch_inv number_text env options songs s0 :
  start number_text env options songs = inr s0 -> batch_inv (index_from 0 songs) s0.
Proof.
  unfold start.
  destruct (if staging_exists env then None else mkdir_error env); [discriminate|].
  destruct (new_PQueue number_text (effective_concurrency options)) as [e|q] eqn:Eq;
    [discriminate|].
  intros H; inversion H; subst.
  apply (add_all_batch_inv (index_from 0 songs) (done := [])).
  eapply new_PQueue_batch_inv; eauto.
Qed.

Lemma start_ready number_text env options songs :
  staging_ready env -> js_ge (effective_concurrency options) (number_of_Z 1) = true ->
  exists s0, start number_text env options songs = inr s0.
Proof.
  intros Hready Hc. unfold start.
  assert (Hm : (if staging_exists env then None else mkdir_error env) = None).
  { destruct Hready as [-> | ->]; [reflexivity|]. now destruct (staging_exists env). }
  rewrite Hm. unfold new_PQueue. rewrite Hc. eauto.
Qed.

Lemma start_length number_text env options songs s0 :
  start number_text env options songs = inr s0 ->
  List.length (running s0) + List.length (pq_queue s0) <= List.length songs.
Proof.
  intros H. destruct (start_batch_inv _ _ _ _ H) as (_ & Hp & _).
  apply Permutation_length in Hp. unfold accounted in Hp.
  rewrite !length_app, !length_map in Hp.
  rewrite <- (index_from_songs 0 songs), length_map at 1.
  lia.
Qed.

(** C2.  Whenever [downloadSongs] returns, in whatever order the jobs
    settled, it returns exactly one result per item of the batch, each
    carrying its item: the items of the results are the items of the batch,
    each as often as it occurs there.  And it does return, however many jobs
    fail, once the staging directory is there, the concurrency is at least
    1, every job settles, and as many jobs have settled as the batch has
    items. *)
Theorem downloadSongs_one_result_per_item
        (number_text : jsnumber -> jsstring)
        (path_join : jsstring -> jsstring -> jsstring)
        (env : BatchEnv) (options : DownloadOptions) (songs : list Song) :
  (forall schedule rs log,
      downloadSongs number_text path_join env options songs schedule = Returned rs log ->
      List.length rs = List.length songs /\ Permutation (map song rs) songs)
  /\ (staging_ready env ->
      js_ge (effective_concurrency options) (number_of_Z 1) = true ->
      jobs_settle path_join env options songs ->
      forall schedule,
        List.length songs <= List.length schedule ->
        exists rs log,
          downloadSongs number_text path_join env options songs schedule
          = Returned rs log).
Proof.
  split.
  - intros schedule rs log H. unfold downloadSongs in H.
    destruct (start number_text env options songs) as [e|s0] eqn:Hstart; [discriminate|].
    pose proof (start_batch_inv _ _ _ _ Hstart) as Hinv.
    apply (drain_batch_inv path_join env options schedule) in Hinv.
    destruct (settled (drain path_join env options schedule s0)) as [[e|rs']|] eqn:Hs;
      try discriminate.
    inversion H; subst rs'. clear H.
    destruct (settled_results Hinv Hs) as (Hlen & Hperm).
    rewrite index_from_songs in Hperm.
    rewrite <- (index_from_songs 0 songs) at 1. rewrite length_map. auto.
  - intros Hready Hc Hsettle schedule Hlen.
    destruct (start_ready number_text options songs Hready Hc) as (s0 & Hstart).
    unfold downloadSongs. rewrite Hstart.
    destruct (start_slots _ _ _ _ Hstart) as (Hslots & _).
    pose proof (start_batch_inv _ _ _ _ Hstart) as Hinv.
    pose proof (start_length _ _ _ _ Hstart) as Hs0.
    destruct (@drain_settles path_join env options _ (index_from 0 songs) schedule s0
                Hc Hslots Hinv) as (rs & Hrs).
    + intros job Hjob. apply index_from_In in Hjob as (i & Hn & Hi).
      specialize (Hsettle i (job_song job) Hn).
      destruct job as [ji js]. simpl in *. subst ji. exact Hsettle.
    + lia.
    + rewrite Hrs. eauto.
Qed.

(** A run of C2: two of three jobs at a time, the second item failing in
    the conversion and settling first. *)
Lemma downloadSongs_one_result_per_item_witness :
  exists rs log,
    downloadSongs decimal_text join_slash failing_env
                  (demo_options (Some (number_of_Z 2)))
                  [demo_song; demo_song; demo_song] [1; 0; 0] = Returned rs log
    /\ List.length rs = 3
    /\ map success rs = [false; true; true].
Proof.
  destruct (downloadSongs_one_result_per_item decimal_text join_slash failing_env
              (demo_options (Some (number_of_Z 2))) [demo_song; demo_song; demo_song])
    as [Hres Hret].
  destruct (Hret (or_intror eq_refl)) with (schedule := [1; 0; 0]) as (rs & log & H).
  - reflexivity.
  - intros i sg Hn.
    destruct i as [|[|[|i]]]; simpl in Hn; try (destruct i; discriminate Hn);
      inversion Hn; subst sg; vm_compute; reflexivity.
  - simpl. lia.
  - exists rs, log. split; [exact H|].
    split; [apply (Hres _ _ _ H)|].
    vm_compute in H. inversion H. reflexivity.
Defined.

(** Three items, two at a time; the second is fetched at its third attempt:
    every result is a success. *)
Example scenario_retry_then_success :
  (exists log,
      downloadSongs decimal_text join_slash retry_env
                    (demo_options (Some (number_of_Z 2)))
                    [demo_song; demo_song; demo_song] [0; 0; 0]
      = Returned (repeat {| song := demo_song;
                            filePath := lit "out/Artist - Title.mp3";
                            success := true; error := None |} 3) log)
  /\ fetch_count (trace (world_of (run_job join_slash retry_env (demo_options (Some (number_of_Z 2)))
                                            {| job_index := 1; job_song := demo_song |})))
     = 3.
Proof. split; [eexists|]; vm_compute; reflexivity. Qed.

(** Two items, the conversion of the first fails: one failure, one
    success, and the batch goes on. *)
Example scenario_conversion_failure :
  let env := {| staging_exists := true; mkdir_error := None;
                job_world := fun i =>
                  match i with
                  | 0 => world0 [true] [Fetched]
                                [TranscodeFailed (ErrorObj (lit "Invalid data"))]
                  | _ => world0 [true] [Fetched] [Transcoded]
                  end |} in
  exists rs log,
    downloadSongs decimal_text join_slash env (demo_options None)
                  [demo_song; demo_song] [0; 0]
    = Returned rs log
    /\ map success rs = [false; true]
    /\ map error rs = [Some (lit "Invalid data"); None].
Proof. intros env. do 2 eexists. vm_compute. repeat split. Qed.

(* ----------------------------------------------------------------- *)
(** ** The empty batch *)

(** C3, as the code has it.  Called with no item, a staging directory that
    is there and a concurrency of at least 1, [downloadSongs] starts no job
    and returns the empty list of results. *)
Theorem empty_batch_returns_no_result
        (number_text : jsnumber -> jsstring)
        (path_join : jsstring -> jsstring -> jsstring)
        (env : BatchEnv) (options : DownloadOptions) (schedule : list nat) :
  staging_ready env ->
  js_ge (effective_concurrency options) (number_of_Z 1) = true ->
  (exists s0, start number_text env options [] = inr s0
              /\ running s0 = [] /\ pq_queue s0 = [])
  /\ exists log,
       downloadSongs number_text path_join env options [] schedule = Returned [] log.
Proof.
  intros Hready Hc.
  assert (Hm : (if staging_exists env then None else mkdir_error env) = None).
  { destruct Hready as [-> | ->]; [reflexivity|]. now destruct (staging_exists env). }
  split.
  - unfold start. rewrite Hm. unfold new_PQueue. rewrite Hc.
    eexists. split; [reflexivity|]. split; reflexivity.
  - unfold downloadSongs, start. rewrite Hm. unfold new_PQueue. rewrite Hc.
    cbn [index_from add_all fold_left].
    destruct schedule; cbn [drain settled rejected pq_queue running results]; eauto.
Qed.

Lemma empty_batch_returns_no_result_witness :
  exists log,
    downloadSongs decimal_text join_slash demo_env (demo_options None) [] []
    = Returned [] log.
Proof.
  destruct (@empty_batch_returns_no_result decimal_text join_slash demo_env
              (demo_options None) [])
    as (_ & H).
  - left. reflexivity.
  - reflexivity.
  - exact H.
Defined.

(** C3, as the spec has it, fails: the empty batch is a success with an
    empty list of results. *)
Lemma empty_batch_is_not_rejected :
  (exists log, downloadSongs decimal_text join_slash demo_env (demo_options None) [] []
               = Returned [] log)
  /\ ~ empty_batch_rejected decimal_text join_slash demo_env (demo_options None) [].
Proof.
  split.
  - eexists. vm_compute. reflexivity.
  - intros (e & H). vm_compute in H. discriminate H.
Qed.

(* ================================================================= *)
(** * Further properties of the code *)

(* ----------------------------------------------------------------- *)
(** ** sanitizeFilename: the ends of the name, and applying it twice *)

Lemma trim_start_head s : head_not_space (trim_start s) = true.
Proof.
  induction s as [|c s IH]; simpl; [reflexivity|].
  destruct (is_space c) eqn:E; [exact IH|]. simpl. now rewrite E.
Qed.

Lemma trim_start_id s : head_not_space s = true -> trim_start s = s.
Proof.
  destruct s as [|c s]; simpl; [reflexivity|].
  intros H. apply negb_true_iff in H. now rewrite H.
Qed.

Lemma trim_start_snoc l c :
  is_space c = false -> trim_start (l ++ [c]) = trim_start l ++ [c].
Proof.
  intros Hc. induction l as [|d l IH]; simpl.
  - now rewrite Hc.
  - destruct (is_space d); [exact IH|reflexivity].
Qed.

Lemma trim_end_cons c t :
  is_space c = false -> trim_end (c :: t) = c :: trim_end t.
Proof.
  intros Hc. unfold trim_end. simpl rev.
  rewrite trim_start_snoc by exact Hc. rewrite rev_app_distr. reflexivity.
Qed.

Lemma trim_end_head s : head_not_space s = true -> head_not_space (trim_end s) = true.
Proof.
  destruct s as [|c s]; [reflexivity|]. simpl. intros H.
  apply negb_true_iff in H. rewrite trim_end_cons by exact H. simpl. now rewrite H.
Qed.

Lemma trim_end_last s : head_not_space (rev (trim_end s)) = true.
Proof. unfold trim_end. rewrite rev_involutive. apply trim_start_head. Qed.

Lemma trim_end_id s : head_not_space (rev s) = true -> trim_end s = s.
Proof.
  intros H. unfold trim_end. rewrite trim_start_id by exact H. apply rev_involutive.
Qed.

Lemma firstn_head n s : head_not_space s = true -> head_not_space (firstn n s) = true.
Proof. destruct n, s; simpl; auto. Qed.

Lemma firstn_short n (s : jsstring) :
  List.length (firstn n s) < n -> firstn n s = s.
Proof.
  intros H. apply firstn_all2. rewrite length_firstn in H. lia.
Qed.

Lemma collapse_from_chars b s c :
  In c (collapse_from b s) -> c = 32%N \/ is_space c = false.
Proof.
  revert b; induction s as [|d s IH]; intros b; simpl; [tauto|].
  destruct (is_space d) eqn:E.
  - destruct b; simpl; [apply IH|]. intros [H|H]; [now left|eapply IH; eauto].
  - simpl. intros [H|H]; [right; congruence|eapply IH; eauto].
Qed.

Lemma collapse_from_id s : forall b,
  no_space_run s = true ->
  (forall c, In c s -> is_space c = true -> c = 32%N) ->
  (b = true -> head_not_space s = true) ->
  collapse_from b s = s.
Proof.
  induction s as [|c s IH]; intros b Hrun Hsp Hb; [reflexivity|].
  rewrite no_space_run_cons in Hrun. apply andb_true_iff in Hrun as [Hc Hrun].
  cbn [collapse_from]. destruct (is_space c) eqn:E.
  - destruct b.
    + specialize (Hb eq_refl). simpl in Hb. rewrite E in Hb. discriminate.
    + rewrite (Hsp c (or_introl eq_refl) E). f_equal.
      apply IH; [exact Hrun|intros d Hd; apply Hsp; now right|].
      intros _. simpl in Hc. exact Hc.
  - f_equal. apply IH; [exact Hrun|intros d Hd; apply Hsp; now right|discriminate].
Qed.

Lemma collapse_from_length b s :
  List.length (collapse_from b s) <= List.length s.
Proof.
  revert b; induction s as [|c s IH]; intros b; simpl; [lia|].
  destruct (is_space c); [destruct b|]; simpl;
    [specialize (IH true)|specialize (IH true)|specialize (IH false)]; lia.
Qed.

Lemma filter_all {A} (f : A -> bool) l :
  (forall x, In x l -> f x = true) -> filter f l = l.
Proof.
  induction l as [|a l IH]; intros H; simpl; [reflexivity|].
  rewrite (H a (or_introl eq_refl)). f_equal. apply IH. intros x Hx. apply H. now right.
Qed.

(** What C9's proof shows of the characters of a sanitized name, for reuse. *)
Lemma sanitizeFilename_chars s c :
  In c (sanitizeFilename s) ->
  is_illegal c = false /\ (is_space c = true -> c = 32%N).
Proof.
  intros Hc. destruct (sanitizeFilename_parts s) as (pre & post & Hparts).
  assert (Hin : In c (collapse_spaces (strip_illegal s))).
  { rewrite Hparts. apply in_or_app. right. apply in_or_app. now left. }
  split.
  - apply collapse_from_In in Hin as [->|Hin]; [reflexivity|].
    unfold strip_illegal in Hin. apply filter_In in Hin as [_ Hn].
    now apply negb_true_iff in Hn.
  - intros Hs. apply collapse_from_chars in Hin as [H|H]; [exact H|congruence].
Qed.

Lemma sanitizeFilename_run s : no_space_run (sanitizeFilename s) = true.
Proof.
  destruct (sanitizeFilename_parts s) as (pre & post & Hparts).
  pose proof (collapse_from_no_run false (strip_illegal s)) as Hrun.
  fold (collapse_spaces (strip_illegal s)) in Hrun. rewrite Hparts in Hrun.
  apply no_space_run_app in Hrun as [_ Hrun].
  now apply no_space_run_app in Hrun as [Hrun _].
Qed.

Lemma sanitizeFilename_head s : head_not_space (sanitizeFilename s) = true.
Proof.
  unfold sanitizeFilename, slice0, trim.
  apply firstn_head, trim_end_head, trim_start_head.
Qed.

(** X1.  A sanitized name never begins with white space; it does not end
    with white space either unless it was cut at 200 code units; and the
    only white-space character it holds is the plain space. *)
Theorem sanitizeFilename_ends (s : jsstring) :
  (forall c, hd_error (sanitizeFilename s) = Some c -> is_space c = false)
  /\ (List.length (sanitizeFilename s) < 200 ->
      forall c, hd_error (rev (sanitizeFilename s)) = Some c -> is_space c = false)
  /\ (forall c, In c (sanitizeFilename s) -> is_space c = true -> c = 32%N).
Proof.
  split; [|split].
  - intros c Hc. pose proof (sanitizeFilename_head s) as H.
    destruct (sanitizeFilename s); inversion Hc; subst.
    simpl in H. now apply negb_true_iff in H.
  - intros Hlen c Hc. unfold sanitizeFilename, slice0 in *.
    rewrite firstn_short in Hc by exact Hlen. unfold trim in Hc.
    pose proof (trim_end_last (trim_start (collapse_spaces (strip_illegal s)))) as H.
    destruct (rev (trim_end (trim_start (collapse_spaces (strip_illegal s)))));
      inversion Hc; subst.
    simpl in H. now apply negb_true_iff in H.
  - intros c Hc. exact (proj2 (@sanitizeFilename_chars s c Hc)).
Qed.

Lemma sanitizeFilename_ends_witness :
  hd_error (rev (sanitizeFilename (lit " a  b "))) = Some 98%N /\ is_space 98%N = false.
Proof.
  split; [vm_compute; reflexivity|].
  destruct (sanitizeFilename_ends (lit " a  b ")) as (_ & H & _).
  apply H; vm_compute; [lia|reflexivity].
Defined.

(** X2.  Sanitizing a sanitized name only strips a trailing space: it
    changes nothing when the name is shorter than 200 code units, and a
    sanitized name is never longer than the text it was made from. *)
Theorem sanitizeFilename_twice (s : jsstring) :
  sanitizeFilename (sanitizeFilename s) = trim_end (sanitizeFilename s)
  /\ (List.length (sanitizeFilename s) < 200 ->
      sanitizeFilename (sanitizeFilename s) = sanitizeFilename s)
  /\ List.length (sanitizeFilename s) <= List.length s.
Proof.
  assert (Htwice : sanitizeFilename (sanitizeFilename s) = trim_end (sanitizeFilename s)).
  { set (y := sanitizeFilename s).
    assert (Hy : List.length y <= 200) by (apply firstn_le_length).
    unfold sanitizeFilename at 1. fold y.
    assert (H1 : strip_illegal y = y).
    { apply filter_all. intros c Hc. apply negb_true_iff.
      exact (proj1 (@sanitizeFilename_chars s c Hc)). }
    assert (H2 : collapse_spaces y = y).
    { apply collapse_from_id; [apply sanitizeFilename_run| |discriminate].
      intros c Hc. exact (proj2 (@sanitizeFilename_chars s c Hc)). }
    rewrite H1, H2. unfold trim.
    rewrite trim_start_id by apply sanitizeFilename_head. fold y. unfold slice0.
    apply firstn_all2. destruct (trim_end_prefix y) as (post & Hpost).
    rewrite Hpost in Hy at 1. rewrite length_app in Hy. lia. }
  split; [exact Htwice|]. split.
  - intros Hlen. rewrite Htwice. apply trim_end_id.
    unfold sanitizeFilename, slice0 in *. rewrite firstn_short by exact Hlen.
    apply trim_end_last.
  - destruct (sanitizeFilename_parts s) as (pre & post & Hparts).
    pose proof (collapse_from_length false (strip_illegal s)) as Hc.
    fold (collapse_spaces (strip_illegal s)) in Hc.
    rewrite Hparts, !length_app in Hc.
    pose proof (filter_length_le (fun c => negb (is_illegal c)) s) as Hf.
    fold (strip_illegal s) in Hf. lia.
Qed.

Lemma sanitizeFilename_twice_witness :
  sanitizeFilename (sanitizeFilename (lit "a/b  c ")) = sanitizeFilename (lit "a/b  c ").
Proof.
  apply (proj1 (proj2 (sanitizeFilename_twice (lit "a/b  c ")))).
  vm_compute. lia.
Defined.

(* ----------------------------------------------------------------- *)
(** ** What the two pattern lists look for *)

Lemma denotes_Str_ci s : forall p,
  denotes true (Str s) p <-> map canon p = map canon s.
Proof.
  induction s as [|a s IH]; intros p; simpl.
  - split.
    + intros H. inversion H. reflexivity.
    + intros H. destruct p; [constructor|discriminate].
  - split.
    + intros H. apply denotes_seq_inv in H as (s1 & s2 & -> & H1 & H2).
      inversion H1; subst. apply IH in H2. simpl. rewrite H2. f_equal.
      match goal with H : chr_eqb true a _ = true |- _ =>
        simpl in H; apply N.eqb_eq in H; now rewrite H end.
    + intros H. destruct p as [|c p]; [discriminate|]. simpl in H.
      inversion H as [[Hc Hp]]. change (c :: p) with ([c] ++ p). constructor.
      * constructor. simpl. rewrite Hc. apply N.eqb_refl.
      * now apply IH.
Qed.

Lemma denotes_Str_app i a : forall b p,
  denotes i (Str (a ++ b)) p <->
  exists p1 p2, p = p1 ++ p2 /\ denotes i (Str a) p1 /\ denotes i (Str b) p2.
Proof.
  induction a as [|c a IH]; intros b p; simpl.
  - split.
    + intros H. exists [], p. repeat split; [constructor|exact H].
    + intros (p1 & p2 & -> & H1 & H2). inversion H1; subst. exact H2.
  - split.
    + intros H. apply denotes_seq_inv in H as (s1 & s2 & -> & H1 & H2).
      apply IH in H2 as (p1 & p2 & -> & Ha & Hb).
      exists (s1 ++ p1), p2. rewrite app_assoc. repeat split; [|exact Hb].
      now constructor.
    + intros (p1 & p2 & -> & H1 & H2).
      apply denotes_seq_inv in H1 as (s1 & s2 & -> & Hc & Ha).
      rewrite <- app_assoc. constructor; [exact Hc|].
      apply IH. exists s2, p2. auto.
Qed.

Lemma test_Str_ci s text :
  test true (Str s) text = true <-> contains_ci s text.
Proof.
  rewrite test_denotes. unfold contains_ci.
  split; intros (a & p & b & Heq & H); exists a, p, b; (split; [exact Heq|]);
    now apply denotes_Str_ci.
Qed.

(** The optional scheme never decides a match. *)
Lemma denotes_scheme i r p :
  denotes i (Seq re_scheme r) p ->
  exists a p', p = a ++ p' /\ denotes i (Seq (Str (lit "//")) r) p'.
Proof.
  intros H. apply denotes_seq_inv in H as (s1 & s2 & -> & H1 & H2).
  unfold re_scheme in H1.
  apply denotes_seq_inv in H1 as (s0 & sl & -> & _ & Hsl).
  exists s0, (sl ++ s2). rewrite app_assoc. split; [reflexivity|].
  now constructor.
Qed.

Lemma scheme_denotes i r p :
  denotes i (Seq (Str (lit "//")) r) p -> denotes i (Seq re_scheme r) p.
Proof.
  intros H. apply denotes_seq_inv in H as (s1 & s2 & -> & H1 & H2).
  constructor; [|exact H2]. unfold re_scheme.
  change s1 with ([] ++ s1). constructor; [|exact H1].
  unfold Opt. apply d_alt_r. constructor.
Qed.

Lemma denotes_slashes_Str i x p :
  denotes i (Seq (Str (lit "//")) (Str x)) p <-> denotes i (Str (lit "//" ++ x)) p.
Proof.
  rewrite denotes_Str_app. split.
  - intros H. apply denotes_seq_inv in H as (s1 & s2 & -> & H1 & H2). eauto.
  - intros (p1 & p2 & -> & H1 & H2). now constructor.
Qed.

Lemma denotes_slashes_www i x p :
  denotes i (Seq (Str (lit "//")) (Seq re_www (Str x))) p <->
  denotes i (Str (lit "//" ++ x)) p \/ denotes i (Str (lit "//www." ++ x)) p.
Proof.
  split.
  - intros H. apply denotes_seq_inv in H as (s1 & s2 & -> & H1 & H2).
    apply denotes_seq_inv in H2 as (s3 & s4 & -> & H3 & H4).
    unfold re_www, Opt in H3. inversion H3; subst.
    + right. change (lit "//www." ++ x) with (lit "//" ++ (lit "www." ++ x)).
      apply denotes_Str_app. exists s1, (s3 ++ s4). repeat split; [exact H1|].
      apply denotes_Str_app. exists s3, s4. auto.
    + left. match goal with H : denotes i Eps s3 |- _ => inversion H; subst end.
      apply denotes_Str_app. exists s1, s4. auto.
  - intros [H|H].
    + apply denotes_Str_app in H as (p1 & p2 & -> & H1 & H2).
      constructor; [exact H1|]. change p2 with ([] ++ p2). constructor; [|exact H2].
      unfold re_www, Opt. apply d_alt_r. constructor.
    + change (lit "//www." ++ x) with (lit "//" ++ (lit "www." ++ x)) in H.
      apply denotes_Str_app in H as (p1 & p2 & -> & H1 & H2).
      apply denotes_Str_app in H2 as (p3 & p4 & -> & H3 & H4).
      constructor; [exact H1|]. constructor; [|exact H4].
      unfold re_www, Opt. apply d_alt_l. exact H3.
Qed.

Lemma contains_ci_context needle text a b :
  contains_ci needle text -> contains_ci needle (a ++ text ++ b).
Proof.
  intros (a0 & p & b0 & -> & H). exists (a ++ a0), p, (b0 ++ b).
  split; [now rewrite <- !app_assoc|exact H].
Qed.

Lemma test_plain_marker x text :
  test true (Seq re_scheme (Str x)) text = true <-> contains_ci (lit "//" ++ x) text.
Proof.
  rewrite test_denotes. split.
  - intros (a & p & b & -> & H). apply denotes_scheme in H as (a' & p' & -> & H).
    apply denotes_slashes_Str, denotes_Str_ci in H.
    exists (a ++ a'), p', b. split; [now rewrite <- !app_assoc|exact H].
  - intros (a & p & b & -> & H). exists a, p, b. split; [reflexivity|].
    apply scheme_denotes, denotes_slashes_Str, denotes_Str_ci. exact H.
Qed.

Lemma test_www_marker x text :
  test true (Seq re_scheme (Seq re_www (Str x))) text = true <->
  contains_ci (lit "//" ++ x) text \/ contains_ci (lit "//www." ++ x) text.
Proof.
  rewrite test_denotes. split.
  - intros (a & p & b & -> & H). apply denotes_scheme in H as (a' & p' & -> & H).
    apply denotes_slashes_www in H as [H|H]; apply denotes_Str_ci in H;
      [left|right]; exists (a ++ a'), p', b;
      (split; [now rewrite <- !app_assoc|exact H]).
  - intros [(a & p & b & -> & H)|(a & p & b & -> & H)]; exists a, p, b;
      (split; [reflexivity|]); apply scheme_denotes, denotes_slashes_www;
      [left|right]; now apply denotes_Str_ci.
Qed.

Lemma isValidYouTubeUrl_markers url :
  isValidYouTubeUrl url = true <-> exists h, In h url_markers /\ contains_ci h url.
Proof.
  unfold isValidYouTubeUrl, youtubePatterns. cbn [existsb].
  rewrite !orb_true_iff, !test_www_marker, !test_plain_marker.
  unfold url_markers. split.
  - intros [[H|H]|[[H|H]|[H|[H|[H|H]]]]]; try discriminate;
      eexists; (split; [|exact H]); simpl; tauto.
  - intros (h & Hin & H). simpl in Hin.
    destruct Hin as [<-|[<-|[<-|[<-|[<-|[<-|[<-|[]]]]]]]]; tauto.
Qed.

(** X3.  [isValidYouTubeUrl] accepts exactly the texts that hold, anywhere
    and in any letter case, one of seven markers that begin with two
    slashes: the scheme is never looked at, and text before or after a
    valid link never makes it invalid. *)
Theorem isValidYouTubeUrl_is_containment (url : jsstring) :
  (isValidYouTubeUrl url = true <-> exists h, In h url_markers /\ contains_ci h url)
  /\ forall before after,
       isValidYouTubeUrl url = true ->
       isValidYouTubeUrl (before ++ url ++ after) = true.
Proof.
  split; [apply isValidYouTubeUrl_markers|].
  intros before after H. apply isValidYouTubeUrl_markers in H as (h & Hin & H).
  apply isValidYouTubeUrl_markers. exists h. split; [exact Hin|].
  now apply contains_ci_context.
Qed.

Lemma isValidYouTubeUrl_is_containment_witness :
  isValidYouTubeUrl (lit "see FTP://YOUTU.BE/x now") = true.
Proof.
  apply (proj2 (isValidYouTubeUrl_is_containment (lit "ftp://YOUTU.BE/x"))
               (lit "see ") (lit " now")).
  vm_compute. reflexivity.
Defined.

Lemma getaddrinfo_is_included text :
  contains_ci (lit "getaddrinfo ENOTFOUND") text -> contains_ci (lit "ENOTFOUND") text.
Proof.
  intros (a & p & b & -> & H).
  exists (a ++ firstn 12 p), (skipn 12 p), b. split.
  - rewrite <- !app_assoc. f_equal. rewrite app_assoc, firstn_skipn. reflexivity.
  - rewrite <- skipn_map, H. reflexivity.
Qed.

Lemma isNetworkError_markers message :
  isNetworkError message = true <->
  exists h, In h network_markers /\ contains_ci h message.
Proof.
  unfold isNetworkError, NETWORK_ERROR_PATTERNS. cbn [existsb].
  rewrite !orb_true_iff, !test_Str_ci. unfold network_markers. split.
  - intros [H|[H|[H|[H|[H|[H|[H|[H|H]]]]]]]]; try discriminate;
      try (eexists; (split; [|exact H]); simpl; tauto).
    exists (lit "ENOTFOUND"). split; [now left|now apply getaddrinfo_is_included].
  - intros (h & Hin & H). simpl in Hin.
    destruct Hin as [<-|[<-|[<-|[<-|[<-|[<-|[<-|[]]]]]]]]; tauto.
Qed.

(** X4.  [isNetworkError] holds exactly of the messages that hold, anywhere
    and in any letter case, one of seven texts (the pattern with
    [getaddrinfo] adds nothing to the one without); so text around a network
    error never hides it. *)
Theorem isNetworkError_is_containment (message : jsstring) :
  (isNetworkError message = true <->
   exists h, In h network_markers /\ contains_ci h message)
  /\ forall before after,
       isNetworkError message = true ->
       isNetworkError (before ++ message ++ after) = true.
Proof.
  split; [apply isNetworkError_markers|].
  intros before after H. apply isNetworkError_markers in H as (h & Hin & H).
  apply isNetworkError_markers. exists h. split; [exact Hin|].
  now apply contains_ci_context.
Qed.

Lemma isNetworkError_is_containment_witness :
  isNetworkError (lit "Command failed: read econnreset (code 1)") = true.
Proof.
  apply (proj2 (isNetworkError_is_containment (lit "read econnreset"))
               (lit "Command failed: ") (lit " (code 1)")).
  vm_compute. reflexivity.
Defined.

(* ----------------------------------------------------------------- *)
(** ** validateAndExtractId: what it returns *)

Lemma take_while_rest f s :
  exists rest, s = take_while f s ++ rest
               /\ forall c, hd_error rest = Some c -> f c = false.
Proof.
  induction s as [|c s (rest & Hs & Hr)]; simpl.
  - exists []. split; [reflexivity|discriminate].
  - destruct (f c) eqn:E.
    + exists rest. split; [simpl; now f_equal|exact Hr].
    + exists (c :: s). split; [reflexivity|]. simpl. intros d Hd. inversion Hd. now subst.
Qed.

Lemma take_while_all f (s : jsstring) : forallb f s = true -> take_while f s = s.
Proof.
  induction s as [|c s IH]; simpl; [reflexivity|].
  intros H. apply andb_true_iff in H as [-> H]. now rewrite IH.
Qed.

Lemma take_while_forallb f (s : jsstring) : forallb f (take_while f s) = true.
Proof.
  induction s as [|c s IH]; simpl; [reflexivity|].
  destruct (f c) eqn:E; simpl; [now rewrite E|reflexivity].
Qed.

Lemma extractPlaylistId_maximal : forall url id,
  extractPlaylistId url = Some id ->
  id <> [] /\ forallb (in_ranges id_ranges) id = true
  /\ exists a c q,
       url = a ++ c :: lit "list=" ++ id ++ q
       /\ (c = 63%N \/ c = 38%N)
       /\ (forall d, hd_error q = Some d -> in_ranges id_ranges d = false).
Proof.
  induction url as [|c rest IH]; intros id H; [discriminate|].
  cbn [extractPlaylistId] in H.
  assert (Hrec : extractPlaylistId rest = Some id ->
    id <> [] /\ forallb (in_ranges id_ranges) id = true
    /\ exists a c0 q,
         c :: rest = a ++ c0 :: lit "list=" ++ id ++ q
         /\ (c0 = 63%N \/ c0 = 38%N)
         /\ (forall d, hd_error q = Some d -> in_ranges id_ranges d = false)).
  { intros H'. destruct (IH _ H') as (Hne & Hf & a & c' & q & -> & Hc & Hq).
    split; [exact Hne|]. split; [exact Hf|]. exists (c :: a), c', q. auto. }
  destruct (in_ranges [(63, 63); (38, 38)]%N c) eqn:Ec; [|auto].
  destruct (starts_with (lit "list=") rest) as [tail|] eqn:Es; [|auto].
  pose proof (take_while_forallb (in_ranges id_ranges) tail) as Hall.
  destruct (take_while_rest (in_ranges id_ranges) tail) as (q & Htail & Hq).
  destruct (take_while (in_ranges id_ranges) tail) as [|d ids] eqn:Et; [auto|].
  inversion H; subst id. clear H.
  apply starts_with_app in Es.
  split; [discriminate|]. split; [exact Hall|].
  exists [], c, q. split; [simpl; now rewrite Es, Htail|]. split; [|exact Hq].
  unfold in_ranges in Ec. cbn [existsb fst snd] in Ec.
  rewrite orb_false_r in Ec. apply orb_true_iff in Ec.
  destruct Ec as [E|E]; apply andb_true_iff in E as [E1 E2];
    apply N.leb_le in E1; apply N.leb_le in E2; [left|right]; lia.
Qed.

(** X5.  [validateAndExtractId] returns an identifier exactly when the link
    is valid and holds [list=] after a [?] or [&], followed by an identifier
    character; the identifier is then the longest run of such characters
    there, hence never empty.  It throws the invalid-link error exactly for
    the links [isValidYouTubeUrl] refuses, and the could-not-extract error
    for the valid links without such a parameter. *)
Theorem validateAndExtractId_outcome (url : jsstring) :
  match validateAndExtractId url with
  | inr id =>
      isValidYouTubeUrl url = true
      /\ test false re_playlist_id url = true
      /\ id <> [] /\ forallb (in_ranges id_ranges) id = true
      /\ exists a c q,
           url = a ++ c :: lit "list=" ++ id ++ q
           /\ (c = 63%N \/ c = 38%N)
           /\ (forall d, hd_error q = Some d -> in_ranges id_ranges d = false)
  | inl e =>
      (isValidYouTubeUrl url = false
       /\ e = ErrorObj (lit "Invalid YouTube URL: " ++ url))
      \/ (isValidYouTubeUrl url = true
          /\ test false re_playlist_id url = false
          /\ e = ErrorObj (lit "Could not extract playlist ID from URL: " ++ url))
  end.
Proof.
  destruct (extractPlaylistId_pattern url) as (Hiff & _).
  unfold validateAndExtractId.
  destruct (isValidYouTubeUrl url) eqn:Hv; cbn [negb]; [|left; auto].
  destruct (extractPlaylistId url) as [id|] eqn:He.
  - destruct (extractPlaylistId_maximal _ He) as (Hne & Hf & Hex).
    destruct id as [|d id]; [congruence|].
    split; [reflexivity|]. split; [apply Hiff; eauto|]. auto.
  - right. split; [reflexivity|]. split; [|reflexivity].
    destruct (test false re_playlist_id url) eqn:Ht; [|reflexivity].
    destruct (proj2 Hiff eq_refl) as (id & Hid). discriminate Hid.
Qed.

Lemma playlistUrl_valid (playlistId : jsstring) :
  isValidYouTubeUrl (playlistUrl playlistId) = true.
Proof.
  apply isValidYouTubeUrl_markers.
  exists (lit "//www.youtube.com/playlist?list="). split.
  - unfold url_markers. simpl. auto.
  - exists (lit "https:"), (lit "//www.youtube.com/playlist?list="), playlistId.
    split; [reflexivity|]. split; reflexivity.
Qed.

Lemma playlistUrl_extract (playlistId : jsstring) :
  playlistId <> [] -> forallb (in_ranges id_ranges) playlistId = true ->
  extractPlaylistId (playlistUrl playlistId) = Some playlistId.
Proof.
  intros Hne Hf. unfold playlistUrl.
  set (pre := lit "https://www.youtube.com/playlist?list=").
  vm_compute in pre. subst pre.
  cbn. rewrite (take_while_all _ _ Hf).
  destruct playlistId; [congruence|reflexivity].
Qed.

(** X6.  Round trip between the two halves of the fetcher: the link that
    [fetchPlaylistMetadata] makes of an identifier is accepted by
    [validateAndExtractId], which gives that identifier back, for every
    non-empty identifier written with identifier characters. *)
Theorem validateAndExtractId_playlistUrl (playlistId : jsstring) :
  playlistId <> [] ->
  forallb (in_ranges id_ranges) playlistId = true ->
  validateAndExtractId (playlistUrl playlistId) = inr playlistId.
Proof.
  intros Hne Hf. unfold validateAndExtractId.
  rewrite playlistUrl_valid, (playlistUrl_extract Hne Hf). cbn [negb].
  destruct playlistId; [congruence|reflexivity].
Qed.

Lemma validateAndExtractId_playlistUrl_witness :
  validateAndExtractId (playlistUrl (lit "PL_a-9Z")) = inr (lit "PL_a-9Z").
Proof.
  apply validateAndExtractId_playlistUrl; [discriminate|reflexivity].
Defined.

(* ----------------------------------------------------------------- *)
(** ** Assertions along a computation *)

Section Triples.

Context {A B : Type}.

Lemma triple_ret (a : A) (Q : A -> World -> Prop) E W : triple (Q a) (ret a) Q E W.
Proof. intros w H. exact H. Qed.

Lemma triple_throw (e : thrown) (Q : A -> World -> Prop) E W :
  triple (E e) (throw e) Q E W.
Proof. intros w H. exact H. Qed.

Lemma triple_bind P (m : M A) (k : A -> M B) Q1 Q E W :
  triple P m Q1 E W -> (forall a, triple (Q1 a) (k a) Q E W) ->
  triple P (bind m k) Q E W.
Proof.
  intros Hm Hk w Hw. unfold bind. specialize (Hm w Hw).
  destruct (m w) as [a w1|e w1|w1]; [exact (Hk a w1 Hm)|exact Hm|exact Hm].
Qed.

Lemma triple_catch P (m : M A) (h : thrown -> M A) Q E1 E W :
  triple P m Q E1 W -> (forall e, triple (E1 e) (h e) Q E W) ->
  triple P (try_catch m h) Q E W.
Proof.
  intros Hm Hh w Hw. unfold try_catch. specialize (Hm w Hw).
  destruct (m w) as [a w1|e w1|w1]; [exact Hm|exact (Hh e w1 Hm)|exact Hm].
Qed.

Lemma triple_weaken (P P' : World -> Prop) (m : M A) (Q Q' : A -> World -> Prop)
      (E E' : thrown -> World -> Prop) (W W' : World -> Prop) :
  triple P m Q E W ->
  (forall w, P' w -> P w) -> (forall a w, Q a w -> Q' a w) ->
  (forall e w, E e w -> E' e w) -> (forall w, W w -> W' w) ->
  triple P' m Q' E' W'.
Proof.
  intros Hm HP HQ HE HW w Hw. specialize (Hm w (HP w Hw)).
  destruct (m w); auto.
Qed.

(** A computation that leaves the staging directory alone keeps every
    assertion on it. *)
Lemma triple_kept (m : M A) (P : list jsstring -> Prop) :
  (forall w, files (world_of (m w)) = files w) ->
  triple (on_files P) m (fun _ => on_files P) (fun _ => on_files P) (on_files P).
Proof.
  intros H w Hw. specialize (H w). unfold on_files in *.
  destruct (m w); simpl in H; now rewrite H.
Qed.

End Triples.

Lemma emit_kept e w : files (world_of (emit e w)) = files w.
Proof. reflexivity. Qed.

Lemma triple_emit ev (P : list jsstring -> Prop) E W :
  triple (on_files P) (emit ev) (fun _ => on_files P) E W.
Proof. intros w Hw. exact Hw. Qed.

Lemma waitForReconnect_kept p w : files (world_of (waitForReconnect p w)) = files w.
Proof. rewrite waitForReconnect_closed. now destruct (after_online (net w)). Qed.

Lemma jsstring_eqb_eq a b : jsstring_eqb a b = true <-> a = b.
Proof. unfold jsstring_eqb. destruct (list_eq_dec N.eq_dec a b); split; congruence. Qed.

Lemma unlinked_In path fs f :
  In f (filter (fun f => negb (jsstring_eqb path f)) fs) <-> In f fs /\ f <> path.
Proof.
  rewrite filter_In, negb_true_iff. split; intros [H1 H2]; split; auto.
  - intros ->. rewrite (proj2 (jsstring_eqb_eq path path) eq_refl) in H2. discriminate.
  - destruct (jsstring_eqb path f) eqn:E; [|reflexivity].
    apply jsstring_eqb_eq in E. congruence.
Qed.

(** [unlink_if_exists] returns, with the path gone and nothing else
    changed. *)
Lemma unlink_if_exists_triple path (P : list jsstring -> Prop) :
  triple (on_files P) (unlink_if_exists path)
         (fun _ => on_files (fun fs =>
            exists fs0, P fs0 /\ forall f, In f fs <-> In f fs0 /\ f <> path))
         (fun _ => nowhere) nowhere.
Proof.
  intros w Hw. unfold unlink_if_exists, bind, existsSync, unlinkSync, ret.
  destruct (existsb (jsstring_eqb path) (files w)) eqn:Ex; unfold on_files; simpl;
    exists (files w); (split; [exact Hw|]); intros f.
  - apply unlinked_In.
  - split; [|tauto]. intros Hf. split; [exact Hf|]. intros ->.
    assert (Hex : existsb (jsstring_eqb path) (files w) = true)
      by (apply existsb_exists; exists path; split; [exact Hf|now apply jsstring_eqb_eq]).
    congruence.
Qed.

Lemma unchanged_write paths before fs p :
  In p paths -> unchanged_but paths before fs -> unchanged_but paths before (p :: fs).
Proof.
  intros Hp H f Hf. rewrite <- (H f Hf). simpl. split; [|tauto].
  intros [<-|Hin]; [contradiction|exact Hin].
Qed.

Lemma unchanged_unlink paths before fs0 fs p :
  In p paths -> unchanged_but paths before fs0 ->
  (forall f, In f fs <-> In f fs0 /\ f <> p) ->
  unchanged_but paths before fs.
Proof.
  intros Hp H Hfs f Hf. rewrite <- (H f Hf), Hfs. split; [tauto|].
  intros Hin. split; [exact Hin|]. intros ->. contradiction.
Qed.

Section JobFiles.

Variable path_join : jsstring -> jsstring -> jsstring.
Variable theSong : Song.
Variable dir : jsstring.
Variable cookies : option jsstring.
Variable before : list jsstring.

Local Abbreviation tmp := (tempAudioPath path_join theSong dir).
Local Abbreviation out := (outputPath path_join theSong dir).
Local Abbreviation cmd := (command path_join theSong dir cookies).
Local Abbreviation kept := (unchanged_but [tmp; out] before).
Local Abbreviation inv := (on_files kept).
Local Abbreviation clean := (on_files (fun fs => kept fs /\ ~ In tmp fs)).

Lemma execSync_files : triple inv (execSync cmd tmp) (fun _ => inv) (fun _ => inv) inv.
Proof.
  intros w Hw. unfold execSync.
  destruct (ytdlp w) as [|[|e partial] ys]; [exact Hw| |destruct partial; [|exact Hw]];
    unfold on_files; simpl; apply unchanged_write; simpl; auto.
Qed.

Lemma unlink_tmp_files :
  triple inv (unlink_if_exists tmp) (fun _ => clean) (fun _ => nowhere) nowhere.
Proof.
  eapply triple_weaken; [apply (@unlink_if_exists_triple tmp kept)| | | |]; auto.
  intros _ w (fs0 & H0 & Hfs). split.
  - eapply unchanged_unlink; [|exact H0|exact Hfs]. simpl. auto.
  - intros Hin. apply Hfs in Hin. tauto.
Qed.

Lemma on_fetch_error_files attempt e :
  triple inv (on_fetch_error path_join theSong dir attempt e)
         (fun _ => inv) (fun _ => inv) inv.
Proof.
  unfold on_fetch_error.
  eapply triple_bind with (Q1 := fun _ => inv).
  { eapply triple_weaken;
      [apply unlink_tmp_files|intros w H; exact H|intros _ w [H _]; exact H
      |intros _ w []|intros w []]. }
  intros ?.
  destruct (isNetworkError (message_of e) && (attempt <? maxRetries)).
  - eapply triple_bind; [apply (triple_kept _ _ (emit_kept _))|]. intros ?.
    eapply triple_bind; [apply (triple_kept _ _ (waitForReconnect_kept _))|]. intros ?.
    apply (triple_ret Continue (fun _ => inv) (fun _ => inv) inv).
  - apply (triple_throw e (fun (_ : LoopControl) => inv) (fun _ => inv) inv).
Qed.

Lemma fetch_attempts_files fuel : forall attempt,
  triple inv (fetch_attempts path_join theSong dir cookies fuel attempt)
         (fun _ => inv) (fun _ => inv) inv.
Proof.
  induction fuel as [|fuel IH]; intros attempt; cbn [fetch_attempts];
    destruct (maxRetries <? attempt);
    try apply (triple_ret tt (fun _ => inv) (fun _ => inv) inv).
  eapply triple_bind; [apply (triple_kept _ _ (waitForReconnect_kept _))|]. intros ?.
  eapply triple_bind; [apply (triple_kept _ _ (emit_kept _))|]. intros ?.
  eapply triple_bind with (Q1 := fun _ => inv).
  - eapply triple_catch; [|intros e; apply on_fetch_error_files].
    eapply triple_bind; [apply execSync_files|]. intros ?.
    apply (triple_ret Break (fun _ => inv) (fun _ => inv) inv).
  - intros [|]; [apply (triple_ret tt (fun _ => inv) (fun _ => inv) inv)|apply IH].
Qed.

Local Abbreviation done :=
  (on_files (fun fs => kept fs /\ ~ In tmp fs /\ (out <> tmp -> In out fs))).

Lemma ffmpeg_save_files :
  triple inv (ffmpeg_save tmp out)
         (fun _ => on_files (fun fs => kept fs /\ In out fs)) (fun _ => inv) inv.
Proof.
  intros w Hw. unfold ffmpeg_save.
  destruct (ffmpeg w) as [|[|e] fs]; [exact Hw| |exact Hw].
  unfold on_files; simpl. split; [|now left].
  apply unchanged_write; simpl; auto.
Qed.

Lemma convert_files :
  triple inv (convert path_join theSong dir) (fun _ => done) (fun _ => inv) inv.
Proof.
  unfold convert.
  eapply triple_bind; [apply (triple_kept _ _ (emit_kept _))|]. intros ?.
  eapply triple_bind; [apply ffmpeg_save_files|]. intros ?.
  eapply triple_bind with (Q1 := fun _ => done).
  - eapply triple_weaken;
      [apply (@unlink_if_exists_triple tmp (fun fs => kept fs /\ In out fs))| | | |];
      [intros w H; exact H| |intros _ w []|intros w []].
    intros _ w (fs0 & (H0 & Hout) & Hfs). split; [|split].
    + eapply unchanged_unlink; [|exact H0|exact Hfs]. simpl. auto.
    + intros Hin. apply Hfs in Hin. tauto.
    + intros Hne. apply Hfs. auto.
  - intros ?. apply triple_emit.
Qed.

Lemma on_job_error_files e :
  triple inv (on_job_error path_join theSong dir e)
         (fun r w => clean w /\ success r = false) (fun _ => nowhere) nowhere.
Proof.
  unfold on_job_error.
  eapply triple_bind; [apply unlink_tmp_files|]. intros ?.
  intros w Hw. exact (conj Hw eq_refl).
Qed.

Lemma downloadSong_files_triple :
  triple inv (downloadSong path_join theSong dir cookies)
         (fun r w => kept (files w) /\ ~ In tmp (files w)
                     /\ (success r = true -> out <> tmp -> In out (files w)))
         (fun _ => nowhere) inv.
Proof.
  unfold downloadSong.
  eapply triple_catch with (E1 := fun _ => inv).
  - eapply triple_bind; [apply fetch_attempts_files|]. intros ?.
    eapply triple_bind; [apply convert_files|]. intros ?.
    intros w (H1 & H2 & H3). simpl. auto.
  - intros e. eapply triple_weaken;
      [apply on_job_error_files|intros w H; exact H| |intros ? w H; exact H
      |intros w []].
    intros r w ((H1 & H2) & Hr). split; [exact H1|]. split; [exact H2|].
    intros Hs. congruence.
Qed.

End JobFiles.

(** X7.  What a job does to the staging directory.  Whatever the network and
    the tools answer, and however the job ends, every file other than its
    own temporary file and its own output file is there afterwards exactly
    if it was there before.  When the job returns, with a success or with a
    failure, and after any number of retries, its temporary file is gone;
    when it returns a success, its output file is there (the two paths
    being different). *)
Theorem downloadSong_files path_join theSong dir cookies (w : World) :
  let tmp := tempAudioPath path_join theSong dir in
  let out := outputPath path_join theSong dir in
  let o := downloadSong path_join theSong dir cookies w in
  unchanged_but [tmp; out] (files w) (files (world_of o))
  /\ forall r w', o = Ret r w' ->
       ~ In tmp (files w')
       /\ (success r = true -> out <> tmp -> In out (files w')).
Proof.
  intros tmp out o.
  assert (H0 : on_files (unchanged_but [tmp; out] (files w)) w)
    by (intros f _; reflexivity).
  pose proof (@downloadSong_files_triple path_join theSong dir cookies (files w) w H0) as H.
  fold o in H. destruct o as [r w1|e w1|w1]; simpl.
  - split; [apply H|]. intros r' w' Heq. inversion Heq; subst. apply H.
  - destruct H.
  - split; [exact H|]. discriminate.
Qed.

Lemma downloadSong_files_witness :
  let w := {| net := [false; true; true; true];
              ytdlp := [FetchFailed (ErrorObj (lit "read ECONNRESET")) true; Fetched];
              ffmpeg := [Transcoded];
              files := [lit "out/Artist - Title.webm"; lit "out/other.mp3"];
              trace := [] |} in
  let o := downloadSong join_slash demo_song (lit "out") None w in
  result_of o = Some (completed_result join_slash demo_song (lit "out"))
  /\ ~ In (tempAudioPath join_slash demo_song (lit "out")) (files (world_of o))
  /\ In (outputPath join_slash demo_song (lit "out")) (files (world_of o)).
Proof.
  intros w o.
  assert (E : o = Ret (completed_result join_slash demo_song (lit "out")) (world_of o))
    by (vm_compute; reflexivity).
  destruct (@downloadSong_files join_slash demo_song (lit "out") None w) as (_ & H).
  destruct (H _ _ E) as (Htmp & Hout).
  split; [rewrite E; reflexivity|]. split; [exact Htmp|].
  apply Hout; [reflexivity|]. vm_compute. discriminate.
Defined.

(* ----------------------------------------------------------------- *)
(** ** When a job succeeds *)

(** Reads what each primitive of a run did to the world. *)

(** X8.  When a job succeeds.  [downloadSong] returns a success exactly when
    the retrieval tool, after fewer than four failures that are all network
    errors, returns; the network answers positively at least once for each
    wait (one before every attempt, one after every failure); and the
    conversion ends.  The job then returns the output path, and has started
    the retrieval tool once more than it failed. *)
Theorem downloadSong_succeeds_iff path_join theSong dir cookies (w : World) :
  let o := downloadSong path_join theSong dir cookies w in
  ((exists r w', o = Ret r w' /\ success r = true)
   <-> exists fails, recoverable fails w)
  /\ forall fails,
       recoverable fails w ->
       o = Ret (completed_result path_join theSong dir) (world_of o)
       /\ fetch_count (emitted w (world_of o)) = S (List.length fails).
Proof.
  intros o.
  pose proof (downloadSong_run path_join theSong dir cookies w) as Hrun.
  fold o in Hrun.
  assert (Hback : forall fails,
    recoverable fails w ->
    o = Ret (completed_result path_join theSong dir) (world_of o)
    /\ fetch_count (emitted w (world_of o)) = S (List.length fails)).
  { intros fails ((rest & Hy) & Hk & Hn & Hc & Hm).
    assert (Hloop : forall o1,
      attempt_run path_join theSong dir cookies 1 w o1 ->
      exists w1 t, o1 = Ret tt w1 /\ ffmpeg w1 = ffmpeg w
                   /\ trace w1 = trace w ++ t /\ fetch_count t = S (List.length fails)).
    { intros o1 H1.
      destruct (attempt_run_recovers H1 fails rest Hy ltac:(lia) Hn Hc) as (w1 & ->).
      destruct (attempt_run_fetched H1 eq_refl ltac:(unfold maxRetries; lia))
        as (fails' & t & Hy' & _ & Hn' & _ & Hm' & Ht & Hf).
      exists w1, t. repeat split; auto.
      rewrite Hf. f_equal.
      assert (Heq : fails' = fails); [|now subst].
      clear - Hy Hy' Hn Hn'. rewrite Hy in Hy'. clear Hy.
      revert fails' Hy' Hn'. induction fails as [|f fails IH]; intros [|f' fails'] Hy' Hn'.
      - reflexivity.
      - simpl in Hy', Hn'. inversion Hy'; subst f'. discriminate.
      - simpl in Hy', Hn. inversion Hy'; subst f. discriminate.
      - simpl in *. inversion Hy'; subst f'.
        apply andb_true_iff in Hn as [_ Hn]. apply andb_true_iff in Hn' as [_ Hn'].
        f_equal. now apply IH. }
    inversion Hrun as [w1 H1 Ho|e w1 w2 H1 Ht2 Ho|w1 w2 H1 Hf Ht2 Ho
                      |w1 e w2 w3 H1 Hf Ht2 Ht3 Ho|w1 w2 w3 H1 Hf Ht2 Ht3 Ho];
      destruct (Hloop _ H1) as (wl & t & Hl & Hml & Htl & Hfl);
      try discriminate Hl; inversion Hl; subst wl;
      rewrite Hml in Hf; try (rewrite Hf in Hm; discriminate Hm).
    simpl. split; [reflexivity|].
    destruct (cleanup_events_quietly (tempAudioPath path_join theSong dir) w2) as (F & _).
    rewrite (@emitted_unique w w3
               (t ++ [converting_event theSong;
                      Ffmpeg (tempAudioPath path_join theSong dir)
                             (outputPath path_join theSong dir)]
                  ++ cleanup_events (tempAudioPath path_join theSong dir) w2
                  ++ [completed_event theSong])).
    - rewrite !fetch_count_app, F, Hfl.
      unfold fetch_count, converting_event, completed_event. simpl. lia.
    - rewrite Ht3, Ht2, Htl, <- !app_assoc. reflexivity. }
  split; [|exact Hback].
  split.
  - intros (r & w' & Ho & Hs). rewrite Ho in Hrun.
    inversion Hrun as [w1 H1 Hq|e w1 w2 H1 Ht2 Hq|w1 w2 H1 Hf Ht2 Hq
                      |w1 e w2 w3 H1 Hf Ht2 Ht3 Hq|w1 w2 w3 H1 Hf Ht2 Ht3 Hq];
      subst; try discriminate Hs.
    destruct (attempt_run_fetched H1 eq_refl ltac:(unfold maxRetries; lia))
      as (fails & t & Hy & Hk & Hn & Hc & Hm & _).
    exists fails. split; [eauto|]. split; [lia|]. split; [exact Hn|].
    split; [lia|]. rewrite <- Hm, Hf. reflexivity.
  - intros (fails & Hrec). destruct (Hback fails Hrec) as (Ho & _).
    eexists _, _. split; [exact Ho|reflexivity].
Qed.

Lemma downloadSong_succeeds_iff_witness :
  let lost := FetchFailed (ErrorObj (lit "getaddrinfo EAI_AGAIN www.youtube.com")) true in
  let w := world0 [false; true; true; false; false; true; true; true]
                  [lost; lost; Fetched] [Transcoded] in
  let o := downloadSong join_slash demo_song (lit "out") None w in
  recoverable [lost; lost] w
  /\ o = Ret (completed_result join_slash demo_song (lit "out")) (world_of o)
  /\ fetch_count (emitted w (world_of o)) = 3.
Proof.
  intros lost w o.
  assert (Hrec : recoverable [lost; lost] w).
  { split; [exists []; reflexivity|]. split; [unfold maxRetries; simpl; lia|].
    split; [vm_compute; reflexivity|]. split; [vm_compute; lia|reflexivity]. }
  split; [exact Hrec|].
  exact (proj2 (@downloadSong_succeeds_iff join_slash demo_song (lit "out") None w)
               [lost; lost] Hrec).
Defined.

(* ----------------------------------------------------------------- *)
(** ** The conversion is started once *)

Lemma conversions_app a b : conversions (a ++ b) = conversions a + conversions b.
Proof. unfold conversions. now rewrite filter_app, length_app. Qed.

Lemma wait_trace_no_conversion p a ps : conversions (wait_trace p a ps) = 0.
Proof.
  revert a. induction ps as [|[|] ps IH]; intros a; cbn [wait_trace].
  - reflexivity.
  - now destruct a.
  - exact (IH true).
Qed.

Lemma cleanup_events_no_conversion path w : conversions (cleanup_events path w) = 0.
Proof. unfold cleanup_events. now destruct (existsb _ _). Qed.

Lemma cleanup_events_quiet path w : Forall quiet (cleanup_events path w).
Proof.
  unfold cleanup_events. destruct (existsb _ _); repeat constructor.
Qed.

(** Where the one event of a kind stands in a trace. *)
Lemma split_unique {A} (p : A -> bool) : forall a' a x x' b b',
  a ++ x :: b = a' ++ x' :: b' ->
  p x = true -> filter p a' = [] -> filter p b' = [] ->
  a = a' /\ x = x' /\ b = b'.
Proof.
  induction a' as [|y' a' IH]; intros a x x' b b' Heq Hx Ha Hb.
  - destruct a as [|y a]; simpl in Heq; inversion Heq; subst; [auto|].
    rewrite filter_app in Hb. simpl in Hb. rewrite Hx in Hb.
    destruct (filter p a); discriminate.
  - simpl in Ha. destruct (p y') eqn:Hy; [discriminate|].
    destruct a as [|y a]; simpl in Heq; inversion Heq; subst; [congruence|].
    destruct (IH a x x' b b') as (-> & -> & ->); auto.
Qed.

Section ConversionOnce.

Variable path_join : jsstring -> jsstring -> jsstring.
Variable theSong : Song.
Variable dir : jsstring.
Variable cookies : option jsstring.

Local Abbreviation tmp := (tempAudioPath path_join theSong dir).
Local Abbreviation out := (outputPath path_join theSong dir).

Lemma attempt_run_no_conversion attempt w o :
  attempt_run path_join theSong dir cookies attempt w o ->
  exists t, trace (world_of o) = trace w ++ t
            /\ conversions t = 0
            /\ ffmpeg (world_of o) = ffmpeg w
            /\ (is_waiting o = false -> 1 <= fetch_count t).
Proof.
  induction 1 as [attempt w w1 Hw
                 |attempt w w1 w2 Hw Hx
                 |attempt w w1 w2 Hw Hx
                 |attempt w w1 e w2 w3 Hw Hx Hu Hr
                 |attempt w w1 e w2 w3 w4 Hw Hx Hu Hr Hw2
                 |attempt w w1 e w2 w3 w4 o Hw Hx Hu Hr Hw2 Hrun
                    (t & Ht & Hc & Hm & Hf)];
    prims; simpl world_of; simpl in *;
    repeat match goal with Hx : trace _ = _ |- _ => rewrite Hx; clear Hx end;
    rewrite <- ?app_assoc; eexists; (split; [reflexivity|]);
    rewrite ?conversions_app, ?fetch_count_app, ?wait_trace_no_conversion,
      ?cleanup_events_no_conversion, ?Hc;
    (split; [reflexivity|]); (split; [congruence|]);
    try discriminate; intros; simpl; unfold fetch_count; simpl; lia.
Qed.

End ConversionOnce.

(** X9.  The conversion is started at most once in a job, after a fetch, on
    the job's temporary file and for its output file, and neither a probe
    nor a fetch follows it.  A conversion that fails is final: whatever the
    text of its error, a network error included, the job returns a failure
    with that text. *)
Theorem conversion_is_final path_join theSong dir cookies (w : World) :
  let o := downloadSong path_join theSong dir cookies w in
  let t := emitted w (world_of o) in
  conversions t <= 1
  /\ (forall a input output b,
        t = a ++ Ffmpeg input output :: b ->
        input = tempAudioPath path_join theSong dir
        /\ output = outputPath path_join theSong dir
        /\ 1 <= fetch_count a /\ Forall quiet b)
  /\ (forall e,
        conversions t = 1 ->
        hd_error (ffmpeg w) = Some (TranscodeFailed e) ->
        o = Ret (failed_result theSong e) (world_of o)).
Proof.
  intros o t.
  pose proof (downloadSong_run path_join theSong dir cookies w) as Hrun.
  fold o in Hrun. subst t. clearbody o.
  set (tmp := tempAudioPath path_join theSong dir) in *.
  set (out := outputPath path_join theSong dir) in *.
  assert (Hnone : forall t, conversions t = 0 ->
            forall a i f b, t <> a ++ Ffmpeg i f :: b).
  { intros t Hc a i f b ->. rewrite conversions_app in Hc.
    unfold conversions in Hc. simpl in Hc. lia. }
  assert (Hfail : forall e w0,
            conversions (failure_events path_join theSong dir e w0) = 0
            /\ Forall quiet (failure_events path_join theSong dir e w0)).
  { intros e w0. unfold failure_events. split.
    - now rewrite conversions_app, cleanup_events_no_conversion.
    - apply Forall_app. split; [apply cleanup_events_quiet|].
      repeat constructor. }
  assert (Hshape :
    (conversions (emitted w (world_of o)) = 0)
    \/ exists t1 rest,
         emitted w (world_of o)
         = (t1 ++ [converting_event theSong]) ++ Ffmpeg tmp out :: rest
         /\ conversions t1 = 0 /\ conversions rest = 0
         /\ 1 <= fetch_count t1 /\ Forall quiet rest
         /\ forall e, hd_error (ffmpeg w) = Some (TranscodeFailed e) ->
                      o = Ret (failed_result theSong e) (world_of o)).
  { inversion Hrun as [w1 H1 Ho|e w1 w2 H1 Ht2 Ho|w1 w2 H1 Hf Ht2 Ho
                      |w1 e w2 w3 H1 Hf Ht2 Ht3 Ho|w1 w2 w3 H1 Hf Ht2 Ht3 Ho];
      destruct (attempt_run_no_conversion H1) as (t1 & Ht1 & Hc1 & Hm1 & Hf1);
      simpl in Ht1, Hm1, Hf1; simpl world_of.
    - left. rewrite (@emitted_unique w w1 t1 Ht1). exact Hc1.
    - left. destruct (Hfail e w1) as (Hc & _).
      rewrite (@emitted_unique w w2 (t1 ++ failure_events path_join theSong dir e w1)).
      + rewrite conversions_app. lia.
      + rewrite Ht2, Ht1, <- app_assoc. reflexivity.
    - right. exists t1, []. split; [|repeat split; auto].
      + apply emitted_unique. rewrite Ht2, Ht1, <- !app_assoc. reflexivity.
      + intros e He. rewrite <- Hm1, Hf in He. discriminate He.
    - right. destruct (Hfail e w2) as (Hc & Hq).
      exists t1, (failure_events path_join theSong dir e w2).
      split; [|repeat split; auto].
      + apply emitted_unique. rewrite Ht3, Ht2, Ht1, <- !app_assoc. reflexivity.
      + intros e' He. rewrite <- Hm1, Hf in He. inversion He. reflexivity.
    - right. exists t1, (cleanup_events tmp w2 ++ [completed_event theSong]).
      split; [|repeat split; auto].
      + apply emitted_unique. rewrite Ht3, Ht2, Ht1, <- !app_assoc. reflexivity.
      + now rewrite conversions_app, cleanup_events_no_conversion.
      + apply Forall_app. split; [apply cleanup_events_quiet|repeat constructor].
      + intros e He. rewrite <- Hm1, Hf in He. discriminate He. }
  destruct Hshape as [Hc|(t1 & rest & Ht & Hc1 & Hcr & Hf1 & Hq & Hfinal)].
  - split; [lia|]. split.
    + intros a i f b Heq. exfalso. exact (Hnone _ Hc a i f b Heq).
    + intros e H1. lia.
  - rewrite Ht. split; [|split].
    + rewrite !conversions_app, Hc1. unfold conversions. simpl. unfold conversions in Hcr. lia.
    + intros a i f b Heq.
      destruct (@split_unique _ is_ffmpeg (t1 ++ [converting_event theSong])
                  a (Ffmpeg i f) (Ffmpeg tmp out) b rest (eq_sym Heq) eq_refl)
        as (-> & Hx & ->).
      * rewrite filter_app. unfold conversions in Hc1.
        apply length_zero_iff_nil in Hc1. now rewrite Hc1.
      * unfold conversions in Hcr. now apply length_zero_iff_nil in Hcr.
      * inversion Hx. repeat split; auto.
        rewrite fetch_count_app. lia.
    + intros e _. apply Hfinal.
Qed.

Lemma conversion_is_final_witness :
  let reset := ErrorObj (lit "read ECONNRESET") in
  let w := world0 [true; true; true] [Fetched; Fetched] [TranscodeFailed reset; Transcoded] in
  let o := downloadSong join_slash demo_song (lit "out") None w in
  let t := emitted w (world_of o) in
  isNetworkError (message_of reset) = true
  /\ o = Ret (failed_result demo_song reset) (world_of o)
  /\ fetch_count t = 1
  /\ Forall quiet (skipn 5 t).
Proof.
  intros reset w o t.
  destruct (@conversion_is_final join_slash demo_song (lit "out") None w)
    as (_ & Hsplit & Hfinal).
  split; [vm_compute; reflexivity|].
  split; [apply Hfinal; [vm_compute; reflexivity|reflexivity]|].
  split; [vm_compute; reflexivity|].
  apply (Hsplit (firstn 4 t) (tempAudioPath join_slash demo_song (lit "out"))
                (outputPath join_slash demo_song (lit "out")) (skipn 5 t)).
  vm_compute. reflexivity.
Defined.

(* ----------------------------------------------------------------- *)
(** ** The downloader without retry *)

Lemma downloadCommand_eq path_join theSong dir cookies :
  Plain.downloadCommand path_join theSong dir cookies
  = command path_join theSong dir cookies.
Proof.
  unfold Plain.downloadCommand, command. now rewrite <- !app_assoc.
Qed.

Section Simulation.

Variable R : World -> World -> Prop.

Lemma sim_ret {A} (a : A) : simulates R (ret a) (ret a).
Proof. intros w w' H. split; [reflexivity|exact H]. Qed.

Lemma sim_bind {A B} (m m' : M A) (k k' : A -> M B) :
  simulates R m m' -> (forall a, simulates R (k a) (k' a)) ->
  simulates R (bind m k) (bind m' k').
Proof.
  intros Hm Hk w w' H. unfold bind. specialize (Hm w w' H).
  destruct (m w) as [a w1|e w1|w1], (m' w') as [a' w1'|e' w1'|w1'];
    simpl in Hm; try contradiction; try exact Hm.
  destruct Hm as [<- Hm]. exact (Hk a w1 w1' Hm).
Qed.

Lemma sim_try_catch {A} (m m' : M A) (h h' : thrown -> M A) :
  simulates R m m' -> (forall e, simulates R (h e) (h' e)) ->
  simulates R (try_catch m h) (try_catch m' h').
Proof.
  intros Hm Hh w w' H. unfold try_catch. specialize (Hm w w' H).
  destruct (m w) as [a w1|e w1|w1], (m' w') as [a' w1'|e' w1'|w1'];
    simpl in Hm; try contradiction; try exact Hm.
  destruct Hm as [<- Hm]. exact (Hh e w1 w1' Hm).
Qed.

End Simulation.

(** What comes after a computation depends on its outcome only. *)
Lemma try_bind_from {A B} (m m2 : M A) (k : A -> M B) h w w2 :
  m w = m2 w2 -> try_catch (bind m k) h w = try_catch (bind m2 k) h w2.
Proof. intros H. unfold try_catch, bind. now rewrite H. Qed.

Lemma bind_assoc {A B C} (m : M A) (k1 : A -> M B) (k2 : B -> M C) w :
  bind m (fun a => bind (k1 a) k2) w = bind (bind m k1) k2 w.
Proof. unfold bind. now destruct (m w). Qed.

Section JobAhead.

Variable ps : list bool.
Variables t0 wt : list Event.

Local Abbreviation R := (ahead ps t0 wt).

(** The same change made to two related worlds. *)
Lemma ahead_step w w' y f fs es :
  R w w' ->
  R {| net := net w; ytdlp := y; ffmpeg := f; files := fs; trace := trace w ++ es |}
    {| net := net w'; ytdlp := y; ffmpeg := f; files := fs; trace := trace w' ++ es |}.
Proof.
  intros (Hn & _ & _ & _ & evs & Ht & Ht'). unfold ahead; simpl.
  repeat split; auto. exists (evs ++ es). rewrite Ht, Ht', <- !app_assoc. auto.
Qed.

Lemma ahead_same w w' : R w w' ->
  ytdlp w = ytdlp w' /\ ffmpeg w = ffmpeg w' /\ files w = files w'.
Proof. intros (_ & Hy & Hf & Hfs & _). auto. Qed.

Lemma sim_emit e : simulates R (emit e) (emit e).
Proof.
  intros w w' H. destruct (ahead_same H) as (Hy & Hf & Hfs).
  split; [reflexivity|]. unfold emit_in. rewrite Hy, Hf, Hfs.
  now apply ahead_step.
Qed.

Lemma sim_execSync c target : simulates R (execSync c target) (execSync c target).
Proof.
  intros w w' H. destruct (ahead_same H) as (Hy & Hf & Hfs).
  unfold execSync, write_file, with_files, emit_in. simpl. rewrite <- Hy.
  destruct (ytdlp w) as [|[|e [|]] ys]; simpl; rewrite ?Hf, ?Hfs;
    try (split; [reflexivity|]); now apply ahead_step.
Qed.

Lemma sim_ffmpeg_save input output :
  simulates R (ffmpeg_save input output) (ffmpeg_save input output).
Proof.
  intros w w' H. destruct (ahead_same H) as (Hy & Hf & Hfs).
  unfold ffmpeg_save, write_file, with_files, emit_in. simpl. rewrite <- Hf.
  destruct (ffmpeg w) as [|[|e] ys]; simpl; rewrite ?Hy, ?Hfs;
    try (split; [reflexivity|]); now apply ahead_step.
Qed.

Lemma sim_unlink_if_exists path :
  simulates R (unlink_if_exists path) (unlink_if_exists path).
Proof.
  intros w w' H. destruct (ahead_same H) as (Hy & Hf & Hfs).
  unfold unlink_if_exists, bind, existsSync, unlinkSync, ret, with_files, emit_in.
  rewrite <- Hfs. destruct (existsb (jsstring_eqb path) (files w)); simpl.
  - split; [reflexivity|]. rewrite Hy, Hf, <- Hfs. now apply ahead_step.
  - split; [reflexivity|exact H].
Qed.

End JobAhead.

Section PlainJob.

Variable path_join : jsstring -> jsstring -> jsstring.
Variable theSong : Song.
Variable dir : jsstring.
Variable cookies : option jsstring.

Local Abbreviation tmp := (tempAudioPath path_join theSong dir).
Local Abbreviation cmd := (command path_join theSong dir cookies).

Lemma sim_convert ps t0 wt :
  simulates (ahead ps t0 wt) (convert path_join theSong dir)
            (convert path_join theSong dir).
Proof.
  unfold convert, onProgress.
  apply sim_bind; [apply sim_emit|intros _].
  apply sim_bind; [apply sim_ffmpeg_save|intros _].
  apply sim_bind; [apply sim_unlink_if_exists|intros _].
  apply sim_emit.
Qed.

Lemma sim_on_job_error ps t0 wt e :
  simulates (ahead ps t0 wt) (on_job_error path_join theSong dir e)
            (on_job_error path_join theSong dir e).
Proof.
  unfold on_job_error, onProgress, logger_error.
  apply sim_bind; [apply sim_unlink_if_exists|intros _].
  apply sim_bind; [apply sim_emit|intros _].
  apply sim_bind; [apply sim_emit|intros _].
  apply sim_ret.
Qed.

Lemma fetch_attempts_first fuel (w : World) ps :
  after_online (net w) = Some ps ->
  (forall e partial, hd_error (ytdlp w) <> Some (FetchFailed e partial)) ->
  fetch_attempts path_join theSong dir cookies (S fuel) 1 w
  = execSync cmd tmp
      (emit_in (Progress (progress_event theSong downloading 0 None))
               (moved ps (wait_trace [] false (net w)) w)).
Proof.
  intros Hon Hy. cbn [fetch_attempts].
  change (maxRetries <? 1) with false. cbv iota.
  unfold bind at 1. rewrite waitForReconnect_closed, Hon.
  unfold bind at 1. unfold onProgress at 1. unfold emit at 1. cbv beta iota.
  unfold bind at 1. unfold try_catch at 1. unfold bind at 1.
  unfold execSync.
  destruct (ytdlp w) as [|[|e partial] ys] eqn:Ey; cbn [ytdlp emit_in moved];
    rewrite Ey; [reflexivity|reflexivity|].
  exfalso. exact (Hy e partial eq_refl).
Qed.

Lemma plain_fetch_first (w : World) :
  (forall e partial, hd_error (ytdlp w) <> Some (FetchFailed e partial)) ->
  bind (onProgress (progress_event theSong downloading 0 None))
       (fun _ => Plain.fetch path_join theSong dir cookies) w
  = execSync cmd tmp
      (emit_in (Progress (progress_event theSong downloading 0 None)) w).
Proof.
  intros Hy. unfold bind, onProgress, emit, Plain.fetch, try_catch.
  rewrite downloadCommand_eq. unfold execSync.
  destruct (ytdlp w) as [|[|e partial] ys] eqn:Ey; cbn [ytdlp emit_in];
    rewrite Ey; [reflexivity|reflexivity|].
  exfalso. exact (Hy e partial eq_refl).
Qed.

End PlainJob.

(** X10.  The two downloaders agree while the retrieval tool does not fail.
    When the network is reachable, at once or after a wait, and the first
    run of the retrieval tool returns or never ends, the job with retry and
    the job without end alike: the same result, the same files; the job with
    retry has made the events of its wait first, then the very events of
    the job without. *)
Theorem retry_agrees_with_plain path_join theSong dir cookies (w : World) ps :
  after_online (net w) = Some ps ->
  (forall e partial, hd_error (ytdlp w) <> Some (FetchFailed e partial)) ->
  let o := downloadSong path_join theSong dir cookies w in
  let o' := Plain.downloadSong path_join theSong dir cookies w in
  result_of o = result_of o'
  /\ is_waiting o = is_waiting o'
  /\ files (world_of o) = files (world_of o')
  /\ net (world_of o) = ps
  /\ emitted w (world_of o) = wait_trace [] false (net w) ++ emitted w (world_of o').
Proof.
  intros Hon Hy o o'.
  set (wt := wait_trace [] false (net w)).
  assert (Hsim : alike (ahead ps (trace w) wt) o o').
  { subst o o'. unfold downloadSong, Plain.downloadSong.
    change (fetch_attempts path_join theSong dir cookies maxRetries 1)
      with (fetch_attempts path_join theSong dir cookies (S 3) 1).
    rewrite (@try_bind_from _ _ _ _ _ _ _ _
               (fetch_attempts_first path_join theSong dir cookies 3 w Hon Hy)).
    match goal with |- alike _ _ (try_catch ?b ?h w) =>
      replace (try_catch b h w)
        with (try_catch
                (bind (bind (onProgress (progress_event theSong downloading 0 None))
                            (fun _ => Plain.fetch path_join theSong dir cookies))
                      (fun _ => convert path_join theSong dir ;;
                                ret {| song := theSong;
                                       filePath := outputPath path_join theSong dir;
                                       success := true; error := None |}))
                h w)
        by (unfold try_catch; now rewrite <- bind_assoc)
    end.
    rewrite (@try_bind_from _ _ _ _ _ _ _ _
               (plain_fetch_first path_join theSong dir cookies w Hy)).
    apply sim_try_catch; [|intros e; apply sim_on_job_error|].
    - apply sim_bind; [apply sim_execSync|intros _].
      apply sim_bind; [apply sim_convert|intros _]. apply sim_ret.
    - unfold ahead, emit_in, moved; simpl. repeat split.
      exists [Progress (progress_event theSong downloading 0 None)].
      rewrite <- !app_assoc. auto. }
  assert (Hw : ahead ps (trace w) wt (world_of o) (world_of o')
               /\ result_of o = result_of o' /\ is_waiting o = is_waiting o').
  { destruct o as [a w1|e w1|w1], o' as [a' w1'|e' w1'|w1'];
      simpl in Hsim; try contradiction; simpl;
      try destruct Hsim as [-> Hsim]; auto. }
  destruct Hw as ((Hn & _ & _ & Hfs & evs & Ht & Ht') & Hr & Hwait).
  repeat split; auto.
  rewrite (@emitted_unique w (world_of o) (wt ++ evs) Ht).
  now rewrite (@emitted_unique w (world_of o') evs Ht').
Qed.

Lemma retry_agrees_with_plain_witness :
  let w := {| net := [false; false; true; true];
              ytdlp := [Fetched];
              ffmpeg := [TranscodeFailed (ErrorObj (lit "Invalid data found"))];
              files := [lit "out/cover.jpg"];
              trace := [] |} in
  let o := downloadSong join_slash demo_song (lit "out") None w in
  let o' := Plain.downloadSong join_slash demo_song (lit "out") None w in
  result_of o = result_of o'
  /\ result_of o' = Some (failed_result demo_song (ErrorObj (lit "Invalid data found")))
  /\ List.length (emitted w (world_of o)) = 8 + List.length (emitted w (world_of o')).
Proof.
  intros w o o'.
  destruct (@retry_agrees_with_plain join_slash demo_song (lit "out") None w [true])
    as (Hr & _ & _ & _ & Ht).
  - reflexivity.
  - intros e partial H. discriminate H.
  - split; [exact Hr|]. split; [vm_compute; reflexivity|].
    fold o o' in Ht. rewrite Ht, length_app. reflexivity.
Defined.

Section PlainAttempt.

Variable path_join : jsstring -> jsstring -> jsstring.
Variable theSong : Song.
Variable dir : jsstring.
Variable cookies : option jsstring.
Variable n0 : list bool.
Variable t0 : list Event.

Local Abbreviation tmp := (tempAudioPath path_join theSong dir).
Local Abbreviation out := (outputPath path_join theSong dir).
Local Abbreviation P := (fetched_times n0 t0).

Lemma fetched_times_step k k' w w' es :
  P k w -> net w' = net w -> trace w' = trace w ++ es ->
  filter is_probe es = [] -> k' = k + fetch_count es ->
  P k' w'.
Proof.
  intros (Hn & t & Ht & Hk & Hp) Hn' Ht' Hes ->. split; [congruence|].
  exists (t ++ es). rewrite Ht', Ht, <- app_assoc, fetch_count_app, filter_app, Hk, Hp, Hes.
  auto.
Qed.

Lemma fetched_times_emit ev k (E : thrown -> World -> Prop) (W : World -> Prop) :
  is_fetch ev = false -> is_probe ev = false ->
  triple (P k) (emit ev) (fun _ => P k) E W.
Proof.
  intros Hf Hp w Hw. unfold emit. cbv iota.
  apply (@fetched_times_step k k w (emit_in ev w) [ev]); auto.
  - simpl. now rewrite Hp.
  - unfold fetch_count. simpl. rewrite Hf. simpl. lia.
Qed.

Lemma fetched_times_unlink path k (E : thrown -> World -> Prop) (W : World -> Prop) :
  triple (P k) (unlink_if_exists path) (fun _ => P k) E W.
Proof.
  intros w Hw. unfold unlink_if_exists, bind, existsSync, unlinkSync, ret.
  destruct (existsb (jsstring_eqb path) (files w)); [|exact Hw].
  eapply (@fetched_times_step k k w _ [Unlink path]); auto.
Qed.

Lemma fetched_times_execSync c target :
  triple (P 0) (execSync c target) (fun _ => P 1) (fun _ => P 1) (P 1).
Proof.
  intros w Hw. unfold execSync.
  destruct (ytdlp w) as [|[|e [|]] ys]; cbv iota;
    eapply (@fetched_times_step 0 1 w _ [ExecSync c]); auto.
Qed.

Lemma fetched_times_ffmpeg_save input output k :
  triple (P k) (ffmpeg_save input output) (fun _ => P k) (fun _ => P k) (P k).
Proof.
  intros w Hw. unfold ffmpeg_save.
  destruct (ffmpeg w) as [|[|e] ys]; cbv iota;
    eapply (@fetched_times_step k k w _ [Ffmpeg input output]); auto.
Qed.

Lemma fetched_times_convert k :
  triple (P k) (convert path_join theSong dir) (fun _ => P k) (fun _ => P k) (P k).
Proof.
  unfold convert, onProgress.
  eapply triple_bind; [now apply fetched_times_emit|intros ?].
  eapply triple_bind; [apply fetched_times_ffmpeg_save|intros ?].
  eapply triple_bind; [apply fetched_times_unlink|intros ?].
  now apply fetched_times_emit.
Qed.

Lemma fetched_times_on_job_error e k (E : thrown -> World -> Prop) (W : World -> Prop) :
  triple (P k) (on_job_error path_join theSong dir e) (fun _ => P k) E W.
Proof.
  unfold on_job_error, onProgress, logger_error.
  eapply triple_bind; [apply fetched_times_unlink|intros ?].
  eapply triple_bind; [now apply fetched_times_emit|intros ?].
  eapply triple_bind; [now apply fetched_times_emit|intros ?].
  intros w Hw. exact Hw.
Qed.

Lemma plain_downloadSong_fetched_once :
  triple (P 0) (Plain.downloadSong path_join theSong dir cookies)
         (fun _ => P 1) (fun _ => nowhere) (P 1).
Proof.
  unfold Plain.downloadSong, Plain.fetch, onProgress.
  eapply triple_catch with (E1 := fun _ => P 1);
    [|intros e; apply fetched_times_on_job_error].
  eapply triple_bind; [now apply fetched_times_emit|intros ?].
  eapply triple_bind with (Q1 := fun _ => P 1).
  - eapply triple_catch; [apply fetched_times_execSync|].
    intros e. apply (triple_throw _ (fun (_ : unit) => P 1) (fun _ => P 1) (P 1)).
  - intros ?. eapply triple_bind; [apply fetched_times_convert|intros ?].
    intros w Hw. exact Hw.
Qed.

End PlainAttempt.

Section PlainFiles.

Variable path_join : jsstring -> jsstring -> jsstring.
Variable theSong : Song.
Variable dir : jsstring.
Variable cookies : option jsstring.
Variable before : list jsstring.

Local Abbreviation tmp := (tempAudioPath path_join theSong dir).
Local Abbreviation out := (outputPath path_join theSong dir).
Local Abbreviation kept := (unchanged_but [tmp; out] before).
Local Abbreviation inv := (on_files kept).

Lemma plain_downloadSong_files_triple :
  triple inv (Plain.downloadSong path_join theSong dir cookies)
         (fun r w => kept (files w) /\ ~ In tmp (files w)
                     /\ (success r = true -> out <> tmp -> In out (files w)))
         (fun _ => nowhere) inv.
Proof.
  unfold Plain.downloadSong, Plain.fetch. rewrite downloadCommand_eq.
  eapply triple_catch with (E1 := fun _ => inv).
  - eapply triple_bind; [apply triple_emit|intros ?].
    eapply triple_bind with (Q1 := fun _ => inv).
    + eapply triple_catch; [apply execSync_files|].
      intros e. apply (triple_throw _ (fun (_ : unit) => inv) (fun _ => inv) inv).
    + intros ?. eapply triple_bind; [apply convert_files|intros ?].
      intros w (H1 & H2 & H3). simpl. auto.
  - intros e. eapply triple_weaken;
      [apply on_job_error_files|intros w H; exact H| |intros ? w H; exact H
      |intros w []].
    intros r w ((H1 & H2) & Hr). split; [exact H1|]. split; [exact H2|].
    intros Hs. congruence.
Qed.

End PlainFiles.

Lemma plain_fetch_failed path_join theSong dir cookies (w : World) e partial :
  hd_error (ytdlp w) = Some (FetchFailed e partial) ->
  exists w2 w3,
    Plain.downloadSong path_join theSong dir cookies w
    = Ret (failed_result theSong (fetch_failure e)) w3
    /\ trace w3
       = trace w
         ++ [Progress (progress_event theSong downloading 0 None);
             ExecSync (command path_join theSong dir cookies)]
         ++ failure_events path_join theSong dir (fetch_failure e) w2.
Proof.
  intros H. unfold Plain.downloadSong, try_catch.
  unfold bind at 1. unfold onProgress at 1. unfold emit at 1.
  unfold bind at 1. unfold Plain.fetch at 1. unfold try_catch at 1.
  rewrite downloadCommand_eq.
  unfold execSync at 1. cbn [ytdlp emit_in].
  destruct (ytdlp w) as [|[|e' partial'] ys]; try discriminate H.
  inversion H; subst e' partial'. unfold throw.
  change (ErrorObj (lit "yt-dlp download failed: " ++ message_of e))
    with (fetch_failure e).
  match goal with |- context [on_job_error _ _ _ _ ?w2] =>
    destruct (on_job_error_ret path_join theSong dir (fetch_failure e) w2)
      as (w3 & Heq & Ht);
    exists w2, w3; rewrite Heq; split; [reflexivity|];
    rewrite Ht; destruct partial; simpl; rewrite <- !app_assoc; reflexivity
  end.
Qed.

(** X11.  The downloader without retry makes one attempt.  Whatever the
    tools answer, the job never throws, starts the retrieval tool exactly
    once, and neither asks nor awaits the network.  Any failure of the
    retrieval tool, a network error included, ends the job at once, without
    a conversion, with a failure whose text is that of the error after
    [yt-dlp download failed: ].  When the job returns, its temporary file
    is gone, and no file other than its temporary and output files has
    appeared or disappeared. *)
Theorem plain_downloadSong_single_attempt path_join theSong dir cookies (w : World) :
  let o := Plain.downloadSong path_join theSong dir cookies w in
  let t := emitted w (world_of o) in
  let tmp := tempAudioPath path_join theSong dir in
  let out := outputPath path_join theSong dir in
  is_throw o = false
  /\ fetch_count t = 1
  /\ filter is_probe t = [] /\ net (world_of o) = net w
  /\ unchanged_but [tmp; out] (files w) (files (world_of o))
  /\ (forall r w', o = Ret r w' -> ~ In tmp (files w'))
  /\ (forall e partial,
        hd_error (ytdlp w) = Some (FetchFailed e partial) ->
        o = Ret (failed_result theSong (fetch_failure e)) (world_of o)
        /\ conversions t = 0).
Proof.
  intros o t tmp out.
  assert (H0 : fetched_times (net w) (trace w) 0 w).
  { split; [reflexivity|]. exists []. rewrite app_nil_r. auto. }
  pose proof (@plain_downloadSong_fetched_once path_join theSong dir cookies
                (net w) (trace w) w H0) as H1.
  assert (F0 : on_files (unchanged_but [tmp; out] (files w)) w)
    by (intros f _; reflexivity).
  pose proof (@plain_downloadSong_files_triple path_join theSong dir cookies
                (files w) w F0) as H2.
  fold o in H1, H2.
  assert (Hw : is_throw o = false
               /\ fetched_times (net w) (trace w) 1 (world_of o)
               /\ unchanged_but [tmp; out] (files w) (files (world_of o))
               /\ forall r w', o = Ret r w' -> ~ In tmp (files w')).
  { destruct o as [r w1|e w1|w1]; simpl in *.
    - split; [reflexivity|]. split; [exact H1|]. split; [exact (proj1 H2)|].
      intros r' w' Heq. inversion Heq; subst. apply H2.
    - destruct H1.
    - split; [reflexivity|]. split; [exact H1|]. split; [exact H2|discriminate]. }
  destruct Hw as (Hthrow & (Hn & t' & Ht & Hk & Hp) & Hfiles & Htmp).
  assert (Et : t = t') by (apply emitted_unique; exact Ht).
  rewrite Et.
  split; [exact Hthrow|]. split; [exact Hk|]. split; [exact Hp|].
  split; [exact Hn|]. split; [exact Hfiles|]. split; [exact Htmp|].
  intros e partial H. split.
  - destruct (@plain_fetch_failed path_join theSong dir cookies w e partial H)
      as (w2 & w3 & Ho & _).
    subst o. rewrite Ho. reflexivity.
  - destruct (@plain_fetch_failed path_join theSong dir cookies w e partial H)
      as (w2 & w3 & Ho & Ht3).
    unfold o in Ht. rewrite Ho in Ht. simpl in Ht. rewrite Ht3 in Ht.
    apply app_inv_head in Ht. rewrite <- Ht.
    change (conversions
              ([Progress (progress_event theSong downloading 0 None);
                ExecSync (command path_join theSong dir cookies)]
               ++ failure_events path_join theSong dir (fetch_failure e) w2) = 0).
    rewrite conversions_app. unfold failure_events.
    rewrite conversions_app, cleanup_events_no_conversion. reflexivity.
Qed.

Lemma plain_downloadSong_single_attempt_witness :
  let timeout := ErrorObj (lit "connect ETIMEDOUT 142.250.1.1:443") in
  let w := world0 [] [FetchFailed timeout true; Fetched] [Transcoded] in
  let o := Plain.downloadSong join_slash demo_song (lit "out") None w in
  isNetworkError (message_of timeout) = true
  /\ o = Ret (failed_result demo_song (fetch_failure timeout)) (world_of o)
  /\ fetch_count (emitted w (world_of o)) = 1
  /\ ~ In (tempAudioPath join_slash demo_song (lit "out")) (files (world_of o)).
Proof.
  intros timeout w o.
  destruct (@plain_downloadSong_single_attempt join_slash demo_song (lit "out") None w)
    as (_ & Hone & _ & _ & _ & Htmp & Hfail).
  destruct (Hfail timeout true eq_refl) as (Ho & _).
  split; [vm_compute; reflexivity|]. split; [exact Ho|]. split; [exact Hone|].
  exact (Htmp _ _ Ho).
Defined.

(* ----------------------------------------------------------------- *)
(** ** The batch: whose result, and in which order *)

Lemma tryToStartAnother_keeps s :
  results (tryToStartAnother s) = results s
  /\ rejected (tryToStartAnother s) = rejected s
  /\ line (tryToStartAnother s) = line s.
Proof.
  unfold tryToStartAnother, line.
  destruct (pq_queue s) as [|job rest] eqn:Eq; [now rewrite Eq|].
  destruct (js_lt (number_of_nat (pq_pending s)) (pq_concurrency s));
    [|now rewrite Eq].
  simpl. now rewrite <- app_assoc.
Qed.

Lemma add_all_line jobs : forall s,
  line (add_all jobs s) = line s ++ jobs /\ results (add_all jobs s) = results s.
Proof.
  induction jobs as [|job jobs IH]; intros s.
  - simpl. now rewrite app_nil_r.
  - change (add_all (job :: jobs) s) with (add_all jobs (add job s)).
    destruct (IH (add job s)) as (Hl & Hr).
    rewrite Hl, Hr. unfold add.
    match goal with |- context [tryToStartAnother ?q] =>
      destruct (tryToStartAnother_keeps q) as (Tr & _ & Tl) end.
    rewrite Tl, Tr. unfold line. simpl. now rewrite <- !app_assoc.
Qed.

Lemma start_line number_text env options songs s0 :
  start number_text env options songs = inr s0 ->
  line s0 = index_from 0 songs /\ results s0 = [].
Proof.
  unfold start.
  destruct (if staging_exists env then None else mkdir_error env); [discriminate|].
  unfold new_PQueue.
  destruct (js_ge (effective_concurrency options) (number_of_Z 1)); [|discriminate].
  intros H; inversion H; subst. apply add_all_line.
Qed.

Lemma index_from_nth songs : forall k i job,
  nth_error (index_from k songs) i = Some job -> job_index job = k + i.
Proof.
  induction songs as [|sg songs IH]; intros k [|i] job H; simpl in H;
    try discriminate.
  - inversion H; subst. simpl. lia.
  - rewrite (IH _ _ _ H). lia.
Qed.

Lemma indexed_index_from songs : indexed (index_from 0 songs).
Proof. intros i job H. now apply index_from_nth in H. Qed.

Lemma indexed_prefix a b : indexed (a ++ b) -> indexed a.
Proof.
  intros H i job Hn. apply H. rewrite nth_error_app1; [exact Hn|].
  apply nth_error_Some. congruence.
Qed.

Lemma skipn_cons_nth {A} (l : list A) m x rest :
  skipn m l = x :: rest -> nth_error l m = Some x /\ skipn (S m) l = rest.
Proof.
  revert m; induction l as [|a l IH]; intros [|m] H; try discriminate H.
  - simpl in H. inversion H; subst. auto.
  - apply (IH m H).
Qed.

Lemma tryToStartAnother_started batch s :
  indexed batch -> started_first batch s -> started_first batch (tryToStartAnother s).
Proof.
  intros Hix (Hm & Hrun & Hq). unfold tryToStartAnother.
  destruct (pq_queue s) as [|job rest] eqn:Eq; [unfold started_first; rewrite Eq; auto|].
  destruct (js_lt (number_of_nat (pq_pending s)) (pq_concurrency s));
    [|repeat split; auto; congruence].
  symmetry in Hq. apply skipn_cons_nth in Hq as (Hn & Hs).
  unfold started_first. simpl. rewrite length_app. simpl.
  repeat split.
  - assert (Hlt : List.length (results s) + List.length (running s) < List.length batch)
      by (apply nth_error_Some; congruence).
    lia.
  - intros j Hj. apply in_app_or in Hj as [Hj|[<-|[]]].
    + specialize (Hrun j Hj). lia.
    + rewrite (Hix _ _ Hn). lia.
  - rewrite <- Hs. f_equal. lia.
Qed.

Lemma add_all_started jobs : forall done s,
  indexed (done ++ jobs) -> started_first done s ->
  started_first (done ++ jobs) (add_all jobs s).
Proof.
  induction jobs as [|job jobs IH]; intros done s Hix H; simpl.
  - now rewrite app_nil_r.
  - replace (done ++ job :: jobs) with ((done ++ [job]) ++ jobs) in *
      by (now rewrite <- app_assoc).
    apply IH; [exact Hix|].
    unfold add. apply tryToStartAnother_started; [eapply indexed_prefix; eauto|].
    destruct H as (Hm & Hrun & Hq). unfold started_first. simpl.
    rewrite length_app. simpl. repeat split; [lia|exact Hrun|].
    rewrite Hq, skipn_app.
    replace (List.length (results s) + List.length (running s) - List.length done)
      with 0 by lia.
    reflexivity.
Qed.

Lemma start_started number_text env options songs s0 :
  start number_text env options songs = inr s0 ->
  started_first (index_from 0 songs) s0.
Proof.
  unfold start.
  destruct (if staging_exists env then None else mkdir_error env); [discriminate|].
  unfold new_PQueue.
  destruct (js_ge (effective_concurrency options) (number_of_Z 1)); [|discriminate].
  intros H; inversion H; subst.
  apply (add_all_started (index_from 0 songs) (done := []));
    [apply indexed_index_from|].
  unfold started_first. simpl. repeat split; auto. intros job [].
Qed.

Lemma remove_nth_In {A} (l : list A) i x : In x (remove_nth i l) -> In x l.
Proof.
  revert i; induction l as [|a l IH]; intros [|i] H; simpl in *; auto.
  destruct H as [H|H]; eauto.
Qed.

Section BatchOrder.

Variable path_join : jsstring -> jsstring -> jsstring.
Variable env : BatchEnv.
Variable options : DownloadOptions.

Local Abbreviation result_for := (job_result path_join env options).
Local Abbreviation finish_at := (finish path_join env options).
Local Abbreviation drained := (drain path_join env options).
Local Abbreviation order := (settle_order path_join env options).

(** A job that settles hands in its own result and leaves the line; when
    it is the oldest of the running jobs, the rest of the line keeps its
    order. *)
Lemma finish_result i s s' job :
  nth_error (running s) i = Some job -> finish_at i s = Some s' ->
  map Some (results s') = map Some (results s) ++ [result_for job]
  /\ List.length (results s') = S (List.length (results s))
  /\ rejected s' = rejected s
  /\ Permutation (job :: line s') (line s)
  /\ (i = 0 -> job :: line s' = line s).
Proof.
  unfold finish. intros Hnth Hf. rewrite Hnth in Hf.
  pose proof (downloadSong_result path_join (job_song job) (outputDir options)
                (cookiesFile options) (job_world env (job_index job))) as Hres.
  fold (run_job path_join env options job) in Hres.
  assert (Hjob : result_for job = result_of (run_job path_join env options job))
    by reflexivity.
  destruct (run_job path_join env options job) as [r w'|e w'|w'];
    [|contradiction|discriminate].
  inversion Hf; subst s'; clear Hf.
  match goal with |- context [tryToStartAnother ?q] =>
    destruct (tryToStartAnother_keeps q) as (Tr & Tj & Tl) end.
  rewrite Tr, Tj, Tl. unfold line. simpl.
  rewrite map_app, length_app, Hjob. simpl.
  repeat split; [lia| |].
  - rewrite app_comm_cons. apply Permutation_app_tail. symmetry.
    exact (remove_nth_perm _ _ Hnth).
  - intros ->. destruct (running s) as [|j rest]; [discriminate|].
    simpl in Hnth. inversion Hnth; subst j. reflexivity.
Qed.

Lemma finish_started batch i s s' :
  indexed batch -> started_first batch s -> finish_at i s = Some s' ->
  started_first batch s'.
Proof.
  intros Hix (Hm & Hrun & Hq) Hf. unfold finish in Hf.
  destruct (nth_error (running s) i) as [job|] eqn:Hnth; [|discriminate].
  pose proof (downloadSong_result path_join (job_song job) (outputDir options)
                (cookiesFile options) (job_world env (job_index job))) as Hres.
  fold (run_job path_join env options job) in Hres.
  destruct (run_job path_join env options job) as [r w'|e w'|w'];
    [|contradiction|discriminate].
  inversion Hf; subst s'; clear Hf.
  pose proof (remove_nth_length _ _ Hnth) as Hlen.
  apply tryToStartAnother_started; [exact Hix|].
  unfold started_first. simpl. rewrite length_app. simpl.
  replace (List.length (results s) + 1 + List.length (remove_nth i (running s)))
    with (List.length (results s) + List.length (running s)) by lia.
  repeat split; auto.
  intros j Hj. apply Hrun. eapply remove_nth_In; eauto.
Qed.

(** The results are pushed in the order in which the jobs settle, and the
    jobs that have not settled are still in the line. *)
Lemma drain_settle_order schedule : forall s,
  map Some (results (drained schedule s))
  = map Some (results s) ++ map result_for (order schedule s)
  /\ Permutation (order schedule s ++ line (drained schedule s)) (line s).
Proof.
  induction schedule as [|i schedule IH]; intros s; simpl.
  - now rewrite app_nil_r.
  - destruct (settled s); [now rewrite app_nil_r|].
    destruct (nth_error (running s) (i mod List.length (running s))) as [job|] eqn:Hnth.
    + destruct (finish_at (i mod List.length (running s)) s) as [s'|] eqn:Hf; [|apply IH].
      destruct (finish_result _ _ Hnth Hf) as (Hr & _ & _ & Hp & _).
      destruct (IH s') as (IHr & IHp).
      split.
      * rewrite IHr, Hr, <- app_assoc. reflexivity.
      * simpl. rewrite <- Hp. apply perm_skip. exact IHp.
    + assert (Hf : finish_at (i mod List.length (running s)) s = None)
        by (unfold finish; now rewrite Hnth).
      rewrite Hf. apply IH.
Qed.

(** With no more than one slot, the jobs settle in the order of the line. *)
Lemma drain_settle_order_serial c schedule : forall s,
  slots_ok c s -> js_lt (number_of_nat 1) c = false ->
  order schedule s ++ line (drained schedule s) = line s.
Proof.
  induction schedule as [|i schedule IH]; intros s Hs Hc; simpl; [reflexivity|].
  destruct (settled s); [reflexivity|].
  assert (Hone : List.length (running s) <= 1).
  { destruct Hs as (_ & _ & Hle & _).
    destruct (le_lt_dec (List.length (running s)) 1) as [H|H]; [exact H|].
    rewrite (Hle 1 H) in Hc. discriminate Hc. }
  destruct (nth_error (running s) (i mod List.length (running s))) as [job|] eqn:Hnth.
  - destruct (finish_at (i mod List.length (running s)) s) as [s'|] eqn:Hf;
      [|now apply IH].
    destruct (finish_result _ _ Hnth Hf) as (_ & _ & _ & _ & Hhead).
    simpl. rewrite IH; [|eapply finish_slots; eauto|exact Hc].
    apply Hhead.
    destruct (running s) as [|j [|j' rest]].
    + destruct (i mod List.length (@nil Job)); discriminate Hnth.
    + apply Nat.mod_1_r.
    + simpl in Hone. lia.
  - assert (Hf : finish_at (i mod List.length (running s)) s = None)
      by (unfold finish; now rewrite Hnth).
    rewrite Hf. now apply IH.
Qed.

(** A job settles only after it was started, and it was started only when
    all but fewer than [c] of the items before it had settled. *)
Lemma settle_order_position q batch schedule : forall s,
  (1 <= q)%Q -> indexed batch -> slots_ok (Num q) s -> started_first batch s ->
  forall p job,
    nth_error (order schedule s) p = Some job ->
    (Z.of_nat (job_index job) < Z.of_nat (List.length (results s) + p) + Qceiling q)%Z.
Proof.
  intros s Hq Hix. revert s.
  assert (Hge : js_ge (Num q) (number_of_Z 1) = true)
    by (apply js_ge_one; right; eauto).
  induction schedule as [|i schedule IH]; intros s Hs Hst p job Hp; simpl in Hp.
  - destruct p; discriminate Hp.
  - destruct (settled s); [destruct p; discriminate Hp|].
    destruct (nth_error (running s) (i mod List.length (running s))) as [j|] eqn:Hnth;
      [|eapply IH; eauto].
    destruct (finish_at (i mod List.length (running s)) s) as [s'|] eqn:Hf;
      [|eapply IH; eauto].
    destruct (finish_result _ _ Hnth Hf) as (_ & Hlen & _).
    destruct p as [|p]; simpl in Hp.
    + inversion Hp; subst j.
      destruct Hst as (_ & Hrun & _).
      specialize (Hrun job (nth_error_In _ _ Hnth)).
      pose proof (slots_bound Hge Hs) as (Hb & _).
      lia.
    + assert (Hs' : slots_ok (Num q) s') by (eapply finish_slots; eauto).
      assert (Hst' : started_first batch s') by (eapply finish_started; eauto).
      specialize (IH s' Hs' Hst' p job Hp).
      rewrite Hlen in IH. lia.
Qed.

End BatchOrder.

Lemma success_counts (rs : list DownloadResult) :
  List.length (filter (fun r => success r) rs)
  + List.length (filter (fun r => negb (success r)) rs) = List.length rs.
Proof.
  induction rs as [|r rs IH]; simpl; [reflexivity|].
  destruct (success r); simpl; lia.
Qed.

(** X12.  Whose results [downloadSongs] returns, and in which order.  The
    results returned are those of the jobs of the batch, each once: the
    result that [downloadSong] returned for the item at each position.  They
    stand in the order in which the jobs settled.  A job settles only after
    it was started, so with a concurrency [c] the result of the item at
    position [k] of the batch has at least [k + 1 - c] results before it
    ([c] rounded up to a whole number); and with a concurrency that does not
    exceed 1 the order is that of the batch, whatever the schedule.  The two
    numbers of the closing message add up to the size of the batch. *)
Theorem downloadSongs_results_by_job
        number_text path_join env options songs schedule rs log :
  downloadSongs number_text path_join env options songs schedule = Returned rs log ->
  exists s0,
    start number_text env options songs = inr s0
    /\ let settled_jobs := settle_order path_join env options schedule s0 in
       map Some rs = map (job_result path_join env options) settled_jobs
       /\ Permutation settled_jobs (index_from 0 songs)
       /\ (forall q p job,
             effective_concurrency options = Num q ->
             nth_error settled_jobs p = Some job ->
             (Z.of_nat (job_index job) < Z.of_nat p + Qceiling q)%Z)
       /\ (js_lt (number_of_nat 1) (effective_concurrency options) = false ->
           settled_jobs = index_from 0 songs)
       /\ exists successCount failedCount,
            successCount + failedCount = List.length songs
            /\ nth_error log 1
               = Some (logger_success
                         (lit "Downloads complete: " ++ num_to_string successCount
                          ++ lit " successful, " ++ num_to_string failedCount
                          ++ lit " failed")).
Proof.
  unfold downloadSongs.
  destruct (start number_text env options songs) as [e|s0] eqn:Hs; [discriminate|].
  destruct (settled (drain path_join env options schedule s0)) as [[e|rs']|] eqn:Hd;
    try discriminate.
  intros H; inversion H; subst rs' log; clear H.
  exists s0. split; [reflexivity|]. cbv zeta.
  destruct (start_line _ _ _ _ Hs) as (Hline & Hres).
  destruct (start_slots _ _ _ _ Hs) as (Hslots & Hge).
  pose proof (start_started _ _ _ _ Hs) as Hst.
  destruct (drain_settle_order path_join env options schedule s0) as (Hr & Hp).
  assert (Hend : results (drain path_join env options schedule s0) = rs
                 /\ line (drain path_join env options schedule s0) = []).
  { unfold settled in Hd. unfold line.
    destruct (rejected (drain path_join env options schedule s0)); [discriminate|].
    destruct (pq_queue (drain path_join env options schedule s0)); [|discriminate].
    destruct (running (drain path_join env options schedule s0)); [|discriminate].
    inversion Hd. auto. }
  destruct Hend as (Hrs & Hempty).
  rewrite Hrs, Hres in Hr. rewrite Hempty, app_nil_r, Hline in Hp.
  split; [exact Hr|]. split; [exact Hp|]. split; [|split].
  - intros q p job Hc Hn. rewrite Hc in Hslots, Hge.
    assert (Hq : (1 <= q)%Q).
    { apply js_ge_one in Hge as [Hx|(q' & Hx & Hq')]; [discriminate Hx|].
      now inversion Hx; subst. }
    pose proof (@settle_order_position path_join env options q (index_from 0 songs)
                  schedule s0 Hq (indexed_index_from songs) Hslots Hst p job Hn)
      as Hpos.
    rewrite Hres in Hpos. exact Hpos.
  - intros Hc.
    pose proof (@drain_settle_order_serial path_join env options _ schedule s0
                  Hslots Hc) as Hser.
    now rewrite Hempty, app_nil_r, Hline in Hser.
  - eexists _, _. split; [|reflexivity].
    rewrite success_counts.
    assert (Hlen : List.length (map Some rs)
                   = List.length (map (job_result path_join env options)
                                      (settle_order path_join env options schedule s0)))
      by (now rewrite Hr).
    rewrite !length_map in Hlen. rewrite Hlen, (Permutation_length Hp).
    clear. generalize 0. induction songs; intros k; simpl; auto.
Qed.

(** A run of X12: two slots, and the second item settles first. *)
Lemma downloadSongs_results_by_job_witness :
  let options := demo_options (Some (number_of_Z 2)) in
  let songs := [demo_song; other_song] in
  exists rs log,
    downloadSongs decimal_text join_slash failing_env options songs second_first
    = Returned rs log
    /\ map Some rs
       = [Some (failed_result other_song (ErrorObj (lit "Invalid data")));
          Some (completed_result join_slash demo_song (lit "out"))].
Proof.
  intros options songs.
  destruct (downloadSongs decimal_text join_slash failing_env options songs second_first)
    as [rs log| |] eqn:E; try (vm_compute in E; discriminate E).
  exists rs, log. split; [reflexivity|].
  destruct (downloadSongs_results_by_job _ _ _ _ _ _ E) as (s0 & Hs0 & Hord & _).
  rewrite Hord.
  assert (Es0 : s0 = {| pq_concurrency := number_of_Z 2; pq_pending := 2;
                        pq_queue := [];
                        running := [{| job_index := 0; job_song := demo_song |};
                                    {| job_index := 1; job_song := other_song |}];
                        results := []; rejected := None |}).
  { vm_compute in Hs0. inversion Hs0. reflexivity. }
  rewrite Es0. vm_compute. reflexivity.
Defined.

(** With one slot the same schedule leaves the results in the order of the
    batch. *)
Example results_in_batch_order :
  exists rs log,
    downloadSongs decimal_text join_slash failing_env
                  (demo_options (Some (number_of_Z 1)))
                  [demo_song; other_song] second_first = Returned rs log
    /\ map song rs = [demo_song; other_song].
Proof. eexists _, _. split; [vm_compute; reflexivity|reflexivity]. Qed.

(* ----------------------------------------------------------------- *)
(** ** The batch: when it is rejected *)

Lemma js_ge_one_false c :
  js_ge c (number_of_Z 1) = false
  <-> c = NaN \/ c = NegInfinity \/ exists q, c = Num q /\ (q < 1)%Q.
Proof.
  destruct (js_ge c (number_of_Z 1)) eqn:E.
  - apply js_ge_one in E. split; [discriminate|].
    intros [H|[H|(q & H & Hq)]]; destruct E as [E|(q' & E & Hq')];
      try congruence.
    rewrite H in E. inversion E; subst q'.
    destruct (Qlt_not_le _ _ Hq Hq').
  - split; [|reflexivity]. intros _.
    destruct c as [| | |q]; auto; [discriminate E|].
    right. right. exists q. split; [reflexivity|].
    apply Qnot_le_lt. intros Hq.
    assert (Ht : js_ge (Num q) (number_of_Z 1) = true)
      by (apply js_ge_one; right; eauto).
    congruence.
Qed.

(** X13.  [downloadSongs] is rejected by its set-up only; the jobs, whose
    calls of the progress callback, of the logger and of the file system
    return, reject nothing.  The promise is rejected with [e] exactly when
    the staging directory is missing and [fs.mkdirSync] throws [e], or else
    the concurrency (the option, or 5) is no number from 1 up, that is NaN,
    minus infinity or a number below 1, and [e] is the error of the queue
    that quotes it.  With the concurrency omitted and a staging directory
    that is there or can be made, the call is never rejected. *)
Theorem downloadSongs_rejected_at_setup
        number_text path_join env options songs schedule e :
  let c := effective_concurrency options in
  (downloadSongs number_text path_join env options songs schedule = Rejected e
   <-> (staging_exists env = false /\ mkdir_error env = Some e)
       \/ (staging_ready env
           /\ (c = NaN \/ c = NegInfinity \/ exists q, c = Num q /\ (q < 1)%Q)
           /\ e = ErrorObj
                    (lit "Expected `concurrency` to be a number from 1 and up, got `"
                     ++ number_text c ++ lit "` (number)")))
  /\ (concurrency options = None -> staging_ready env ->
      downloadSongs number_text path_join env options songs schedule <> Rejected e).
Proof.
  intros c.
  assert (Hstart : downloadSongs number_text path_join env options songs schedule
                   = Rejected e
                   <-> start number_text env options songs = inl e).
  { unfold downloadSongs. split.
    - destruct (start number_text env options songs) as [e0|s0] eqn:Hs.
      + intros H; inversion H; reflexivity.
      + pose proof (start_batch_inv _ _ _ _ Hs) as Hinv.
        pose proof (drain_batch_inv path_join env options schedule Hinv) as (Hr & _).
        unfold settled. rewrite Hr.
        destruct (pq_queue (drain path_join env options schedule s0)),
                 (running (drain path_join env options schedule s0)); discriminate.
    - intros ->. reflexivity. }
  assert (Hsetup : start number_text env options songs = inl e
                   <-> (staging_exists env = false /\ mkdir_error env = Some e)
                       \/ (staging_ready env
                           /\ js_ge c (number_of_Z 1) = false
                           /\ e = ErrorObj
                                    (lit "Expected `concurrency` to be a number from 1 and up, got `"
                                     ++ number_text c ++ lit "` (number)"))).
  { unfold start, staging_ready, new_PQueue. fold c.
    destruct (staging_exists env); [|destruct (mkdir_error env) as [e0|]];
      cbv iota; destruct (js_ge c (number_of_Z 1)); split; intros H;
      try (inversion H; subst; clear H; auto 6; fail);
      destruct H as [[H1 H2]|[[H1|H1] [H2 H3]]]; subst;
      try discriminate; try reflexivity; congruence. }
  split.
  - rewrite Hstart, Hsetup, js_ge_one_false. reflexivity.
  - intros Hnone Hready Hrej. apply Hstart, Hsetup in Hrej.
    destruct Hrej as [[H1 H2]|[_ [H _]]].
    + destruct Hready as [H|H]; congruence.
    + unfold c, effective_concurrency in H. rewrite Hnone in H. discriminate H.
Qed.

Lemma downloadSongs_rejected_at_setup_witness :
  (forall schedule,
     downloadSongs decimal_text join_slash locked_env (demo_options None)
                   [demo_song] schedule
     = Rejected (ErrorObj (lit "EACCES: permission denied, mkdir")))
  /\ downloadSongs decimal_text join_slash demo_env (demo_options (Some NaN))
                   [demo_song] []
     = Rejected (ErrorObj (lit "Expected `concurrency` to be a number from 1 and up, got `NaN` (number)")).
Proof.
  split.
  - intros schedule.
    apply (proj1 (@downloadSongs_rejected_at_setup decimal_text join_slash locked_env
                    (demo_options None) [demo_song] schedule
                    (ErrorObj (lit "EACCES: permission denied, mkdir")))).
    left. split; reflexivity.
  - apply (proj1 (@downloadSongs_rejected_at_setup decimal_text join_slash demo_env
                    (demo_options (Some NaN)) [demo_song] [] _)).
    right. split; [left; reflexivity|]. split; [left; reflexivity|reflexivity].
Defined.

(* ----------------------------------------------------------------- *)
(** ** The fetcher *)

Section FetcherFacts.

Variable jsnum : Type.
Variable num_truthy : jsnum -> bool.
Variable num_zero : jsnum.
Variable JSON_parse : jsstring -> jsstring + Fetcher.jsval jsnum.
Variable run : jsstring -> Fetcher.ExecOutcome.
Variable playlistId : jsstring.
Variable cookiesFile : option jsstring.

Local Abbreviation truthy := (Fetcher.truthy num_truthy).
Local Abbreviation or_else := (Fetcher.or_else num_truthy).
Local Abbreviation to_song := (Fetcher.to_song num_truthy num_zero).
Local Abbreviation complete_data :=
  (Fetcher.complete_data JSON_parse run playlistId cookiesFile).

Lemma or_else_truthy a b : truthy b = true -> truthy (or_else a b) = true.
Proof. unfold Fetcher.or_else. intros H. now destruct (truthy a) eqn:E. Qed.

Lemma or_else_cases a b : truthy (or_else a b) = true \/ or_else a b = b.
Proof. unfold Fetcher.or_else. destruct (truthy a) eqn:E; auto. Qed.

Lemma to_song_ok e : Fetcher.song_ok num_truthy (to_song e).
Proof.
  unfold Fetcher.song_ok, Fetcher.to_song; simpl. repeat split.
  - now apply or_else_truthy.
  - now repeat apply or_else_truthy.
  - apply or_else_cases.
  - unfold Fetcher.duration_of.
    destruct (Fetcher.get e "duration"); eauto;
      destruct (Fetcher.get e "duration_seconds"); eauto.
  - apply or_else_cases.
Qed.

(** What the first attempt gives is read from data that are there. *)
Lemma complete_metadata_cases :
  match Fetcher.complete_metadata num_truthy JSON_parse run playlistId cookiesFile with
  | Some (data, playlistTitle, uploader) =>
      complete_data data
      /\ truthy playlistTitle = true
      /\ (truthy uploader = true \/ uploader = Fetcher.VUndefined)
  | None => forall data, ~ complete_data data
  end.
Proof.
  unfold Fetcher.complete_metadata.
  destruct (run (Fetcher.command playlistId cookiesFile))
    as [jsonText|stderr message] eqn:Er.
  2:{ intros data (text & Ht & _). rewrite Er in Ht. discriminate Ht. }
  destruct (JSON_parse jsonText) as [m|data] eqn:Ep.
  { intros data (text & Ht & Hp & _). rewrite Er in Ht. inversion Ht; subst. congruence. }
  assert (Hno : data = Fetcher.VNull \/ data = Fetcher.VUndefined ->
                forall data', ~ complete_data data').
  { intros Hd data' (text & Ht & Hp & Hn & Hu). rewrite Er in Ht.
    inversion Ht; subst text. rewrite Ep in Hp. inversion Hp; subst data'.
    destruct Hd; contradiction. }
  assert (Hgot : data <> Fetcher.VNull -> data <> Fetcher.VUndefined ->
                 complete_data data
                 /\ truthy (or_else (Fetcher.get data "title")
                              (or_else (Fetcher.get data "playlist")
                                 (Fetcher.unknown_playlist jsnum))) = true
                 /\ (truthy (or_else (Fetcher.get data "uploader")
                               (or_else (Fetcher.get data "channel")
                                  Fetcher.VUndefined)) = true
                     \/ or_else (Fetcher.get data "uploader")
                          (or_else (Fetcher.get data "channel") Fetcher.VUndefined)
                        = Fetcher.VUndefined)).
  { intros Hn Hu. split; [exists jsonText; auto|]. split.
    - now repeat apply or_else_truthy.
    - destruct (or_else_cases (Fetcher.get data "uploader")
                  (or_else (Fetcher.get data "channel") Fetcher.VUndefined))
        as [H1|H1]; [now left|].
      rewrite H1.
      destruct (or_else_cases (Fetcher.get data "channel") Fetcher.VUndefined)
        as [H2|H2]; [now left|now right]. }
  destruct data; cbv beta iota;
    try (apply Hno; auto; fail); apply Hgot; discriminate.
Qed.

Lemma build_playlist_cases data playlistTitle uploader :
  match Fetcher.build_playlist num_truthy num_zero data playlistTitle uploader with
  | inl e =>
      e = ErrorObj (lit "No videos found in playlist.")
      /\ Fetcher.array_or_empty (Fetcher.get data "entries") = []
  | inr p =>
      Fetcher.array_or_empty (Fetcher.get data "entries") <> []
      /\ Fetcher.name p = playlistTitle
      /\ Fetcher.songs p
         = map to_song (filter truthy (Fetcher.array_or_empty (Fetcher.get data "entries")))
      /\ Fetcher.totalCount p = List.length (Fetcher.songs p)
      /\ Fetcher.uploader p = (if truthy uploader then Some uploader else None)
  end.
Proof.
  unfold Fetcher.build_playlist.
  destruct (Fetcher.array_or_empty (Fetcher.get data "entries")); simpl; auto.
  repeat split; auto. discriminate.
Qed.

Lemma flat_title_truthy entries : truthy (Fetcher.flat_title num_truthy entries) = true.
Proof.
  unfold Fetcher.flat_title.
  destruct entries as [|first rest]; [reflexivity|].
  destruct first; try reflexivity;
    match goal with |- context [if ?c then _ else _] => destruct c eqn:E end;
    auto.
Qed.

Lemma parsed_entries (entries : list (Fetcher.jsval jsnum)) :
  Fetcher.array_or_empty
    (Fetcher.get (Fetcher.VObj [(lit "entries", Fetcher.VArr entries)]) "entries")
  = entries.
Proof. reflexivity. Qed.

End FetcherFacts.

(** X14.  What [fetchPlaylistMetadata] returns.  A playlist it returns has
    a name that is set, as many items as its count tells, and for every
    item a title and an artist that are set, an identifier that is set or
    empty, a number for a duration and a cover link that is set or missing.
    The items are made of the entries that are set, in their order: those of
    the complete metadata, and nothing is printed; or, when the complete
    metadata could not be read, those of the lines of the flat listing that
    parse, after one notice, and then without an uploader.  The entries
    were not empty, but the items can be: entries that are not set are
    dropped after the check. *)
Theorem fetchPlaylistMetadata_playlist
        (jsnum : Type) (num_truthy : jsnum -> bool) (num_zero : jsnum)
        (JSON_parse : jsstring -> jsstring + Fetcher.jsval jsnum)
        (run : jsstring -> Fetcher.ExecOutcome)
        (playlistId : jsstring) (cookiesFile : option jsstring)
        (p : Fetcher.Playlist jsnum) :
  let r := Fetcher.fetchPlaylistMetadata num_truthy num_zero JSON_parse run
             playlistId cookiesFile in
  Fetcher.outcome r = inr p ->
  Fetcher.totalCount p = List.length (Fetcher.songs p)
  /\ Fetcher.truthy num_truthy (Fetcher.name p) = true
  /\ Forall (Fetcher.song_ok num_truthy) (Fetcher.songs p)
  /\ (forall u, Fetcher.uploader p = Some u -> Fetcher.truthy num_truthy u = true)
  /\ exists entries,
       entries <> []
       /\ Fetcher.songs p
          = map (Fetcher.to_song num_truthy num_zero)
                (filter (Fetcher.truthy num_truthy) entries)
       /\ ((Fetcher.logged r = []
            /\ exists data,
                 Fetcher.complete_data JSON_parse run playlistId cookiesFile data
                 /\ entries = Fetcher.array_or_empty (Fetcher.get data "entries"))
           \/ (Fetcher.logged r = [Fetcher.fallback_notice]
               /\ Fetcher.uploader p = None
               /\ (forall data,
                     ~ Fetcher.complete_data JSON_parse run playlistId cookiesFile data)
               /\ exists output,
                    run (Fetcher.flatCommand playlistId cookiesFile) = Fetcher.Output output
                    /\ entries = Fetcher.parse_lines JSON_parse (Fetcher.json_lines output))).
Proof.
  intros r. subst r. unfold Fetcher.fetchPlaylistMetadata.
  pose proof (complete_metadata_cases num_truthy JSON_parse run playlistId cookiesFile)
    as Hfirst.
  destruct (Fetcher.complete_metadata num_truthy JSON_parse run playlistId cookiesFile)
    as [[[data playlistTitle] uploader]|]; cbn [Fetcher.outcome Fetcher.logged].
  - destruct Hfirst as (Hdata & Ht & Hu).
    pose proof (build_playlist_cases num_truthy num_zero data playlistTitle uploader) as Hb.
    destruct (Fetcher.build_playlist num_truthy num_zero data playlistTitle uploader)
      as [e|p']; [discriminate|].
    intros H; inversion H; subst p'; clear H.
    destruct Hb as (Hne & Hn & Hs & Hc & Hup).
    split; [exact Hc|]. split; [now rewrite Hn|]. split.
    { rewrite Hs. apply Forall_map, Forall_forall. intros e _. apply to_song_ok. }
    split.
    { intros u Hu'. rewrite Hup in Hu'.
      destruct (Fetcher.truthy num_truthy uploader) eqn:E; [|discriminate].
      inversion Hu'; subst. exact E. }
    exists (Fetcher.array_or_empty (Fetcher.get data "entries")).
    split; [exact Hne|]. split; [exact Hs|]. left. eauto.
  - unfold Fetcher.flat_metadata.
    destruct (run (Fetcher.flatCommand playlistId cookiesFile))
      as [output|stderr message]; [|discriminate].
    destruct (Fetcher.json_lines output) as [|line lines] eqn:El; [discriminate|].
    pose proof (build_playlist_cases num_truthy num_zero
                  (Fetcher.VObj [(lit "entries",
                                  Fetcher.VArr (Fetcher.parse_lines JSON_parse (line :: lines)))])
                  (Fetcher.flat_title num_truthy
                     (Fetcher.parse_lines JSON_parse (line :: lines)))
                  Fetcher.VUndefined) as Hb.
    destruct (Fetcher.build_playlist _ _ _ _ _) as [e|p']; [discriminate|].
    intros H; inversion H; subst p'; clear H.
    destruct Hb as (Hne & Hn & Hs & Hc & Hup).
    rewrite parsed_entries in Hne, Hs. simpl in Hup.
    split; [exact Hc|]. split; [rewrite Hn; apply flat_title_truthy|]. split.
    { rewrite Hs. apply Forall_map, Forall_forall. intros e _. apply to_song_ok. }
    split; [intros u Hu; congruence|].
    exists (Fetcher.parse_lines JSON_parse (line :: lines)).
    split; [exact Hne|]. split; [exact Hs|]. right.
    split; [reflexivity|]. split; [exact Hup|]. split; [exact Hfirst|].
    exists output. split; [reflexivity|]. now rewrite El.
Qed.

Lemma fetchPlaylistMetadata_playlist_witness :
  let fetched (id : string) :=
    Fetcher.fetchPlaylistMetadata Fetcher.toy_truthy 0 Fetcher.toy_parse
      Fetcher.toy_run (lit id) None in
  (exists p, Fetcher.outcome (fetched "PLnull"%string) = inr p
             /\ Fetcher.songs p = [] /\ Fetcher.totalCount p = 0
             /\ Fetcher.logged (fetched "PLnull"%string) = [])
  /\ (exists p s, Fetcher.outcome (fetched "PLflat"%string) = inr p
                  /\ Fetcher.songs p = [s]
                  /\ Fetcher.title s = Fetcher.VStr (lit "Unknown")
                  /\ Fetcher.duration s = Fetcher.VNum 0
                  /\ Fetcher.name p = Fetcher.VStr (lit "Flat")
                  /\ Fetcher.uploader p = None).
Proof.
  intros fetched. split.
  - destruct (Fetcher.outcome (fetched "PLnull"%string)) as [e|p] eqn:E;
      [vm_compute in E; discriminate E|].
    exists p.
    destruct (@fetchPlaylistMetadata_playlist nat Fetcher.toy_truthy 0 Fetcher.toy_parse
                Fetcher.toy_run (lit "PLnull") None p E)
      as (Hc & _ & _ & _ & entries & _ & Hs & [(Hl & data & _ & He)|(Hl & _)]).
    + split; [reflexivity|].
      assert (Hsongs : Fetcher.songs p = []) by (vm_compute in E; now inversion E).
      split; [exact Hsongs|]. split; [now rewrite Hc, Hsongs|exact Hl].
    + vm_compute in Hl. discriminate Hl.
  - destruct (Fetcher.outcome (fetched "PLflat"%string)) as [e|p] eqn:E;
      [vm_compute in E; discriminate E|].
    destruct (@fetchPlaylistMetadata_playlist nat Fetcher.toy_truthy 0 Fetcher.toy_parse
                Fetcher.toy_run (lit "PLflat") None p E)
      as (_ & _ & _ & _ & entries & _ & _ & [(Hl & _)|(_ & Hup & _)]).
    + vm_compute in Hl. discriminate Hl.
    + vm_compute in E. inversion E; subst p. eexists _, _.
      split; [reflexivity|]. repeat split.
Defined.



(** X16.  What [fetchSongDetails] gives.  When it returns, the identifier
    and the download link of the item are the identifier it was called
    with, the title and the artist are set, the duration is set or the
    number 0 (it need not be a number), and the cover link is set or
    missing.  It returns exactly when the tool ends well and prints JSON
    other than [null]; every error it throws is an [Error] whose message
    begins with [Failed to fetch song details for ], the identifier and a
    colon. *)
Theorem fetchSongDetails_outcome
        (jsnum : Type) (num_truthy : jsnum -> bool) (num_zero : jsnum)
        (JSON_parse : jsstring -> jsstring + Fetcher.jsval jsnum)
        (run : jsstring -> Fetcher.ExecOutcome)
        (null_property_message : jsstring)
        (videoId : jsstring) (cookiesFile : option jsstring) :
  match Fetcher.fetchSongDetails num_truthy num_zero JSON_parse run
          null_property_message videoId cookiesFile with
  | inr s =>
      Fetcher.id s = Fetcher.VStr videoId
      /\ Fetcher.downloadUrl s = Fetcher.VStr videoId
      /\ Fetcher.truthy num_truthy (Fetcher.title s) = true
      /\ Fetcher.truthy num_truthy (Fetcher.artist s) = true
      /\ (Fetcher.truthy num_truthy (Fetcher.duration s) = true
          \/ Fetcher.duration s = Fetcher.VNum num_zero)
      /\ (Fetcher.truthy num_truthy (Fetcher.coverUrl s) = true
          \/ Fetcher.coverUrl s = Fetcher.VUndefined)
      /\ exists output data,
           run (Fetcher.details_command videoId cookiesFile) = Fetcher.Output output
           /\ JSON_parse output = inr data
           /\ data <> Fetcher.VNull
  | inl e =>
      (exists m, e = ErrorObj (lit "Failed to fetch song details for " ++ videoId
                               ++ lit ": " ++ m))
      /\ forall output data,
           run (Fetcher.details_command videoId cookiesFile) = Fetcher.Output output ->
           JSON_parse output = inr data ->
           data = Fetcher.VNull \/ data = Fetcher.VUndefined
  end.
Proof.
  unfold Fetcher.fetchSongDetails, Fetcher.details_failure.
  destruct (run (Fetcher.details_command videoId cookiesFile))
    as [output|stderr message].
  2:{ split; [eauto|]. intros output data H. discriminate H. }
  destruct (JSON_parse output) as [m|data] eqn:Ep.
  { split; [eauto|]. intros o d H Hp. inversion H; subst o. congruence. }
  assert (Hnull : data = Fetcher.VNull \/ data = Fetcher.VUndefined ->
    forall o d, Fetcher.Output output = Fetcher.Output o ->
                JSON_parse o = inr d -> d = Fetcher.VNull \/ d = Fetcher.VUndefined).
  { intros Hd o d H Hp. inversion H; subst o. rewrite Ep in Hp. now inversion Hp; subst. }
  destruct data; cbn [Fetcher.id Fetcher.downloadUrl Fetcher.title Fetcher.artist
                      Fetcher.duration Fetcher.coverUrl];
    try (split; [eauto|apply Hnull; auto]; fail);
    (split; [reflexivity|]); (split; [reflexivity|]);
    (split; [now apply or_else_truthy|]); (split; [now apply or_else_truthy|]);
    (split; [apply or_else_cases|]); (split; [apply or_else_cases|]);
    exists output; eexists; (split; [reflexivity|]); (split; [exact Ep|discriminate]).
Qed.

Lemma fetchSongDetails_outcome_witness :
  (exists s,
     Fetcher.fetchSongDetails Fetcher.toy_truthy 0 Fetcher.toy_parse Fetcher.toy_run
       (lit "Cannot read properties of null") (lit "a") None = inr s
     /\ Fetcher.id s = Fetcher.VStr (lit "a")
     /\ Fetcher.duration s = Fetcher.VStr (lit "3:21"))
  /\ exists m,
       Fetcher.fetchSongDetails Fetcher.toy_truthy 0 Fetcher.toy_parse Fetcher.toy_run
         (lit "Cannot read properties of null") (lit "b") None
       = inl (ErrorObj (lit "Failed to fetch song details for b: " ++ m)).
Proof.
  split.
  - pose proof (@fetchSongDetails_outcome nat Fetcher.toy_truthy 0 Fetcher.toy_parse
                  Fetcher.toy_run (lit "Cannot read properties of null") (lit "a") None)
      as H.
    destruct (Fetcher.fetchSongDetails _ _ _ _ _ _ _) as [e|s] eqn:E;
      [vm_compute in E; discriminate E|].
    exists s. split; [reflexivity|]. split; [apply H|].
    vm_compute in E. inversion E. reflexivity.
  - pose proof (@fetchSongDetails_outcome nat Fetcher.toy_truthy 0 Fetcher.toy_parse
                  Fetcher.toy_run (lit "Cannot read properties of null") (lit "b") None)
      as H.
    destruct (Fetcher.fetchSongDetails _ _ _ _ _ _ _) as [e|s] eqn:E;
      [|vm_compute in E; discriminate E].
    destruct H as ((m & ->) & _). exists m. reflexivity.
Defined.

(** [includes] is containment. *)
Lemma starts_with_prefix p : forall tail, starts_with p (p ++ tail) = Some tail.
Proof.
  induction p as [|a p IH]; intros tail; simpl; [now destruct tail|].
  now rewrite N.eqb_refl.
Qed.

Lemma includes_infix needle : forall text,
  Fetcher.includes needle text = true <-> exists a b, text = a ++ needle ++ b.
Proof.
  induction text as [|c text IH]; simpl.
  - destruct (starts_with needle []) as [tail|] eqn:E.
    + split; [|reflexivity]. intros _. apply starts_with_app in E.
      exists [], tail. exact E.
    + split; [discriminate|]. intros (a & b & H).
      destruct a; [|discriminate]. simpl in H. rewrite H in E.
      rewrite starts_with_prefix in E. discriminate.
  - destruct (starts_with needle (c :: text)) as [tail|] eqn:E.
    + split; [|reflexivity]. intros _. apply starts_with_app in E.
      exists [], tail. exact E.
    + rewrite IH. split.
      * intros (a & b & ->). exists (c :: a), b. reflexivity.
      * intros (a & b & H). destruct a as [|c' a]; simpl in H.
        -- rewrite H in E. rewrite starts_with_prefix in E. discriminate.
        -- inversion H; subst. eauto.
Qed.

(* ----------------------------------------------------------------- *)
(** ** The last progress event of a job *)

Lemma count_status_app st a b :
  count_status st (a ++ b) = count_status st a + count_status st b.
Proof.
  unfold count_status. now rewrite progress_list_app, filter_app, length_app.
Qed.

Lemma count_status_downloading st t n :
  st <> downloading ->
  progress_list t = repeat (downloading, 0%Z) n -> count_status st t = 0.
Proof.
  intros Hst Ht. unfold count_status. rewrite Ht. clear Ht.
  induction n as [|n IH]; [reflexivity|]. simpl.
  destruct st; try contradiction; exact IH.
Qed.

Lemma count_status_cleanup st path w : count_status st (cleanup_events path w) = 0.
Proof. unfold cleanup_events. now destruct (existsb _ _). Qed.

(** X17.  The last word of a job to its progress callback.  A job that
    returns a success has reported [completed] exactly once, as its last
    event, and never [failed]; a job that returns a failure has reported
    [failed] exactly once, with the error text of its result, followed only
    by the line of the logger, and never [completed]; a job that has not
    returned has reported neither.  So a caller that counts the two kinds of
    events, as the command line does, counts the successes and the failures
    of the results. *)
Theorem progress_ends_with_result path_join theSong dir cookies (w : World) :
  let o := downloadSong path_join theSong dir cookies w in
  let t := emitted w (world_of o) in
  match o with
  | Ret r _ =>
      count_status completed t = (if success r then 1 else 0)
      /\ count_status failed t = (if success r then 0 else 1)
      /\ (success r = true ->
          exists front, t = front ++ [completed_event theSong])
      /\ (success r = false ->
          exists front e,
            t = front ++ [failed_event theSong e; failure_log theSong e]
            /\ error r = Some (message_of e))
  | Throw _ _ => False
  | Waiting _ => count_status completed t = 0 /\ count_status failed t = 0
  end.
Proof.
  intros o t. subst t.
  pose proof (downloadSong_run path_join theSong dir cookies w) as Hrun.
  fold o in Hrun. clearbody o.
  assert (Hloop : forall o1,
    attempt_run path_join theSong dir cookies 1 w o1 ->
    exists t1, trace (world_of o1) = trace w ++ t1
               /\ count_status completed t1 = 0 /\ count_status failed t1 = 0).
  { intros o1 H1. destruct (attempt_run_trace H1) as (t1 & Ht1 & Hp & _).
    exists t1. split; [exact Ht1|].
    split; eapply count_status_downloading; eauto; discriminate. }
  inversion Hrun as [w1 H1 Ho|e w1 w2 H1 Ht2 Ho|w1 w2 H1 Hf Ht2 Ho
                    |w1 e w2 w3 H1 Hf Ht2 Ht3 Ho|w1 w2 w3 H1 Hf Ht2 Ht3 Ho];
    destruct (Hloop _ H1) as (t1 & Ht1 & Hc1 & Hf1); simpl in Ht1; subst o;
    simpl world_of.
  - rewrite (@emitted_unique _ _ _ Ht1). auto.
  - assert (Ht : trace w2 = trace w ++ (t1 ++ cleanup_events (tempAudioPath path_join theSong dir) w1)
                                      ++ [failed_event theSong e; failure_log theSong e])
      by (rewrite Ht2, Ht1; unfold failure_events; now rewrite <- !app_assoc).
    rewrite (@emitted_unique _ _ _ Ht). simpl success. cbv iota.
    rewrite !count_status_app, Hc1, Hf1, !count_status_cleanup.
    repeat split; try reflexivity; [discriminate|].
    intros _. eexists _, e. split; reflexivity.
  - assert (Ht : trace w2 = trace w ++ t1 ++ [converting_event theSong;
                   Ffmpeg (tempAudioPath path_join theSong dir)
                          (outputPath path_join theSong dir)])
      by (rewrite Ht2, Ht1; now rewrite <- !app_assoc).
    rewrite (@emitted_unique _ _ _ Ht).
    rewrite !count_status_app, Hc1, Hf1. split; reflexivity.
  - assert (Ht : trace w3 = trace w ++ (t1 ++ [converting_event theSong;
                   Ffmpeg (tempAudioPath path_join theSong dir)
                          (outputPath path_join theSong dir)]
                   ++ cleanup_events (tempAudioPath path_join theSong dir) w2)
                   ++ [failed_event theSong e; failure_log theSong e])
      by (rewrite Ht3, Ht2, Ht1; unfold failure_events; now rewrite <- !app_assoc).
    rewrite (@emitted_unique _ _ _ Ht). simpl success. cbv iota.
    rewrite !count_status_app, Hc1, Hf1, !count_status_cleanup.
    repeat split; try reflexivity; [discriminate|].
    intros _. eexists _, e. split; reflexivity.
  - assert (Ht : trace w3 = trace w ++ (t1 ++ [converting_event theSong;
                   Ffmpeg (tempAudioPath path_join theSong dir)
                          (outputPath path_join theSong dir)]
                   ++ cleanup_events (tempAudioPath path_join theSong dir) w2)
                   ++ [completed_event theSong])
      by (rewrite Ht3, Ht2, Ht1; now rewrite <- !app_assoc).
    rewrite (@emitted_unique _ _ _ Ht). simpl success. cbv iota.
    rewrite !count_status_app, Hc1, Hf1, !count_status_cleanup.
    repeat split; try reflexivity; [|discriminate].
    intros _. eexists. reflexivity.
Qed.

Lemma progress_ends_with_result_witness :
  let e0 := ErrorObj (lit "ffmpeg exited with code 1") in
  let w := world0 [true] [Fetched] [TranscodeFailed e0] in
  let o := downloadSong join_slash demo_song (lit "out") None w in
  let t := emitted w (world_of o) in
  result_of o = Some (failed_result demo_song e0)
  /\ count_status failed t = 1 /\ count_status completed t = 0
  /\ exists front e,
       t = front ++ [failed_event demo_song e; failure_log demo_song e]
       /\ message_of e = message_of e0.
Proof.
  intros e0 w o t.
  assert (E : o = Ret (failed_result demo_song e0) (world_of o))
    by (vm_compute; reflexivity).
  pose proof (@progress_ends_with_result join_slash demo_song (lit "out") None w) as H.
  fold o in H. rewrite E in H.
  cbv beta iota zeta delta [failed_result success error world_of] in H.
  fold (world_of o) in H. fold t in H.
  destruct H as (Hc & Hf & _ & Hlast).
  destruct (Hlast eq_refl) as (front & e & Ht & He).
  split; [rewrite E; reflexivity|]. split; [exact Hf|]. split; [exact Hc|].
  exists front, e. split; [exact Ht|]. now inversion He.
Defined.

(* ----------------------------------------------------------------- *)
(** ** The tagger *)

Section TaggerFacts.

Variable cover : jsstring -> Tagger.CoverOutcome.
Variable write : Tagger.Tags -> jsstring -> Tagger.WriteOutcome.

Local Abbreviation addMetadata := (Tagger.addMetadata cover write).
Local Abbreviation tags_for := (Tagger.tags_for cover).
Local Abbreviation cover_refused := (Tagger.cover_refused cover).
Local Abbreviation cover_pending := (Tagger.cover_pending cover).

Lemma write_tags_facts path theSong img :
  let r := Tagger.write_tags write path theSong img in
  let tags := {| Tagger.tag_title := song_title theSong;
                 Tagger.tag_artist := song_artist theSong;
                 Tagger.image := img |} in
  Tagger.writes (fst r) = [(tags, path)]
  /\ (snd r = true <-> write tags path = Tagger.WriteReturns true)
  /\ List.length (Tagger.prints (fst r)) = (if snd r then 0 else 1)
  /\ existsb Tagger.is_completion (fst r) = false.
Proof.
  unfold Tagger.write_tags. cbv zeta.
  destruct (write _ path) as [[|]|e]; simpl; repeat split; auto; discriminate.
Qed.

(** One call.  It stays unsettled exactly when the request for the cover
    does, and has then done nothing but the request.  Otherwise there is one
    write, unless the request is refused; the value is [true] exactly when
    the write returns a value that is set; the logger has a line exactly when
    the value is [false]. *)
Lemma addMetadata_facts path theSong :
  let r := addMetadata path theSong in
  (snd r = None <-> cover_pending theSong = true)
  /\ (snd r = None ->
      exists url, coverUrl theSong = Some url /\ fst r = [Tagger.HttpsGet url])
  /\ Tagger.writes (fst r)
     = (if cover_refused theSong || cover_pending theSong then []
        else [(tags_for theSong, path)])
  /\ (snd r = Some true <->
      cover_refused theSong = false /\ cover_pending theSong = false
      /\ write (tags_for theSong) path = Tagger.WriteReturns true)
  /\ List.length (Tagger.prints (fst r)) = (if Tagger.returned_false (snd r) then 1 else 0)
  /\ existsb Tagger.is_completion (fst r) = false.
Proof.
  unfold Tagger.addMetadata, Tagger.cover_refused, Tagger.cover_pending,
    Tagger.tags_for, Tagger.cover_bytes.
  cbv zeta.
  assert (Hplain : forall img,
    let r := Tagger.write_tags write path theSong img in
    let tags := {| Tagger.tag_title := song_title theSong;
                   Tagger.tag_artist := song_artist theSong;
                   Tagger.image := img |} in
    Tagger.writes (fst r) = [(tags, path)]
    /\ (Some (snd r) = Some true <-> write tags path = Tagger.WriteReturns true)
    /\ List.length (Tagger.prints (fst r))
       = (if Tagger.returned_false (Some (snd r)) then 1 else 0)
    /\ existsb Tagger.is_completion (fst r) = false).
  { intros img. destruct (write_tags_facts path theSong img) as (Hw & Hr & Hp & Hc).
    cbv zeta. rewrite Hw, Hp, Hc, <- Hr.
    repeat split; try congruence.
    destruct (snd (Tagger.write_tags write path theSong img)); reflexivity. }
  destruct (coverUrl theSong) as [[|c rest]|].
  - destruct (Hplain None) as (Hw & Hr & Hp & Hc).
    destruct (Tagger.write_tags write path theSong None) as [effects ok].
    simpl in *. rewrite Hw, Hr, Hp, Hc.
    repeat split; try discriminate; tauto.
  - destruct (cover (c :: rest)) as [bytes| |e|].
    + destruct (Hplain (Some (Tagger.cover_image bytes))) as (Hw & Hr & Hp & Hc).
      destruct (Tagger.write_tags write path theSong (Some (Tagger.cover_image bytes)))
        as [effects ok].
      simpl in *. rewrite Hw, Hr, Hp, Hc.
      repeat split; try discriminate; tauto.
    + destruct (Hplain None) as (Hw & Hr & Hp & Hc).
      destruct (Tagger.write_tags write path theSong None) as [effects ok].
      simpl in *. rewrite Hw, Hr, Hp, Hc.
      repeat split; try discriminate; tauto.
    + simpl. repeat split; try discriminate. intros (H & _). discriminate H.
    + simpl. repeat split; try discriminate; eauto.
      intros (_ & H & _). discriminate H.
  - destruct (Hplain None) as (Hw & Hr & Hp & Hc).
    destruct (Tagger.write_tags write path theSong None) as [effects ok].
    simpl in *. rewrite Hw, Hr, Hp, Hc.
    repeat split; try discriminate; tauto.
Qed.

End TaggerFacts.

Lemma writes_app a b : Tagger.writes (a ++ b) = Tagger.writes a ++ Tagger.writes b.
Proof. unfold Tagger.writes. apply flat_map_app. Qed.

Lemma prints_app a b : Tagger.prints (a ++ b) = Tagger.prints a ++ Tagger.prints b.
Proof. unfold Tagger.prints. apply filter_app. Qed.

Section TaggerLoop.

Variable cover : jsstring -> Tagger.CoverOutcome.
Variable write : Tagger.Tags -> jsstring -> Tagger.WriteOutcome.
Variable existsSync : jsstring -> bool.

Local Abbreviation tag_each := (Tagger.tag_each cover write existsSync).
Local Abbreviation served := (Tagger.served cover existsSync).
Local Abbreviation stuck := (Tagger.stuck cover existsSync).
Local Abbreviation call :=
  (fun job => Tagger.addMetadata cover write (Tagger.filePath job) (Tagger.song job)).
Local Abbreviation tagged_of :=
  (filter (fun job => existsSync (Tagger.filePath job)
                      && negb (Tagger.cover_refused cover (Tagger.song job)))).
Local Abbreviation refusals_of :=
  (fun files =>
     filter (fun job => Tagger.returned_false (snd (call job)))
            (filter (fun job => existsSync (Tagger.filePath job)) files)).

(** The loop comes to its end exactly when no call stays unsettled. *)
Lemma tag_each_done files :
  snd (tag_each files) = true <-> forallb (fun job => negb (stuck job)) files = true.
Proof.
  induction files as [|job rest IH]; [simpl; tauto|].
  cbn [Tagger.tag_each forallb]. unfold Tagger.stuck at 1.
  destruct (existsSync (Tagger.filePath job)); [|exact IH].
  destruct (addMetadata_facts cover write (Tagger.filePath job) (Tagger.song job))
    as (Hn & _).
  destruct (call job) as [effects [ok|]] eqn:Ec; simpl in Hn.
  - destruct (Tagger.cover_pending cover (Tagger.song job));
      [discriminate (proj2 Hn eq_refl)|].
    destruct (tag_each rest) as [more done]. simpl in *. exact IH.
  - rewrite (proj1 Hn eq_refl). simpl. split; discriminate.
Qed.

Lemma served_all files :
  forallb (fun job => negb (stuck job)) files = true -> served files = files.
Proof.
  induction files as [|job rest IH]; [reflexivity|].
  cbn [forallb Tagger.served]. destruct (stuck job); [discriminate|].
  intros H. now rewrite IH.
Qed.

(** Where the loop stops when it does not come to its end. *)
Lemma served_stops files :
  forallb (fun job => negb (stuck job)) files = false ->
  exists job rest, files = served files ++ job :: rest /\ stuck job = true.
Proof.
  induction files as [|job rest IH]; [discriminate|].
  cbn [forallb Tagger.served]. destruct (stuck job) eqn:Es.
  - intros _. exists job, rest. auto.
  - intros H. destruct (IH H) as (j & r & Hf & Hs).
    exists j, r. split; [|exact Hs]. simpl. now f_equal.
Qed.

Lemma loop_writes files :
  Tagger.writes (fst (tag_each files))
  = map (fun job => (Tagger.tags_for cover (Tagger.song job), Tagger.filePath job))
        (tagged_of (served files)).
Proof.
  induction files as [|job rest IH]; [reflexivity|].
  cbn [Tagger.tag_each Tagger.served]. unfold Tagger.stuck at 1.
  destruct (existsSync (Tagger.filePath job)) eqn:Ee;
    [|cbn [andb filter]; rewrite Ee; exact IH].
  destruct (addMetadata_facts cover write (Tagger.filePath job) (Tagger.song job))
    as (Hn & _ & Hw & _).
  destruct (call job) as [effects [ok|]] eqn:Ec; simpl in Hn, Hw.
  - destruct (Tagger.cover_pending cover (Tagger.song job));
      [discriminate (proj2 Hn eq_refl)|].
    destruct (tag_each rest) as [more done]. simpl in *.
    rewrite Ee, writes_app, Hw, IH, orb_false_r.
    destruct (Tagger.cover_refused cover (Tagger.song job)); reflexivity.
  - rewrite (proj1 Hn eq_refl) in *. simpl. rewrite Hw, orb_true_r. reflexivity.
Qed.

Lemma loop_prints files :
  List.length (Tagger.prints (fst (tag_each files)))
  = List.length (refusals_of (served files)).
Proof.
  induction files as [|job rest IH]; [reflexivity|].
  cbn [Tagger.tag_each Tagger.served]. unfold Tagger.stuck at 1.
  destruct (existsSync (Tagger.filePath job)) eqn:Ee;
    [|cbn [andb filter]; rewrite Ee; exact IH].
  destruct (addMetadata_facts cover write (Tagger.filePath job) (Tagger.song job))
    as (Hn & _ & _ & _ & Hp & _).
  destruct (call job) as [effects [ok|]] eqn:Ec; simpl in Hn, Hp.
  - destruct (Tagger.cover_pending cover (Tagger.song job));
      [discriminate (proj2 Hn eq_refl)|].
    destruct (tag_each rest) as [more done]. simpl in *.
    rewrite Ee. cbn [filter]. rewrite Ec. cbn [snd].
    rewrite prints_app, length_app, Hp, IH.
    destruct ok; reflexivity.
  - rewrite (proj1 Hn eq_refl). simpl. exact Hp.
Qed.

Lemma loop_no_completion files :
  existsb Tagger.is_completion (fst (tag_each files)) = false.
Proof.
  induction files as [|job rest IH]; [reflexivity|].
  cbn [Tagger.tag_each].
  destruct (existsSync (Tagger.filePath job)); [|exact IH].
  destruct (addMetadata_facts cover write (Tagger.filePath job) (Tagger.song job))
    as (_ & _ & _ & _ & _ & Hc).
  destruct (call job) as [effects [ok|]]; simpl in Hc; [|exact Hc].
  destruct (tag_each rest) as [more done]. simpl in *.
  now rewrite existsb_app, Hc, IH.
Qed.

(** The last thing a loop did that does not come to its end: the request
    for a cover. *)
Lemma loop_last files :
  snd (tag_each files) = false ->
  exists job rest url,
    files = served files ++ job :: rest
    /\ existsSync (Tagger.filePath job) = true
    /\ coverUrl (Tagger.song job) = Some url
    /\ cover url = Tagger.CoverPending
    /\ exists before, fst (tag_each files) = before ++ [Tagger.HttpsGet url].
Proof.
  induction files as [|job rest IH]; [discriminate|].
  cbn [Tagger.tag_each Tagger.served]. unfold Tagger.stuck at 1.
  destruct (existsSync (Tagger.filePath job)) eqn:Ee.
  - destruct (addMetadata_facts cover write (Tagger.filePath job) (Tagger.song job))
      as (Hn & Hu & _).
    destruct (call job) as [effects [ok|]] eqn:Ec; simpl in Hn, Hu.
    + destruct (Tagger.cover_pending cover (Tagger.song job));
        [discriminate (proj2 Hn eq_refl)|].
      destruct (tag_each rest) as [more done]. simpl in *.
      intros Hd. destruct (IH Hd) as (j & r & url & Hf & He & Hc & Hp & before & Hb).
      exists j, r, url. repeat split; auto; [now f_equal|].
      exists (effects ++ before). now rewrite Hb, app_assoc.
    + intros _. pose proof (proj1 Hn eq_refl) as Hpend. rewrite Hpend. simpl.
      destruct (Hu eq_refl) as (url & Hc & Hf).
      exists job, rest, url. repeat split; auto.
      * unfold Tagger.cover_pending in Hpend. rewrite Hc in Hpend.
        destruct url as [|c u]; [discriminate|].
        destruct (cover (c :: u)); try discriminate. reflexivity.
      * exists []. exact Hf.
  - cbn [andb]. intros Hd.
    destruct (IH Hd) as (j & r & url & Hf & He & Hc & Hp & before & Hb).
    exists j, r, url. repeat split; auto; [simpl; now f_equal|]. eauto.
Qed.

End TaggerLoop.

(** X18.  What [addMetadataToFiles] writes.  Its promise is fulfilled exactly
    when no file of the list that exists has a cover whose request never
    settles; otherwise the loop stops for ever at the first such file, the
    request for its cover being the last thing done, and the line of
    completion is not printed.  Up to there, and over the whole list when
    there is no such file, the tags are written once for every file that
    exists and whose cover, if it has a link, is not refused at once, in the
    order of the list: a write that fails or throws stops nothing.  The tags
    of a file carry the title and the artist of its item, and the cover
    exactly when the item has a link whose request gives the bytes.  The
    first line tells the number of files of the list, missing ones included;
    a fulfilled call ends with the line of completion; in between there is
    one line for each call of [addMetadata] that returned [false], and such
    a call returns [true] exactly when the request for the cover is neither
    refused nor left unsettled and the write returns a value that is set. *)
Theorem addMetadataToFiles_writes
        (cover : jsstring -> Tagger.CoverOutcome)
        (write : Tagger.Tags -> jsstring -> Tagger.WriteOutcome)
        (existsSync : jsstring -> bool) (files : list Tagger.TagJob) :
  let effects := fst (Tagger.addMetadataToFiles cover write existsSync files) in
  let fulfilled := snd (Tagger.addMetadataToFiles cover write existsSync files) in
  let done := Tagger.served cover existsSync files in
  let tagged :=
    filter (fun job => existsSync (Tagger.filePath job)
                       && negb (Tagger.cover_refused cover (Tagger.song job))) done in
  let called := filter (fun job => existsSync (Tagger.filePath job)) done in
  let value job :=
    snd (Tagger.addMetadata cover write (Tagger.filePath job) (Tagger.song job)) in
  (fulfilled = true
   <-> forall job, In job files -> Tagger.stuck cover existsSync job = false)
  /\ (if fulfilled
      then done = files
           /\ last effects (Tagger.HttpsGet [])
              = Tagger.success (lit "Metadata addition complete")
      else exists job rest url,
             files = done ++ job :: rest
             /\ existsSync (Tagger.filePath job) = true
             /\ coverUrl (Tagger.song job) = Some url
             /\ cover url = Tagger.CoverPending
             /\ last effects (Tagger.HttpsGet []) = Tagger.HttpsGet url
             /\ ~ In (Tagger.success (lit "Metadata addition complete")) effects)
  /\ Tagger.writes effects
     = map (fun job => (Tagger.tags_for cover (Tagger.song job), Tagger.filePath job))
           tagged
  /\ (forall job,
        Tagger.tag_title (Tagger.tags_for cover (Tagger.song job))
        = song_title (Tagger.song job)
        /\ Tagger.tag_artist (Tagger.tags_for cover (Tagger.song job))
           = song_artist (Tagger.song job)
        /\ (Tagger.image (Tagger.tags_for cover (Tagger.song job)) <> None
            <-> exists url bytes,
                  coverUrl (Tagger.song job) = Some url /\ url <> []
                  /\ cover url = Tagger.CoverBuffer bytes)
        /\ (value job = Some true
            <-> Tagger.cover_refused cover (Tagger.song job) = false
                /\ Tagger.cover_pending cover (Tagger.song job) = false
                /\ write (Tagger.tags_for cover (Tagger.song job)) (Tagger.filePath job)
                   = Tagger.WriteReturns true))
  /\ hd_error effects
     = Some (Tagger.info (lit "Adding metadata to "
                          ++ num_to_string (List.length files) ++ lit " files..."))
  /\ List.length (Tagger.prints effects)
     = (if fulfilled then 2 else 1)
       + List.length (filter (fun job => Tagger.returned_false (value job)) called).
Proof.
  cbv zeta. unfold Tagger.addMetadataToFiles.
  pose proof (tag_each_done cover write existsSync files) as Hdone.
  pose proof (loop_writes cover write existsSync files) as Hwrites.
  pose proof (loop_prints cover write existsSync files) as Hprints.
  pose proof (loop_no_completion cover write existsSync files) as Hnone.
  pose proof (loop_last cover write existsSync files) as Hlast.
  destruct (Tagger.tag_each cover write existsSync files) as [effects done] eqn:Et.
  cbn [fst snd] in *.
  split; [|split; [|split; [|split; [|split; [reflexivity|]]]]].
  - rewrite Hdone, forallb_forall. split; intros H job Hin.
    + specialize (H job Hin). now destruct (Tagger.stuck cover existsSync job).
    + now rewrite (H job Hin).
  - destruct done.
    + split; [apply served_all; now apply Hdone|].
      rewrite app_comm_cons. apply last_last.
    + destruct (Hlast eq_refl) as (job & rest & url & Hf & He & Hc & Hp & before & Hb).
      exists job, rest, url. repeat split; auto.
      * rewrite app_nil_r, Hb, app_comm_cons. apply last_last.
      * rewrite app_nil_r. intros [H|H]; [discriminate H|].
        assert (Hx : existsb Tagger.is_completion effects = true);
          [|rewrite Hnone in Hx; discriminate Hx].
        apply existsb_exists. eexists. split; [exact H|reflexivity].
  - change (Tagger.writes (Tagger.info ?m :: ?l)) with (Tagger.writes l).
    rewrite writes_app, Hwrites.
    destruct done; simpl; now rewrite app_nil_r.
  - intros job.
    destruct (addMetadata_facts cover write (Tagger.filePath job) (Tagger.song job))
      as (_ & _ & _ & Htrue & _).
    split; [reflexivity|]. split; [reflexivity|]. split; [|exact Htrue].
    unfold Tagger.tags_for, Tagger.cover_bytes. simpl.
    destruct (coverUrl (Tagger.song job)) as [[|c url]|] eqn:Eu; simpl.
    + split; [congruence|]. intros (url & bytes & H & Hne & _). congruence.
    + destruct (cover (c :: url)) as [bytes| |e|] eqn:Ec; simpl;
        try (split; [congruence|]; intros (url' & bytes & H & _ & Hc);
             inversion H; subst; congruence).
      split; [|discriminate]. intros _. exists (c :: url), bytes.
      repeat split; auto. discriminate.
    + split; [congruence|]. intros (url & bytes & H & _). discriminate.
  - change (Tagger.prints (Tagger.info ?m :: ?l)) with (Tagger.info m :: Tagger.prints l).
    cbn [List.length]. rewrite prints_app, length_app, Hprints.
    destruct done; simpl; lia.
Qed.

Lemma addMetadataToFiles_writes_witness :
  let files := toy_files ++ slow_files in
  let effects := fst (Tagger.addMetadataToFiles toy_cover toy_write toy_exists files) in
  snd (Tagger.addMetadataToFiles toy_cover toy_write toy_exists files) = false
  /\ map snd (Tagger.writes effects) = [lit "out/locked.mp3"; lit "out/fine.mp3"]
  /\ List.length (Tagger.prints effects) = 2
  /\ snd (Tagger.addMetadataToFiles toy_cover toy_write toy_exists toy_files) = true.
Proof.
  intros files effects.
  destruct (@addMetadataToFiles_writes toy_cover toy_write toy_exists files)
    as (_ & _ & Hw & _ & _ & Hp).
  destruct (@addMetadataToFiles_writes toy_cover toy_write toy_exists toy_files)
    as (Hdone & _).
  fold effects in Hw, Hp.
  split; [vm_compute; reflexivity|].
  split; [rewrite Hw; vm_compute; reflexivity|].
  split; [rewrite Hp; vm_compute; reflexivity|].
  apply Hdone. intros job Hin.
  simpl in Hin. destruct Hin as [<-|[<-|[<-|[]]]]; vm_compute; reflexivity.
Defined.

(* ----------------------------------------------------------------- *)
(** ** How long waitForReconnect waits *)

Lemma after_online_skipn ps :
  after_online ps
  = if existsb (fun b => b) ps then Some (skipn (S (leading_offline ps)) ps) else None.
Proof.
  induction ps as [|[|] ps IH]; [reflexivity|reflexivity|].
  cbn [after_online existsb leading_offline orb]. rewrite IH.
  destruct (existsb (fun b => b) ps); reflexivity.
Qed.

Lemma wait_trace_timing p a ps :
  let t := wait_trace p a ps in
  failed_probes t = leading_offline ps
  /\ total_delay t = (5000 * N.of_nat (leading_offline ps))%N
  /\ probe_count t
     = leading_offline ps + (if existsb (fun b => b) ps then 1 else 0)
  /\ fetch_count t = 0 /\ conversions t = 0.
Proof.
  cbn zeta. revert a. induction ps as [|[|] ps IH]; intros a.
  - repeat split.
  - cbn [wait_trace]. destruct a; repeat split.
  - destruct (IH true) as (I1 & I2 & I3 & I4 & I5).
    cbn [wait_trace leading_offline existsb orb].
    unfold failed_probes, probe_count, fetch_count, conversions in *.
    cbn [filter is_probe is_fetch is_ffmpeg List.length total_delay fold_right].
    fold (total_delay (wait_trace p true ps)).
    rewrite I1, I2, I3, I4, I5. repeat split; try reflexivity. lia.
Qed.

(** X19.  How long [waitForReconnect] waits.  It never throws, and it
    returns exactly when the network answers positively at some poll; it
    has then polled once for each negative answer and once more, has
    slept 5 seconds after each negative answer and not otherwise, and has
    left the later answers alone.  When the first answer is positive it
    prints nothing and does not sleep.  As long as every answer is negative
    it goes on polling, 5 seconds apart. *)
Theorem waitForReconnect_timing (logPrefix : jsstring) (w : World) :
  let o := waitForReconnect logPrefix w in
  let t := wait_events logPrefix w in
  let k := leading_offline (net w) in
  is_throw o = false
  /\ (is_waiting o = false <-> In true (net w))
  /\ failed_probes t = k
  /\ total_delay t = (5000 * N.of_nat k)%N
  /\ (In true (net w) ->
      probe_count t = S k
      /\ net (world_of o) = skipn (S k) (net w)
      /\ files (world_of o) = files w
      /\ (k = 0 -> t = [Probe true]))
  /\ (~ In true (net w) -> probe_count t = List.length (net w)).
Proof.
  cbn zeta. rewrite wait_events_closed, waitForReconnect_closed, after_online_skipn.
  destruct (wait_trace_timing logPrefix false (net w)) as (T1 & T2 & T3 & _).
  assert (Hex : existsb (fun b => b) (net w) = true <-> In true (net w)).
  { rewrite existsb_exists. split; [intros (b & Hin & ->); exact Hin|eauto]. }
  destruct (existsb (fun b => b) (net w)) eqn:E; cbn [is_throw is_waiting world_of].
  - repeat split; auto; try tauto; try (rewrite T3; lia);
      try (intros Hn; exfalso; apply Hn; tauto).
    intros Hk. destruct (net w) as [|[|] ps]; simpl in *; try discriminate.
    reflexivity.
  - assert (Hno : ~ In true (net w)) by (intros H; apply Hex in H; discriminate).
    repeat split; auto; try tauto; try (intros; exfalso; tauto);
      try (intros H; discriminate H).
    intros _. rewrite T3, Nat.add_0_r. clear - Hno.
    induction (net w) as [|[|] ps IH]; simpl in *; [reflexivity|tauto|].
    f_equal. apply IH. tauto.
Qed.

Lemma waitForReconnect_timing_witness :
  let w := world0 [false; false; true; false] [] [] in
  let t := wait_events (lit "(1/4) ") w in
  probe_count t = 3 /\ total_delay t = 10000%N
  /\ net (world_of (waitForReconnect (lit "(1/4) ") w)) = [false].
Proof.
  intros w t.
  destruct (waitForReconnect_timing (lit "(1/4) ") w) as (_ & _ & _ & Hd & Hyes & _).
  destruct Hyes as (Hp & Hn & _); [simpl; auto|].
  split; [exact Hp|]. split; [exact Hd|exact Hn].
Defined.

(* ----------------------------------------------------------------- *)
(** ** The size of a directory *)

Section DirectorySize.

Variable path_join : jsstring -> jsstring -> jsstring.
Variable existsSync : jsstring -> bool.
Variable readdirSync : jsstring -> thrown + list jsstring.
Variable statSync : jsstring -> thrown + Zipper.Stats.
Variable add : N -> N -> N.

(** The addition of JavaScript is exact on integers up to 2^53. *)
Hypothesis add_exact : forall a b, (a + b <= 2 ^ 53)%N -> add a b = (a + b)%N.

Local Abbreviation counted := (Zipper.counted path_join statSync).
Local Abbreviation total := (Zipper.total path_join statSync).
Local Abbreviation examined := (Zipper.examined path_join statSync).

Lemma total_perm dirPath files files' :
  Permutation files files' -> total dirPath files = total dirPath files'.
Proof.
  induction 1; simpl; try lia; congruence.
Qed.

Lemma add_sizes_total dirPath files : forall acc,
  forallb (examined dirPath) files = true ->
  (acc + total dirPath files <= 2 ^ 53)%N ->
  Zipper.add_sizes path_join statSync add dirPath files acc
  = inr (acc + total dirPath files)%N.
Proof.
  induction files as [|file rest IH]; intros acc Hex Hle; simpl in *.
  - now rewrite N.add_0_r.
  - unfold Zipper.examined, Zipper.counted in *.
    destruct (statSync (path_join dirPath file)) as [e|stats]; [discriminate|].
    simpl in Hex. destruct (Zipper.isFile stats).
    + rewrite add_exact by lia. rewrite IH; [f_equal; lia|exact Hex|lia].
    + rewrite IH; [f_equal|exact Hex|lia].
Qed.

Lemma add_sizes_throws dirPath files : forall acc e,
  Zipper.add_sizes path_join statSync add dirPath files acc = inl e ->
  exists before file after,
    files = before ++ file :: after
    /\ forallb (examined dirPath) before = true
    /\ statSync (path_join dirPath file) = inl e.
Proof.
  induction files as [|file rest IH]; intros acc e H; simpl in H; [discriminate|].
  destruct (statSync (path_join dirPath file)) as [e'|stats] eqn:Es.
  - inversion H; subst. exists [], file, rest. auto.
  - destruct (IH _ _ H) as (before & f & after & -> & Hb & Hf).
    exists (file :: before), f, after. repeat split; auto.
    simpl. unfold Zipper.examined at 1. now rewrite Es.
Qed.

End DirectorySize.



(* ----------------------------------------------------------------- *)
(** ** extractVideoId *)

(** What the matcher accepts is in the denotation. *)
Lemma backtrack_sound {A} i r : forall s (k : jsstring -> option A) x,
  backtrack i r s k = Some x ->
  exists p s', s = p ++ s' /\ denotes i r p /\ k s' = Some x.
Proof.
  induction r as [| |a|rs|r1 IH1 r2 IH2|r1 IH1 r2 IH2|r1 IH1]; intros s k x H;
    cbn [backtrack] in H.
  - discriminate.
  - exists [], s. repeat split; auto. constructor.
  - destruct s as [|c s']; [discriminate|].
    destruct (chr_eqb i a c) eqn:E; [|discriminate].
    exists [c], s'. repeat split; auto. now constructor.
  - destruct s as [|c s']; [discriminate|].
    destruct (in_ranges rs c) eqn:E; [|discriminate].
    exists [c], s'. repeat split; auto. now constructor.
  - apply IH1 in H as (p1 & s1 & -> & D1 & H).
    apply IH2 in H as (p2 & s2 & -> & D2 & H).
    exists (p1 ++ p2), s2. rewrite app_assoc. repeat split; auto. now constructor.
  - destruct (backtrack i r1 s k) as [y|] eqn:E.
    + inversion H; subst y. apply IH1 in E as (p & s' & -> & D & Hk).
      exists p, s'. repeat split; auto. now apply d_alt_l.
    + apply IH2 in H as (p & s' & -> & D & Hk).
      exists p, s'. repeat split; auto. now apply d_alt_r.
  - revert H. generalize (List.length s) at 1. intros fuel. revert s.
    induction fuel as [|fuel IHf]; intros s H.
    + exists [], s. repeat split; auto. constructor.
    + match type of H with
      | match ?m with _ => _ end = _ => destruct m as [y|] eqn:E
      end.
      * inversion H; subst y. apply IH1 in E as (p & s' & -> & D & Hk).
        destruct (List.length s' <? List.length (p ++ s')); [|discriminate].
        apply IHf in Hk as (p2 & s2 & -> & D2 & Hk).
        exists (p ++ p2), s2. rewrite app_assoc. repeat split; auto.
        now constructor.
      * exists [], s. repeat split; auto. constructor.
Qed.

Lemma drop_while_length p s : List.length (drop_while p s) <= List.length s.
Proof.
  induction s as [|c s IH]; simpl; [lia|]. destruct (p c); simpl; lia.
Qed.

Lemma take_drop_while p s :
  firstn (List.length s - List.length (drop_while p s)) s = take_while p s.
Proof.
  induction s as [|c s IH]; [reflexivity|].
  cbn [drop_while take_while]. destruct (p c).
  - cbn [List.length]. rewrite Nat.sub_succ_l by apply drop_while_length.
    cbn [firstn]. now rewrite IH.
  - now rewrite Nat.sub_diag.
Qed.

(** A repetition of a class, followed by something that cannot fail, takes
    the longest run. *)
Lemma backtrack_star_class {A} i rs (k : jsstring -> option A) s :
  (forall s', k s' <> None) ->
  backtrack i (Star (Class rs)) s k = k (drop_while (in_ranges rs) s).
Proof.
  intros Hk. cbn [backtrack].
  assert (Hloop : forall fuel s, List.length s <= fuel ->
    (fix loop (fuel : nat) (s : jsstring) : option A :=
       match fuel with
       | O => k s
       | S fuel' =>
           match
             match s with
             | c :: s' =>
                 if in_ranges rs c
                 then (fun s'0 => if List.length s'0 <? List.length s
                                  then loop fuel' s'0 else None) s'
                 else None
             | [] => None
             end
           with
           | Some x => Some x
           | None => k s
           end
       end) fuel s = k (drop_while (in_ranges rs) s)).
  { induction fuel as [|fuel IH]; intros s0 Hlen.
    - destruct s0; [reflexivity|simpl in Hlen; lia].
    - destruct s0 as [|c s']; [reflexivity|].
      cbn [drop_while]. destruct (in_ranges rs c); [|reflexivity].
      cbv beta. simpl List.length.
      replace (List.length s' <? S (List.length s')) with true
        by (symmetry; apply Nat.ltb_lt; lia).
      rewrite IH by (simpl in Hlen; lia).
      destruct (k (drop_while (in_ranges rs) s')) eqn:E; [reflexivity|].
      now apply Hk in E. }
  apply Hloop. lia.
Qed.

Lemma backtrack_Seq {A} i r1 r2 s (k : jsstring -> option A) :
  backtrack i (Seq r1 r2) s k = backtrack i r1 s (fun s' => backtrack i r2 s' k).
Proof. reflexivity. Qed.

Lemma backtrack_Class_cons {A} i rs c s (k : jsstring -> option A) :
  backtrack i (Class rs) (c :: s) k = if in_ranges rs c then k s else None.
Proof. reflexivity. Qed.

Lemma backtrack_Alt {A} i r1 r2 s (k : jsstring -> option A) :
  backtrack i (Alt r1 r2) s k
  = match backtrack i r1 s k with
    | Some x => Some x
    | None => backtrack i r2 s k
    end.
Proof. reflexivity. Qed.

(** The group: the longest run of identifier characters, if it is not
    empty. *)
Lemma video_id_group s1 :
  backtrack false (Plus (Class video_id_ranges)) s1
    (fun s2 => Some (firstn (List.length s1 - List.length s2) s1))
  = match take_while (in_ranges video_id_ranges) s1 with
    | [] => None
    | id => Some id
    end.
Proof.
  unfold Plus. rewrite backtrack_Seq.
  destruct s1 as [|c s']; [reflexivity|].
  rewrite backtrack_Class_cons.
  cbn [take_while]. destruct (in_ranges video_id_ranges c); [|reflexivity].
  rewrite (@backtrack_star_class _ false video_id_ranges
             (fun s2 => Some (firstn (List.length (c :: s') - List.length s2) (c :: s'))) s')
    by discriminate.
  cbn [List.length]. rewrite Nat.sub_succ_l by apply drop_while_length.
  cbn [firstn]. now rewrite take_drop_while.
Qed.

Lemma backtrack_Str_app {A} p : forall s (k : jsstring -> option A),
  backtrack false (Str p) (p ++ s) k = k s.
Proof.
  induction p as [|a p IH]; intros s k; simpl; [reflexivity|].
  rewrite N.eqb_refl. apply IH.
Qed.

Lemma denotes_alt_inv i r1 r2 s :
  denotes i (Alt r1 r2) s -> denotes i r1 s \/ denotes i r2 s.
Proof. intros H. inversion H; subst; auto. Qed.

Lemma denotes_class_inv i rs s :
  denotes i (Class rs) s -> exists c, s = [c] /\ in_ranges rs c = true.
Proof. intros H. inversion H; subst; eauto. Qed.

(** The words of the prefix. *)
Lemma denotes_video_prefix p :
  denotes false re_video_prefix p ->
  p = lit "youtu.be/"
  \/ exists d c,
       p = lit "youtube.com/" ++ d ++ c :: lit "v="
       /\ (c = 63%N \/ c = 38%N)
       /\ forallb (in_ranges dot_ranges) d = true.
Proof.
  unfold re_video_prefix. intros H.
  apply denotes_alt_inv in H as [H|H]; [|apply denotes_alt_inv in H as [H|H]].
  - apply denotes_Str in H. subst p. right.
    exists (lit "watch"), 63%N. repeat split; auto.
  - right.
    apply denotes_seq_inv in H as (p1 & p2 & -> & D1 & D2).
    apply denotes_Str in D1. subst p1.
    apply denotes_seq_inv in D2 as (d & p3 & -> & Dd & D3).
    apply denotes_Star_Class in Dd.
    apply denotes_seq_inv in D3 as (pc & pv & -> & Dc & Dv).
    apply denotes_Str in Dv. subst pv.
    apply denotes_class_inv in Dc as (c & -> & Hc).
    exists d, c. split; [reflexivity|]. split; [|exact Dd].
    unfold in_ranges in Hc. cbn [existsb fst snd] in Hc.
    rewrite orb_false_r in Hc. apply orb_true_iff in Hc.
    destruct Hc as [E|E]; apply andb_true_iff in E as [E1 E2];
      apply N.leb_le in E1; apply N.leb_le in E2; [left|right]; lia.
  - apply denotes_Str in H. now left.
Qed.

Lemma extractVideoId_found : forall url id,
  extractVideoId url = Some id ->
  exists a s, url = a ++ s /\ match_video_at s = Some id.
Proof.
  induction url as [|c rest IH]; intros id H; cbn [extractVideoId] in H.
  - destruct (match_video_at []) eqn:E; [|discriminate].
    inversion H; subst. exists [], []. auto.
  - destruct (match_video_at (c :: rest)) eqn:E.
    + inversion H; subst. exists [], (c :: rest). auto.
    + destruct (IH _ H) as (a & s & -> & Hs). exists (c :: a), s. auto.
Qed.

Lemma backtrack_Str_other {A} a p c s (k : jsstring -> option A) :
  a <> c -> backtrack false (Str (a :: p)) (c :: s) k = None.
Proof.
  intros H. cbn [Str]. rewrite backtrack_Seq. cbn [backtrack].
  unfold chr_eqb. apply N.eqb_neq in H. now rewrite H.
Qed.

(** No match starts where the text does not begin with a [y]. *)
Lemma match_video_at_other c s : c <> 121%N -> match_video_at (c :: s) = None.
Proof.
  intros Hc. unfold match_video_at, re_video_prefix.
  change (lit "youtube.com/watch?v=") with (121%N :: lit "outube.com/watch?v=").
  change (lit "youtube.com/") with (121%N :: lit "outube.com/").
  change (lit "youtu.be/") with (121%N :: lit "outu.be/").
  rewrite !backtrack_Alt, backtrack_Seq, !backtrack_Str_other by congruence.
  reflexivity.
Qed.

Lemma extractVideoId_skip a : forall s,
  forallb (fun c => negb (c =? 121)%N) a = true ->
  extractVideoId (a ++ s) = extractVideoId s.
Proof.
  induction a as [|c a IH]; intros s H; [reflexivity|].
  simpl in H. apply andb_true_iff in H as [Hc Ha].
  cbn [app extractVideoId]. rewrite match_video_at_other.
  - now apply IH.
  - intros ->. discriminate Hc.
Qed.

Lemma extractVideoId_here s id :
  match_video_at s = Some id -> extractVideoId s = Some id.
Proof. intros H. destruct s; cbn [extractVideoId]; now rewrite H. Qed.

Lemma take_while_run f (id rest : jsstring) :
  forallb f id = true ->
  (forall c, hd_error rest = Some c -> f c = false) ->
  take_while f (id ++ rest) = id.
Proof.
  intros Hid Hrest. induction id as [|c id IH]; simpl in *.
  - destruct rest as [|d rest]; [reflexivity|].
    simpl. now rewrite (Hrest d eq_refl).
  - apply andb_true_iff in Hid as [-> Hid]. now rewrite IH.
Qed.

(** X21.  What [extractVideoId] returns.  Its result is never empty, holds
    none of [&], [?], [#] and the line feed, and is the longest such run
    that stands in the link right after [youtu.be/], or after
    [youtube.com/], a stretch without line terminator, and [?v=] or [&v=].
    Round trip: the link that [downloadSong] and [fetchSongDetails] make of
    an identifier gives that identifier back, also with parameters after
    it, and so does the short link. *)
Theorem extractVideoId_result :
  (forall url id,
     extractVideoId url = Some id ->
     id <> [] /\ forallb (in_ranges video_id_ranges) id = true
     /\ exists a p q,
          url = a ++ p ++ id ++ q
          /\ (forall c, hd_error q = Some c -> in_ranges video_id_ranges c = false)
          /\ (p = lit "youtu.be/"
              \/ exists d c,
                   p = lit "youtube.com/" ++ d ++ c :: lit "v="
                   /\ (c = 63%N \/ c = 38%N)
                   /\ forallb (in_ranges dot_ranges) d = true))
  /\ (forall id rest,
        id <> [] -> forallb (in_ranges video_id_ranges) id = true ->
        (forall c, hd_error rest = Some c -> in_ranges video_id_ranges c = false) ->
        extractVideoId (videoUrl id ++ rest) = Some id
        /\ extractVideoId (lit "https://youtu.be/" ++ id ++ rest) = Some id).
Proof.
  split.
  - intros url id H.
    destruct (extractVideoId_found _ H) as (a & s & -> & Hs).
    unfold match_video_at in Hs.
    apply backtrack_sound in Hs as (p & s1 & -> & Dp & Hg).
    rewrite video_id_group in Hg.
    pose proof (take_while_forallb (in_ranges video_id_ranges) s1) as Hall.
    destruct (take_while_rest (in_ranges video_id_ranges) s1) as (q & Hs1 & Hq).
    destruct (take_while (in_ranges video_id_ranges) s1) as [|c run] eqn:Et;
      [discriminate|].
    inversion Hg; subst id. split; [discriminate|]. split; [exact Hall|].
    exists a, p, q. split; [now rewrite Hs1 at 1|]. split; [exact Hq|].
    now apply denotes_video_prefix.
  - intros id rest Hne Hid Hrest.
    assert (Hgroup :
      backtrack false (Plus (Class video_id_ranges)) (id ++ rest)
        (fun s2 => Some (firstn (List.length (id ++ rest) - List.length s2) (id ++ rest)))
      = Some id).
    { rewrite video_id_group, (take_while_run _ _ _ Hid Hrest).
      destruct id; [congruence|reflexivity]. }
    split.
    + unfold videoUrl.
      change (lit "https://www.youtube.com/watch?v=")
        with (lit "https://www." ++ lit "youtube.com/watch?v=").
      rewrite <- !app_assoc.
      rewrite extractVideoId_skip by reflexivity.
      apply extractVideoId_here. unfold match_video_at, re_video_prefix.
      rewrite backtrack_Alt, backtrack_Str_app, Hgroup. reflexivity.
    + change (lit "https://youtu.be/") with (lit "https://" ++ lit "youtu.be/").
      rewrite <- !app_assoc.
      rewrite extractVideoId_skip by reflexivity.
      apply extractVideoId_here. unfold match_video_at, re_video_prefix.
      rewrite !backtrack_Alt, backtrack_Seq.
      replace (backtrack false (Str (lit "youtube.com/watch?v="))
                 (lit "youtu.be/" ++ id ++ rest) _)
        with (@None jsstring) by reflexivity.
      replace (backtrack false (Str (lit "youtube.com/"))
                 (lit "youtu.be/" ++ id ++ rest) _)
        with (@None jsstring) by reflexivity.
      rewrite backtrack_Str_app, Hgroup. reflexivity.
Qed.

Lemma extractVideoId_result_witness :
  extractVideoId (videoUrl (lit "dQw4w9WgXcQ") ++ lit "&list=PL1") = Some (lit "dQw4w9WgXcQ")
  /\ extractVideoId (lit "https://youtu.be/" ++ lit "dQw4w9WgXcQ" ++ lit "?t=42")
     = Some (lit "dQw4w9WgXcQ")
  /\ exists a p q,
       lit "https://www.youtube.com/embed?x=1&v=ab&v=cd#t" = a ++ p ++ lit "cd" ++ q.
Proof.
  destruct extractVideoId_result as (Hshape & Hround).
  destruct (Hround (lit "dQw4w9WgXcQ") (lit "&list=PL1")) as (H1 & _);
    [discriminate|reflexivity|intros c H; inversion H; reflexivity|].
  destruct (Hround (lit "dQw4w9WgXcQ") (lit "?t=42")) as (_ & H2);
    [discriminate|reflexivity|intros c H; inversion H; reflexivity|].
  split; [exact H1|]. split; [exact H2|].
  destruct (Hshape (lit "https://www.youtube.com/embed?x=1&v=ab&v=cd#t") (lit "cd"))
    as (_ & _ & a & p & q & Hurl & _); [vm_compute; reflexivity|].
  exists a, p, q. exact Hurl.
Defined.
